(** * header-abi-linker: the aggregation and export-filtering engine

    A shallow embedding of
    [vndk/tools/header-checker/header-abi-linker/src/header_abi_linker.cpp].

    The linker merges many per-translation-unit ABI dumps into one graph
    (worker threads sharing an atomic batch cursor), and then forwards to the
    output dumper the declarations that survive the header filter and the
    exported-symbol filter (exact names, or version-script wildcards compiled
    into one [std::regex]).

    Layout of the development:
    - [Regex]: the fragment of ECMAScript [std::regex] the linker relies on;
    - [Ir]: ABI elements, graphs, the output dumper;
    - the [World] of external collaborators and the linker itself, from
      [QueryRegexMatches] to [main], in the order of the source;
    - the notions the statements are written with, and a few concrete runs;
    - the proofs: the export filter, the wildcard matcher, the
      aggregation. *)

From Stdlib Require Import ZArith NArith Ascii String List Bool Lia.
From stdpp Require Import base option list strings gmap.

(* ===================================================================== *)
(** ** The [std::regex] fragment *)
(* ===================================================================== *)

Module Regex.

(** Abstract syntax of the ECMAScript patterns that are modelled:
    alternation, concatenation, capture groups, the quantifiers [*], [+] and
    [?], the atom [.], literal characters, identity escapes and the
    assertions [\b], [\B], [^] and [$]. *)
Inductive re : Type :=
  | Eps
  | Chr (c : ascii)
  | AnyChar
  | WordBoundary
  | NotWordBoundary
  | LineStart
  | LineEnd
  | Seq (a b : re)
  | Alt (a b : re)
  | Star (a : re)
  | Plus (a : re)
  | Opt (a : re)
  | Group (a : re).

Definition in_range (lo hi : N) (c : ascii) : bool :=
  (lo <=? N_of_ascii c)%N && (N_of_ascii c <=? hi)%N.

Definition is_digit (c : ascii) : bool := in_range 48 57 c.

Definition is_alpha (c : ascii) : bool :=
  in_range 65 90 c || in_range 97 122 c.

(** Class [w] of the regex traits in the "C" locale: alphanumerics and [_]. *)
Definition is_word (c : ascii) : bool :=
  is_alpha c || is_digit c || (N_of_ascii c =? 95)%N.

(** [.] matches everything but the line terminators LF and CR. *)
Definition is_line_terminator (c : ascii) : bool :=
  (N_of_ascii c =? 10)%N || (N_of_ascii c =? 13)%N.

(** Characters with a syntactic role outside brackets. *)
Definition is_syntax_char (c : ascii) : bool :=
  existsb (Ascii.eqb c)
    ["^"; "$"; "\"; "."; "*"; "+"; "?"; "("; ")"; "["; "]"; "{"; "}"; "|"]%char.

(** Is [needle] a prefix of [s]? *)
Fixpoint starts_with (needle s : string) : bool :=
  match needle, s with
  | EmptyString, _ => true
  | String a needle', String b s' => Ascii.eqb a b && starts_with needle' s'
  | String _ _, EmptyString => false
  end.

(** *** Parsing

    A recursive-descent parser of the pattern text; [fuel] bounds the
    recursion depth.  [None] stands for a [std::regex_error] and for syntax
    outside the modelled fragment (brackets, braces, back-references, class
    escapes, lazy quantifiers, look-ahead). *)

Definition parse_quantifier (atom : re) (s : string) : option (re * string) :=
  match s with
  | EmptyString => Some (atom, s)
  | String c s' =>
      let lazy_mark := starts_with "?" s' in
      if Ascii.eqb c "*" then
        if lazy_mark then None else Some (Star atom, s')
      else if Ascii.eqb c "+" then
        if lazy_mark then None else Some (Plus atom, s')
      else if Ascii.eqb c "?" then
        if lazy_mark then None else Some (Opt atom, s')
      else if Ascii.eqb c "{" then None
      else Some (atom, s)
  end.

Definition parse_escape (s : string) : option (re * string) :=
  match s with
  | EmptyString => None
  | String c s' =>
      if Ascii.eqb c "b" then Some (WordBoundary, s')
      else if Ascii.eqb c "B" then Some (NotWordBoundary, s')
      else if is_alpha c || is_digit c then None
      else parse_quantifier (Chr c) s'
  end.

Fixpoint parse_disjunction (fuel : nat) (s : string) : option (re * string) :=
  match fuel with
  | O => None
  | S fuel' =>
      match parse_alternative fuel' s with
      | Some (a, String c s') =>
          if Ascii.eqb c "|" then
            match parse_disjunction fuel' s' with
            | Some (b, s'') => Some (Alt a b, s'')
            | None => None
            end
          else Some (a, String c s')
      | r => r
      end
  end
with parse_alternative (fuel : nat) (s : string) : option (re * string) :=
  match fuel with
  | O => None
  | S fuel' =>
      if starts_with "|" s || starts_with ")" s || String.eqb s "" then
        Some (Eps, s)
      else
        match parse_term fuel' s with
        | Some (t, s') =>
            match parse_alternative fuel' s' with
            | Some (a, s'') => Some (Seq t a, s'')
            | None => None
            end
        | None => None
        end
  end
with parse_term (fuel : nat) (s : string) : option (re * string) :=
  match fuel with
  | O => None
  | S fuel' =>
      match s with
      | EmptyString => None
      | String c s' =>
          if Ascii.eqb c "^" then Some (LineStart, s')
          else if Ascii.eqb c "$" then Some (LineEnd, s')
          else if Ascii.eqb c "\" then parse_escape s'
          else if Ascii.eqb c "." then parse_quantifier AnyChar s'
          else if Ascii.eqb c "(" then
            if starts_with "?" s' then None
            else
              match parse_disjunction fuel' s' with
              | Some (a, String c' s'') =>
                  if Ascii.eqb c' ")" then parse_quantifier (Group a) s''
                  else None
              | _ => None
              end
          else if is_syntax_char c then None
          else parse_quantifier (Chr c) s'
      end
  end.

Definition parse (s : string) : option re :=
  match parse_disjunction (3 * String.length s + 3) s with
  | Some (r, EmptyString) => Some r
  | _ => None
  end.

(** *** Matching

    A backtracking matcher in continuation-passing style.  [prev] is the
    character before the current position ([None] at the start of the
    subject), [s] the rest of the subject; the continuation receives the
    position after the match. *)

Definition prev_is_word (prev : option ascii) : bool :=
  match prev with Some c => is_word c | None => false end.

Definition next_is_word (s : string) : bool :=
  match s with String c _ => is_word c | EmptyString => false end.

(** [\b]: exactly one of the two neighbours is a word character. *)
Definition at_word_boundary (prev : option ascii) (s : string) : bool :=
  negb (eqb (prev_is_word prev) (next_is_word s)).

Definition at_line_start (prev : option ascii) : bool :=
  match prev with None => true | Some _ => false end.

Definition at_line_end (s : string) : bool :=
  match s with EmptyString => true | String _ _ => false end.

Definition Continuation : Type := option ascii -> string -> bool.

(** Zero or more rounds of [once], each of which has to consume something,
    and then the continuation; [n] bounds the number of rounds. *)
Fixpoint iterate (once : option ascii -> string -> Continuation -> bool)
    (k : Continuation) (n : nat) (prev : option ascii) (s : string) : bool :=
  match n with
  | O => k prev s
  | S n' =>
      once prev s
        (fun prev' s' =>
           if (String.length s' <? String.length s)%nat
           then iterate once k n' prev' s' else false)
      || k prev s
  end.

Fixpoint matches (r : re) (prev : option ascii) (s : string)
    (k : Continuation) {struct r} : bool :=
  match r with
  | Eps => k prev s
  | Chr c =>
      match s with
      | String c' s' => if Ascii.eqb c c' then k (Some c') s' else false
      | EmptyString => false
      end
  | AnyChar =>
      match s with
      | String c' s' => if is_line_terminator c' then false else k (Some c') s'
      | EmptyString => false
      end
  | WordBoundary => if at_word_boundary prev s then k prev s else false
  | NotWordBoundary => if at_word_boundary prev s then false else k prev s
  | LineStart => if at_line_start prev then k prev s else false
  | LineEnd => if at_line_end s then k prev s else false
  | Seq a b => matches a prev s (fun prev' s' => matches b prev' s' k)
  | Alt a b => matches a prev s k || matches b prev s k
  | Star a => iterate (matches a) k (String.length s) prev s
  | Plus a =>
      matches a prev s
        (fun prev' s' => iterate (matches a) k (String.length s') prev' s')
  | Opt a => matches a prev s k || k prev s
  | Group a => matches a prev s k
  end.

(** [std::regex_search]: is there a position of the subject at which the
    expression matches?  Every start position is tried, the end of the
    subject included. *)
Fixpoint search_from (r : re) (prev : option ascii) (s : string) : bool :=
  matches r prev s (fun _ _ => true)
  || match s with
     | EmptyString => false
     | String c s' => search_from r (Some c) s'
     end.

(** A [std::regex] object: default-constructed (it matches nothing), or
    compiled from a pattern. *)
Inductive regex : Type :=
  | regex_default
  | regex_compiled (r : re).

Definition regex_search (s : string) (e : regex) : bool :=
  match e with
  | regex_default => false
  | regex_compiled r => search_from r None s
  end.

(** The constructor [std::regex(const std::string &)]. *)
Definition regex_of_string (s : string) : option regex :=
  match parse s with
  | Some r => Some (regex_compiled r)
  | None => None
  end.

End Regex.

(* ===================================================================== *)
(** ** ABI elements, graphs and the output dumper *)
(* ===================================================================== *)

Module Ir.

Inductive TextFormatIR : Type := ProtobufTextFormat | Json.

(** Every element of a dump derives from [LinkableMessageIR]; the linker only
    looks at its source file.  [body] stands for the rest of the element. *)
Record LinkableMessageIR : Type := {
  GetSourceFile : string;
  body : string
}.

Record ElfFunctionIR : Type := { function_name : string }.
Record ElfObjectIR : Type := { object_name : string }.

Inductive ElfSymbolIR : Type :=
  | ElfFunction (f : ElfFunctionIR)
  | ElfObject (o : ElfObjectIR).

#[global] Instance LinkableMessageIR_eq_dec : EqDecision LinkableMessageIR.
Proof. solve_decision. Defined.
#[global] Instance ElfFunctionIR_eq_dec : EqDecision ElfFunctionIR.
Proof. solve_decision. Defined.
#[global] Instance ElfObjectIR_eq_dec : EqDecision ElfObjectIR.
Proof. solve_decision. Defined.
#[global] Instance ElfSymbolIR_eq_dec : EqDecision ElfSymbolIR.
Proof. solve_decision. Defined.

(** Modelled from the spec: [abi_util::AbiElementMap] is declared in
    [ir_representation.h], which is not part of the sources at hand.  The spec
    calls a category "a mapping from declaration key to a typed descriptor";
    it is kept here as the sequence of its entries in iteration order, so
    that "each key at most once" is a property to establish and not one
    granted by the type. *)
Definition AbiElementMap : Type := list (string * LinkableMessageIR).

Definition keys (m : AbiElementMap) : list string := m.*1.

Definition has_key (k : string) (m : AbiElementMap) : bool :=
  bool_decide (k ∈ keys m).

(** The entity categories a reader exposes ([GetRecordTypes], ...,
    [GetGlobalVariables]). *)
Inductive Category : Type :=
  | RecordTypes | EnumTypes | FunctionTypes | BuiltinTypes | PointerTypes
  | RvalueReferenceTypes | LvalueReferenceTypes | ArrayTypes | QualifiedTypes
  | Functions | GlobalVariables.

#[global] Instance Category_eq_dec : EqDecision Category.
Proof. solve_decision. Defined.

Definition all_categories : list Category :=
  [RecordTypes; EnumTypes; FunctionTypes; BuiltinTypes; PointerTypes;
   RvalueReferenceTypes; LvalueReferenceTypes; ArrayTypes; QualifiedTypes;
   Functions; GlobalVariables].

(** The contents of a [TextFormatToIRReader]: one map per category. *)
Definition Graph : Type := Category -> AbiElementMap.

Definition empty_graph : Graph := fun _ => [].

(** Modelled from the spec: [TextFormatToIRReader::MergeGraphs] is not part of
    the sources at hand.  "Merge of graph A into graph B is a per-category
    union by declaration key; if both contain the same key, either descriptor
    may be kept": an entry of the source is added unless its key is already
    there, so the destination's descriptor is the one that is kept. *)
Fixpoint merge_elements (dst src : AbiElementMap) : AbiElementMap :=
  match src with
  | [] => dst
  | (k, d) :: src' =>
      merge_elements (if has_key k dst then dst else (dst ++ [(k, d)])%list) src'
  end.

Definition MergeGraphs (dst src : Graph) : Graph :=
  fun c => merge_elements (dst c) (src c).

(** Modelled from the spec: [abi_util::IRDumper] is not part of the sources at
    hand.  "Sink.add(declaration) -> Result<(), SinkWriteError>": the dumper
    records what it was given, in order; whether it accepts an entity is left
    to the environment (see [World] below). *)
Record IRDumper : Type := {
  elf_symbols : list ElfSymbolIR;
  linkable_messages : list LinkableMessageIR;
  dumped : bool
}.

Definition CreateIRDumper : IRDumper :=
  {| elf_symbols := []; linkable_messages := []; dumped := false |}.

End Ir.

Import Regex Ir.

(** Modelled from the spec: [abi_util::FindAndReplace] is declared in
    [header_abi_util.h], which is not part of the sources at hand.  The linker
    calls it with the find expression [\*] and the replacement [.*], for
    "translate [*] to match any substring": every occurrence of the text the
    find expression stands for is replaced.  The find expression is read as a
    sequence of literal characters, a backslash quoting the next one. *)
Fixpoint find_expr_text (find_str : string) : string :=
  match find_str with
  | String "\" (String c rest) => String c (find_expr_text rest)
  | String c rest => String c (find_expr_text rest)
  | EmptyString => EmptyString
  end.

Fixpoint replace_text (skip : nat) (needle replace_str s : string) : string :=
  match s with
  | EmptyString => EmptyString
  | String c s' =>
      match skip with
      | S n => replace_text n needle replace_str s'
      | O =>
          if starts_with needle s
          then replace_str +:+ replace_text (String.length needle - 1) needle replace_str s'
          else String c (replace_text 0 needle replace_str s')
      end
  end.

Definition FindAndReplace (candidate_str find_str replace_str : string) : string :=
  match find_expr_text find_str with
  | EmptyString => candidate_str
  | needle => replace_text 0 needle replace_str candidate_str
  end.

(* ===================================================================== *)
(** ** The environment of a run *)
(* ===================================================================== *)

(** What [abi_util::VersionScriptParser] hands over after a successful
    [Parse()].  The two [std::set<std::string>] of wildcard patterns are given
    by their sequence of elements in iteration order. *)
Record VersionScript : Type := {
  GetFunctions : gmap string ElfFunctionIR;
  GetGlobVars : gmap string ElfObjectIR;
  GetFunctionRegexs : list string;
  GetGlobVarRegexs : list string
}.

(** What opening the shared object yields, one case per exit of
    [ParseSoFile]. *)
Inductive SoFile : Type :=
  | NoBinary
  | NotAnObjectFile
  | NoSoFileParser
  | SoSymbols (functions : gmap string ElfFunctionIR)
              (globvars : gmap string ElfObjectIR).

(** The external collaborators: the file system, the parsers, the machine,
    the thread scheduler and the output dumper's verdicts. *)
Record World : Type := {
  CollectAllExportedHeaders : list string -> gset string;
  ReadDump : TextFormatIR -> gset string -> string -> option Graph;
  VersionScriptParser_Parse : string -> string -> string -> option VersionScript;
  createBinary : string -> SoFile;
  hardware_concurrency : N;
  (** the order in which the aggregation threads take their steps *)
  thread_schedule : list nat;
  AddElfSymbolMessageIR_ok : IRDumper -> ElfSymbolIR -> bool;
  AddLinkableMessageIR_ok : IRDumper -> LinkableMessageIR -> bool;
  Dump_ok : IRDumper -> bool
}.

(** The [llvm::cl] options. *)
Record CommandLine : Type := {
  dump_files : list string;
  linked_dump : string;
  exported_header_dirs : list string;
  version_script : string;
  api : string;
  arch : string;
  no_filter : bool;
  so_file : string;
  input_format : TextFormatIR;
  output_format : TextFormatIR
}.

(** How a call comes to an end: it returns, the process leaves through
    [::exit], a [std::regex_error] escapes, or the thread schedule of the
    [World] stops before every thread could be joined. *)
Inductive Result (A : Type) : Type :=
  | Returned (a : A)
  | Exited (code : Z)
  | RegexError
  | NotJoined.

Arguments Returned {A} a.
Arguments Exited {A} code.
Arguments RegexError {A}.
Arguments NotJoined {A}.

(* ===================================================================== *)
(** ** The linker *)
(* ===================================================================== *)

Definition kSourcesPerBatchThread : N := 7.

(** [std::size_t] is 64 bits wide. *)
Definition size_t_modulus : N := 2 ^ 64.

Definition size_t_add (a b : N) : N := ((a + b) mod size_t_modulus)%N.

(** The mutable members of [class HeaderAbiLinker]. *)
Record HeaderAbiLinker : Type := {
  exported_headers_ : gset string;
  function_decl_map_ : gmap string ElfFunctionIR;
  globvar_decl_map_ : gmap string ElfObjectIR;
  functions_regex_matched_set : gset string;
  functions_vs_regex_ : regex;
  globvars_regex_matched_set : gset string;
  globvars_vs_regex_ : regex
}.

Definition new_HeaderAbiLinker : HeaderAbiLinker :=
  {| exported_headers_ := ∅;
     function_decl_map_ := ∅;
     globvar_decl_map_ := ∅;
     functions_regex_matched_set := ∅;
     functions_vs_regex_ := regex_default;
     globvars_regex_matched_set := ∅;
     globvars_vs_regex_ := regex_default |}.

(** The state a run threads through: the linker object, the output dumper
    and what was written to [llvm::errs()], one entry per line. *)
Record Process : Type := {
  this : HeaderAbiLinker;
  ir_dumper : IRDumper;
  errs : list string
}.

Definition set_this (l : HeaderAbiLinker) (p : Process) : Process :=
  {| this := l; ir_dumper := ir_dumper p; errs := errs p |}.

Definition set_ir_dumper (d : IRDumper) (p : Process) : Process :=
  {| this := this p; ir_dumper := d; errs := errs p |}.

Definition print_err (line : string) (p : Process) : Process :=
  {| this := this p; ir_dumper := ir_dumper p; errs := (errs p ++ [line])%list |}.

Definition new_Process : Process :=
  {| this := new_HeaderAbiLinker; ir_dumper := CreateIRDumper; errs := [] |}.

(** *** The wildcard matcher *)

Definition QueryRegexMatches (regex_matched_link_set : gset string)
    (vs_regex : regex) (symbol : string) : bool * gset string :=
  if bool_decide (symbol ∈ regex_matched_link_set) then
    (false, regex_matched_link_set)
  else if regex_search symbol vs_regex then
    (true, {[symbol]} ∪ regex_matched_link_set)
  else
    (false, regex_matched_link_set).

(** The [while] loop of [CreateRegexMatchExprFromSet]: [it] is what is left of
    the set to visit. *)
Fixpoint regex_match_str_loop (all_regex_match_str : string) (it : list string)
    : string :=
  match it with
  | [] => all_regex_match_str
  | pattern :: it' =>
      let regex_match_str_find_glob := FindAndReplace pattern "\*" ".*" in
      let all_regex_match_str :=
        all_regex_match_str +:+ ("(\b" +:+ regex_match_str_find_glob +:+ "\b)") in
      let all_regex_match_str :=
        match it' with
        | [] => all_regex_match_str
        | _ :: _ => all_regex_match_str +:+ "|"
        end in
      regex_match_str_loop all_regex_match_str it'
  end.

(** [None]: the [std::regex] constructor throws. *)
Definition CreateRegexMatchExprFromSet (link_set : list string) : option regex :=
  let all_regex_match_str := regex_match_str_loop "" link_set in
  if String.eqb all_regex_match_str "" then Some regex_default
  else regex_of_string all_regex_match_str.

(** *** The aggregation threads *)

Inductive ThreadStatus : Type :=
  | InLoop      (** about to execute [cnt->fetch_add] *)
  | AtLock      (** left the loop, about to take [greader_lock] and merge *)
  | Finished.   (** returned from [DeDuplicateAbiElementsThread] *)

#[global] Instance ThreadStatus_eq_dec : EqDecision ThreadStatus.
Proof. solve_decision. Defined.

(** One invocation of [DeDuplicateAbiElementsThread].  [claimed] and [decoded]
    are a record of what the thread did, not state of the program: the
    offsets it obtained from [fetch_add] that were in range, and the paths it
    passed to [ReadDump], both in order. *)
Record Thread : Type := {
  local_reader : Graph;
  status : ThreadStatus;
  claimed : list N;
  decoded : list string
}.

Definition new_Thread : Thread :=
  {| local_reader := empty_graph; status := InLoop; claimed := []; decoded := [] |}.

(** What the threads share: the atomic counter and the global reader. *)
Record Aggregation : Type := {
  cnt : N;
  greader : Graph;
  threads : list Thread
}.

Section Linker.

Context (world : World).

(** *** Writing to the dumper *)

Definition AddElfSymbolMessageIR (dst : IRDumper) (symbol : ElfSymbolIR)
    : bool * IRDumper :=
  if AddElfSymbolMessageIR_ok world dst symbol then
    (true, {| elf_symbols := (elf_symbols dst ++ [symbol])%list;
              linkable_messages := linkable_messages dst;
              dumped := dumped dst |})
  else (false, dst).

Definition AddLinkableMessageIR (dst : IRDumper) (element : LinkableMessageIR)
    : bool * IRDumper :=
  if AddLinkableMessageIR_ok world dst element then
    (true, {| elf_symbols := elf_symbols dst;
              linkable_messages := (linkable_messages dst ++ [element])%list;
              dumped := dumped dst |})
  else (false, dst).

Definition Dump (dst : IRDumper) : bool * IRDumper :=
  if Dump_ok world dst then
    (true, {| elf_symbols := elf_symbols dst;
              linkable_messages := linkable_messages dst;
              dumped := true |})
  else (false, dst).

(** The [for] loop of the file-level template [AddElfSymbols]. *)
Fixpoint AddElfSymbols_loop (dst : IRDumper) (symbols : list ElfSymbolIR)
    : bool * IRDumper :=
  match symbols with
  | [] => (true, dst)
  | symbol :: rest =>
      let '(ok, dst') := AddElfSymbolMessageIR dst symbol in
      if negb ok then (false, dst') else AddElfSymbols_loop dst' rest
  end.

(** [::AddElfSymbols]: [as_symbol] is the upcast of [T] to [ElfSymbolIR]. *)
Definition AddElfSymbols_map {T : Type} (as_symbol : T -> ElfSymbolIR)
    (dst : IRDumper) (symbols : gmap string T) : bool * IRDumper :=
  AddElfSymbols_loop dst (as_symbol <$> (map_to_list symbols).*2).

(** [HeaderAbiLinker::AddElfSymbols]. *)
Definition AddElfSymbols (p : Process) : bool * Process :=
  let '(ok, d) := AddElfSymbols_map ElfFunction (ir_dumper p) (function_decl_map_ (this p)) in
  if ok then
    let '(ok', d') := AddElfSymbols_map ElfObject d (globvar_decl_map_ (this p)) in
    (ok', set_ir_dumper d' p)
  else (false, set_ir_dumper d p).

(** *** Aggregation *)

(** The inner [for] loop of [DeDuplicateAbiElementsThread] over the iterator
    range [range]: [None] when a [ReadDump] fails and the process exits. *)
Fixpoint read_and_merge (fmt : TextFormatIR) (exported_headers : gset string)
    (range : list string) (local_reader : Graph) : option Graph :=
  match range with
  | [] => Some local_reader
  | it :: range' =>
      match ReadDump world fmt exported_headers it with
      | None => None
      | Some reader =>
          read_and_merge fmt exported_headers range' (MergeGraphs local_reader reader)
      end
  end.

(** One step of a thread: an iteration of the [while (1)] loop (the
    [fetch_add] and, if the offset is in range, the [for] loop over
    [begin_it, begin_it + end)), or the locked merge into the global reader.
    The [for] loop reads files and writes to the thread's own reader only, so
    it is taken in one step with the [fetch_add] before it; what the threads
    do to [cnt] and [greader] is interleaved step by step.
    [None]: [::exit(1)]. *)
Definition thread_step (fmt : TextFormatIR) (dump_files : list string)
    (exported_headers : gset string) (shared_cnt : N) (shared_greader : Graph)
    (t : Thread) : option (N * Graph * Thread) :=
  match status t with
  | InLoop =>
      let num_sources := N.of_nat (length dump_files) in
      let i := shared_cnt in
      let shared_cnt := size_t_add shared_cnt kSourcesPerBatchThread in
      if (num_sources <=? i)%N then
        Some (shared_cnt, shared_greader,
              {| local_reader := local_reader t; status := AtLock;
                 claimed := claimed t; decoded := decoded t |})
      else
        let end_ := N.min (size_t_add i kSourcesPerBatchThread) num_sources in
        let range := take (N.to_nat end_) dump_files in
        match read_and_merge fmt exported_headers range (local_reader t) with
        | None => None
        | Some local_reader' =>
            Some (shared_cnt, shared_greader,
                  {| local_reader := local_reader'; status := InLoop;
                     claimed := (claimed t ++ [i])%list;
                     decoded := (decoded t ++ range)%list |})
        end
  | AtLock =>
      Some (shared_cnt, MergeGraphs shared_greader (local_reader t),
            {| local_reader := local_reader t; status := Finished;
               claimed := claimed t; decoded := decoded t |})
  | Finished => Some (shared_cnt, shared_greader, t)
  end.

(** The thread with index [tid] takes its next step. *)
Definition step (fmt : TextFormatIR) (dump_files : list string)
    (exported_headers : gset string) (a : Aggregation) (tid : nat)
    : option Aggregation :=
  match threads a !! tid with
  | None => Some a
  | Some t =>
      match thread_step fmt dump_files exported_headers (cnt a) (greader a) t with
      | None => None
      | Some (c, g, t') =>
          Some {| cnt := c; greader := g; threads := <[tid := t']> (threads a) |}
      end
  end.

Fixpoint run_threads (fmt : TextFormatIR) (dump_files : list string)
    (exported_headers : gset string) (a : Aggregation) (schedule : list nat)
    : option Aggregation :=
  match schedule with
  | [] => Some a
  | tid :: schedule' =>
      match step fmt dump_files exported_headers a tid with
      | None => None
      | Some a' => run_threads fmt dump_files exported_headers a' schedule'
      end
  end.

Definition all_finished (a : Aggregation) : bool :=
  forallb (fun t => bool_decide (status t = Finished)) (threads a).

(** [num_threads] of [LinkAndDump]. *)
Definition num_threads (dump_files : list string) : N :=
  let max_threads := hardware_concurrency world in
  let size := N.of_nat (length dump_files) in
  if (kSourcesPerBatchThread <? size)%N
  then N.min (size / kSourcesPerBatchThread) max_threads
  else 0%N.

(** The threads that aggregate: those of [for (i = 1; i < num_threads; i++)]
    and the calling thread, which comes last. *)
Definition thread_count (dump_files : list string) : nat :=
  S (N.to_nat (N.pred (num_threads dump_files))).

Definition start_aggregation (thread_count : nat) : Aggregation :=
  {| cnt := 0%N; greader := empty_graph; threads := replicate thread_count new_Thread |}.

(** From the creation of [greader] to the last [thread.join()]. *)
Definition aggregate (fmt : TextFormatIR) (dump_files : list string)
    (exported_headers : gset string) (thread_count : nat) (schedule : list nat)
    : Result Graph :=
  match run_threads fmt dump_files exported_headers
          (start_aggregation thread_count) schedule with
  | None => Exited 1%Z
  | Some a => if all_finished a then Returned (greader a) else NotJoined
  end.

(** *** Linking *)

Definition SymbolFilter : Type := string -> HeaderAbiLinker -> bool * HeaderAbiLinker.

(** The header test of [LinkDecl]: [false] when the element is skipped. *)
Definition in_exported_headers (exported_headers : gset string)
    (source_file : string) : bool :=
  negb (negb (bool_decide (exported_headers = ∅))
        && negb (String.eqb source_file "")
        && negb (bool_decide (source_file ∈ exported_headers))).

Fixpoint LinkDecl (src : AbiElementMap) (symbol_filter : SymbolFilter)
    (p : Process) : bool * Process :=
  match src with
  | [] => (true, p)
  | (first, second) :: rest =>
      let source_file := GetSourceFile second in
      if negb (in_exported_headers (exported_headers_ (this p)) source_file) then
        LinkDecl rest symbol_filter p
      else
        let '(keep, this') := symbol_filter first (this p) in
        let p := set_this this' p in
        if negb keep then LinkDecl rest symbol_filter p
        else
          let '(ok, dst) := AddLinkableMessageIR (ir_dumper p) second in
          if negb ok then
            (false, print_err "Failed to add element to linked dump" p)
          else LinkDecl rest symbol_filter (set_ir_dumper dst p)
  end.

(** Short-circuit [&&] of two calls that return [bool]. *)
Definition and_then (r : bool * Process) (f : Process -> bool * Process)
    : bool * Process :=
  if r.1 then f r.2 else r.

Definition no_filter_lambda : SymbolFilter := fun symbol l => (true, l).

Definition LinkTypes (reader : Graph) (p : Process) : bool * Process :=
  and_then (and_then (and_then (and_then (and_then (and_then (and_then (and_then
    (LinkDecl (reader RecordTypes) no_filter_lambda p)
    (LinkDecl (reader EnumTypes) no_filter_lambda))
    (LinkDecl (reader FunctionTypes) no_filter_lambda))
    (LinkDecl (reader BuiltinTypes) no_filter_lambda))
    (LinkDecl (reader PointerTypes) no_filter_lambda))
    (LinkDecl (reader RvalueReferenceTypes) no_filter_lambda))
    (LinkDecl (reader LvalueReferenceTypes) no_filter_lambda))
    (LinkDecl (reader ArrayTypes) no_filter_lambda))
    (LinkDecl (reader QualifiedTypes) no_filter_lambda).

Definition functions_symbol_filter : SymbolFilter := fun linker_set_key l =>
  if bool_decide (is_Some (function_decl_map_ l !! linker_set_key)) then (true, l)
  else
    let '(r, matched) :=
      QueryRegexMatches (functions_regex_matched_set l) (functions_vs_regex_ l)
        linker_set_key in
    (r, {| exported_headers_ := exported_headers_ l;
           function_decl_map_ := function_decl_map_ l;
           globvar_decl_map_ := globvar_decl_map_ l;
           functions_regex_matched_set := matched;
           functions_vs_regex_ := functions_vs_regex_ l;
           globvars_regex_matched_set := globvars_regex_matched_set l;
           globvars_vs_regex_ := globvars_vs_regex_ l |}).

Definition globvars_symbol_filter : SymbolFilter := fun linker_set_key l =>
  if bool_decide (is_Some (globvar_decl_map_ l !! linker_set_key)) then (true, l)
  else
    let '(r, matched) :=
      QueryRegexMatches (globvars_regex_matched_set l) (globvars_vs_regex_ l)
        linker_set_key in
    (r, {| exported_headers_ := exported_headers_ l;
           function_decl_map_ := function_decl_map_ l;
           globvar_decl_map_ := globvar_decl_map_ l;
           functions_regex_matched_set := functions_regex_matched_set l;
           functions_vs_regex_ := functions_vs_regex_ l;
           globvars_regex_matched_set := matched;
           globvars_vs_regex_ := globvars_vs_regex_ l |}).

Definition LinkFunctions (reader : Graph) (p : Process) : bool * Process :=
  LinkDecl (reader Functions) functions_symbol_filter p.

Definition LinkGlobalVars (reader : Graph) (p : Process) : bool * Process :=
  LinkDecl (reader GlobalVariables) globvars_symbol_filter p.

(** The filter [LinkAndDump] applies to the elements of a category: the
    lambda of [LinkTypes], [LinkFunctions] or [LinkGlobalVars]. *)
Definition linker_filter (c : Category) : SymbolFilter :=
  match c with
  | Functions => functions_symbol_filter
  | GlobalVariables => globvars_symbol_filter
  | _ => no_filter_lambda
  end.

(** A specification device: the entries of [src] that a call of [LinkDecl]
    hands to [AddLinkableMessageIR] with success, in order and with their
    keys.  [LinkDecl_forwarded] below relates it to what the dumper holds. *)
Fixpoint forwarded (src : AbiElementMap) (symbol_filter : SymbolFilter)
    (p : Process) : AbiElementMap :=
  match src with
  | [] => []
  | (first, second) :: rest =>
      if negb (in_exported_headers (exported_headers_ (this p)) (GetSourceFile second))
      then forwarded rest symbol_filter p
      else
        let '(keep, this') := symbol_filter first (this p) in
        let p := set_this this' p in
        if negb keep then forwarded rest symbol_filter p
        else
          let '(ok, dst) := AddLinkableMessageIR (ir_dumper p) second in
          if negb ok then []
          else (first, second) :: forwarded rest symbol_filter (set_ir_dumper dst p)
  end.

(** *** Resolving the exported symbols *)

Definition set_exported_headers_ (h : gset string) (l : HeaderAbiLinker)
    : HeaderAbiLinker :=
  {| exported_headers_ := h;
     function_decl_map_ := function_decl_map_ l;
     globvar_decl_map_ := globvar_decl_map_ l;
     functions_regex_matched_set := functions_regex_matched_set l;
     functions_vs_regex_ := functions_vs_regex_ l;
     globvars_regex_matched_set := globvars_regex_matched_set l;
     globvars_vs_regex_ := globvars_vs_regex_ l |}.

Definition set_decl_maps (f : gmap string ElfFunctionIR)
    (g : gmap string ElfObjectIR) (l : HeaderAbiLinker) : HeaderAbiLinker :=
  {| exported_headers_ := exported_headers_ l;
     function_decl_map_ := f;
     globvar_decl_map_ := g;
     functions_regex_matched_set := functions_regex_matched_set l;
     functions_vs_regex_ := functions_vs_regex_ l;
     globvars_regex_matched_set := globvars_regex_matched_set l;
     globvars_vs_regex_ := globvars_vs_regex_ l |}.

Definition set_vs_regexs (f g : regex) (l : HeaderAbiLinker) : HeaderAbiLinker :=
  {| exported_headers_ := exported_headers_ l;
     function_decl_map_ := function_decl_map_ l;
     globvar_decl_map_ := globvar_decl_map_ l;
     functions_regex_matched_set := functions_regex_matched_set l;
     functions_vs_regex_ := f;
     globvars_regex_matched_set := globvars_regex_matched_set l;
     globvars_vs_regex_ := g |}.

Definition ParseVersionScriptFiles (cl : CommandLine) (p : Process)
    : Result bool * Process :=
  match VersionScriptParser_Parse world (version_script cl) (arch cl) (api cl) with
  | None => (Returned false, print_err "Failed to parse version script" p)
  | Some version_script_parser =>
      let p :=
        set_this (set_decl_maps (GetFunctions version_script_parser)
                    (GetGlobVars version_script_parser) (this p)) p in
      let function_regexs := GetFunctionRegexs version_script_parser in
      let globvar_regexs := GetGlobVarRegexs version_script_parser in
      match CreateRegexMatchExprFromSet function_regexs with
      | None => (RegexError, p)
      | Some functions_regex =>
          match CreateRegexMatchExprFromSet globvar_regexs with
          | None => (RegexError, p)
          | Some globvars_regex =>
              (Returned true,
               set_this (set_vs_regexs functions_regex globvars_regex (this p)) p)
          end
      end
  end.

Definition ParseSoFile (cl : CommandLine) (p : Process) : bool * Process :=
  match createBinary world (so_file cl) with
  | NoBinary => (false, print_err "Couldn't really create object File " p)
  | NotAnObjectFile => (false, print_err "Not an object file" p)
  | NoSoFileParser => (false, print_err "Couldn't create soFile Parser" p)
  | SoSymbols functions globvars =>
      (true, set_this (set_decl_maps functions globvars (this p)) p)
  end.

(** *** The orchestrator *)

(** [LinkAndDump] from the creation of the dumper on. *)
Definition link_and_dump_body (cl : CommandLine) (p : Process)
    : Result bool * Process :=
  let p := set_ir_dumper CreateIRDumper p in
  (* the value [AddElfSymbols] returns is not looked at *)
  let p := (AddElfSymbols p).2 in
  match aggregate (input_format cl) (dump_files cl) (exported_headers_ (this p))
          (thread_count (dump_files cl)) (thread_schedule world) with
  | Returned greader =>
      let '(ok, p) :=
        and_then (and_then (LinkTypes greader p) (LinkFunctions greader))
          (LinkGlobalVars greader) in
      if negb ok then (Returned false, print_err "Failed to link elements" p)
      else
        let '(ok, d) := Dump (ir_dumper p) in
        if negb ok then
          (Returned false, print_err "Serialization to ostream failed" p)
        else (Returned true, set_ir_dumper d p)
  | Exited code => (Exited code, print_err "ReadDump failed" p)
  | RegexError => (RegexError, p)
  | NotJoined => (NotJoined, p)
  end.

Definition LinkAndDump (cl : CommandLine) (p : Process) : Result bool * Process :=
  if negb (String.eqb (so_file cl) "") then
    let p :=
      set_this (set_exported_headers_
                  (CollectAllExportedHeaders world (exported_header_dirs cl))
                  (this p)) p in
    let '(ok, p) := ParseSoFile cl p in
    if negb ok then (Returned false, print_err "Couldn't parse so file" p)
    else link_and_dump_body cl p
  else
    match ParseVersionScriptFiles cl p with
    | (Returned true, p) => link_and_dump_body cl p
    | (Returned false, p) =>
        (Returned false,
         print_err "Failed to parse stub files for exported symbols" p)
    | other => other
    end.

Definition clear_exported_header_dirs (cl : CommandLine) : CommandLine :=
  {| dump_files := dump_files cl;
     linked_dump := linked_dump cl;
     exported_header_dirs := [];
     version_script := version_script cl;
     api := api cl;
     arch := arch cl;
     no_filter := no_filter cl;
     so_file := so_file cl;
     input_format := input_format cl;
     output_format := output_format cl |}.

(** [main], after [llvm::cl::ParseCommandLineOptions] has filled the
    options. *)
Definition main (cl : CommandLine) : Result Z * Process :=
  if String.eqb (so_file cl) "" && String.eqb (version_script cl) "" then
    (Returned (-1)%Z,
     print_err "One of -so or -v needs to be specified" new_Process)
  else
    let cl := if no_filter cl then clear_exported_header_dirs cl else cl in
    match LinkAndDump cl new_Process with
    | (Returned false, p) =>
        (Returned (-1)%Z, print_err "Failed to link and dump elements" p)
    | (Returned true, p) => (Returned 0%Z, p)
    | (Exited code, p) => (Exited code, p)
    | (RegexError, p) => (RegexError, p)
    | (NotJoined, p) => (NotJoined, p)
    end.

End Linker.

(* ===================================================================== *)
(** ** Notions the statements are written with *)
(* ===================================================================== *)

(** *** On the linker's filters *)

Definition is_type_category (c : Category) : bool :=
  match c with
  | Functions | GlobalVariables => false
  | _ => true
  end.

(** The members a symbol filter leaves alone, and the matched sets, which
    only grow. *)
Definition same_config (l l' : HeaderAbiLinker) : Prop :=
  exported_headers_ l' = exported_headers_ l
  ∧ function_decl_map_ l' = function_decl_map_ l
  ∧ globvar_decl_map_ l' = globvar_decl_map_ l
  ∧ functions_vs_regex_ l' = functions_vs_regex_ l
  ∧ globvars_vs_regex_ l' = globvars_vs_regex_ l
  ∧ functions_regex_matched_set l ⊆ functions_regex_matched_set l'
  ∧ globvars_regex_matched_set l ⊆ globvars_regex_matched_set l'.

(** The matched set a category's filter works on, and its exact keys. *)
Definition matched_set (c : Category) (l : HeaderAbiLinker) : gset string :=
  match c with
  | Functions => functions_regex_matched_set l
  | GlobalVariables => globvars_regex_matched_set l
  | _ => ∅
  end.

Definition is_exact (c : Category) (l : HeaderAbiLinker) (k : string) : Prop :=
  match c with
  | Functions => is_Some (function_decl_map_ l !! k)
  | GlobalVariables => is_Some (globvar_decl_map_ l !! k)
  | _ => True
  end.

(** The symbols for which a run of successive queries, each working on the
    matched set the previous one left, answers [true]. *)
Fixpoint wildcard_accepted (matched : gset string) (rx : regex)
    (symbols : list string) : list string :=
  match symbols with
  | [] => []
  | symbol :: rest =>
      let '(r, matched') := QueryRegexMatches matched rx symbol in
      if r then symbol :: wildcard_accepted matched' rx rest
      else wildcard_accepted matched' rx rest
  end.

(** *** On the compiled wildcard expression *)

(** Every [*] becomes [.*]; every other character is copied as it is. *)
Fixpoint star_to_dot_star (pattern : string) : string :=
  match pattern with
  | EmptyString => EmptyString
  | String c rest =>
      if Ascii.eqb c "*" then String "." (String "*" (star_to_dot_star rest))
      else String c (star_to_dot_star rest)
  end.

Definition anchored_group (pattern : string) : string :=
  "(\b" +:+ star_to_dot_star pattern +:+ "\b)".

(** The expression a run of literal characters parses to, followed by
    [tail]. *)
Fixpoint literals (w : string) (tail : re) : re :=
  match w with
  | EmptyString => tail
  | String c w' => Seq (Chr c) (literals w' tail)
  end.

Fixpoint all_word (w : string) : bool :=
  match w with
  | EmptyString => true
  | String c w' => is_word c && all_word w'
  end.

(** What is left of [s] after the prefix [w], if [w] is a prefix of [s]. *)
Fixpoint strip_prefix (w s : string) : option string :=
  match w, s with
  | EmptyString, _ => Some s
  | String a w', String b s' => if Ascii.eqb a b then strip_prefix w' s' else None
  | String _ _, EmptyString => None
  end.

(** The character before the position reached after reading [w]. *)
Fixpoint last_of (w : string) (prev : option ascii) : option ascii :=
  match w with
  | EmptyString => prev
  | String c w' => last_of w' (Some c)
  end.

(** The spec's reading of a pattern without [*]: [w] stands in the key as a
    whole token, with no word character right before it and none right
    after.  [prev] is the character before [key]. *)
Fixpoint occurs_as_word (w : string) (prev : option ascii) (key : string) : bool :=
  match strip_prefix w key with
  | Some rest => negb (prev_is_word prev) && negb (next_is_word rest)
  | None => false
  end
  || match key with
     | EmptyString => false
     | String c key' => occurs_as_word w (Some c) key'
     end.

(** The spec's reading of a pattern [w*]: a token of the key begins with
    [w]. *)
Fixpoint occurs_at_word_start (w : string) (prev : option ascii) (key : string)
    : bool :=
  match strip_prefix w key with
  | Some _ => negb (prev_is_word prev)
  | None => false
  end
  || match key with
     | EmptyString => false
     | String c key' => occurs_at_word_start w (Some c) key'
     end.

(** The verdict of the matcher compiled from [link_set] on a symbol it has
    not seen yet; [None] when the expression cannot be built. *)
Definition wildcard_accepts (link_set : list string) (symbol : string)
    : option bool :=
  match CreateRegexMatchExprFromSet link_set with
  | Some vs_regex => Some (QueryRegexMatches ∅ vs_regex symbol).1
  | None => None
  end.

(** *** On command lines *)

Definition with_version_script (v : string) (cl : CommandLine) : CommandLine :=
  {| dump_files := dump_files cl;
     linked_dump := linked_dump cl;
     exported_header_dirs := exported_header_dirs cl;
     version_script := v;
     api := api cl;
     arch := arch cl;
     no_filter := no_filter cl;
     so_file := so_file cl;
     input_format := input_format cl;
     output_format := output_format cl |}.

Definition with_exported_header_dirs (dirs : list string) (cl : CommandLine)
    : CommandLine :=
  {| dump_files := dump_files cl;
     linked_dump := linked_dump cl;
     exported_header_dirs := dirs;
     version_script := version_script cl;
     api := api cl;
     arch := arch cl;
     no_filter := no_filter cl;
     so_file := so_file cl;
     input_format := input_format cl;
     output_format := output_format cl |}.

(** *** On the aggregation *)

(** [g] holds every key of [d], category by category. *)
Definition covers (g d : Graph) : Prop :=
  ∀ c k, k ∈ keys (d c) → k ∈ keys (g c).

Definition unique_keys (g : Graph) : Prop :=
  ∀ c, NoDup (keys (g c)).

(** [g] holds the keys of every dump among [paths] that can be read. *)
Definition holds_dumps (world : World) (fmt : TextFormatIR)
    (exported_headers : gset string) (paths : list string) (g : Graph) : Prop :=
  ∀ path dump,
    path ∈ paths →
    ReadDump world fmt exported_headers path = Some dump →
    covers g dump.

Definition all_readable (world : World) (fmt : TextFormatIR)
    (exported_headers : gset string) (paths : list string) : Prop :=
  ∀ path, path ∈ paths → is_Some (ReadDump world fmt exported_headers path).

(** What holds of the aggregation at every moment: keys are unique, and
    either the counter is still in range and nobody has left the loop, or
    the whole input is in the global reader, or it is in the local reader of
    a thread that has yet to merge. *)
Record invariant (world : World) (fmt : TextFormatIR)
    (exported_headers : gset string) (dump_files : list string)
    (a : Aggregation) : Prop := {
  inv_greader_unique : unique_keys (greader a);
  inv_local_unique : Forall (λ t, unique_keys (local_reader t)) (threads a);
  inv_progress :
    ((cnt a < N.of_nat (length dump_files))%N
     ∧ Forall (λ t, status t = InLoop) (threads a))
    ∨ holds_dumps world fmt exported_headers dump_files (greader a)
    ∨ ∃ tid t, threads a !! tid = Some t ∧ status t ≠ Finished
               ∧ holds_dumps world fmt exported_headers dump_files (local_reader t)
}.

(** Steps a thread has left at most once the batches are gone. *)
Definition weight (t : Thread) : nat :=
  match status t with InLoop => 2 | AtLock => 1 | Finished => 0 end.

Definition looping (t : Thread) : nat :=
  match status t with InLoop => 1 | _ => 0 end.

Definition measure (dump_files : list string) (a : Aggregation) : nat :=
  N.to_nat (N.of_nat (length dump_files) - cnt a) + sum_list (weight <$> threads a).

(** The counter stays clear of the [size_t] modulus. *)
Definition counter_bounded (dump_files : list string) (a : Aggregation) : Prop :=
  (cnt a + 7 * N.of_nat (sum_list (looping <$> threads a))
   <= N.of_nat (length dump_files) + 6 + 7 * N.of_nat (length (threads a)))%N.

(** A round gives every thread at least one step. *)
Definition is_round (thread_count : nat) (round : list nat) : Prop :=
  ∀ tid, tid < thread_count → tid ∈ round.

(** The dump files of the batch that starts at offset [i]. *)
Definition batch (dump_files : list string) (i : N) : list string :=
  drop (N.to_nat i)
    (take (N.to_nat (N.min (i + kSourcesPerBatchThread) (N.of_nat (length dump_files))))
       dump_files).

(* ===================================================================== *)
(** ** Concrete runs *)
(* ===================================================================== *)

Module Scenario.

Definition decl (source_file text : string) : LinkableMessageIR :=
  {| GetSourceFile := source_file; body := text |}.

Definition functions_only (functions : AbiElementMap) : Graph :=
  fun c => match c with Functions => functions | _ => [] end.

(** Every dump declares [f1] from the exported header, and a helper that has
    no source file. *)
Definition dump_of (path : string) : Graph :=
  functions_only
    [("f1", decl "include/api.h" "int f1()"); ("foo_bar", decl "" path)].

Definition exports : gmap string ElfFunctionIR :=
  {[ "f1" := {| function_name := "f1" |} ]}.

(** A world in which every collaborator succeeds: three steps of thread 0
    are enough for up to seven dump files. *)
Definition world : World :=
  {| CollectAllExportedHeaders :=
       fun dirs => list_to_set ((fun d => d +:+ "/api.h") <$> dirs);
     ReadDump := fun _ _ path => Some (dump_of path);
     VersionScriptParser_Parse := fun _ _ _ =>
       Some {| GetFunctions := exports; GetGlobVars := ∅;
               GetFunctionRegexs := ["foo_*"]; GetGlobVarRegexs := [] |};
     createBinary := fun _ => SoSymbols exports ∅;
     hardware_concurrency := 4;
     thread_schedule := [0; 0; 0];
     AddElfSymbolMessageIR_ok := fun _ _ => true;
     AddLinkableMessageIR_ok := fun _ _ => true;
     Dump_ok := fun _ => true |}.

(** The same world, with a dumper that refuses every exported-symbol
    record. *)
Definition world_refusing_elf_symbols : World :=
  {| CollectAllExportedHeaders := CollectAllExportedHeaders world;
     ReadDump := ReadDump world;
     VersionScriptParser_Parse := VersionScriptParser_Parse world;
     createBinary := createBinary world;
     hardware_concurrency := hardware_concurrency world;
     thread_schedule := thread_schedule world;
     AddElfSymbolMessageIR_ok := fun _ _ => false;
     AddLinkableMessageIR_ok := AddLinkableMessageIR_ok world;
     Dump_ok := Dump_ok world |}.

(** The same world, with a dumper that refuses every declaration. *)
Definition world_refusing_declarations : World :=
  {| CollectAllExportedHeaders := CollectAllExportedHeaders world;
     ReadDump := ReadDump world;
     VersionScriptParser_Parse := VersionScriptParser_Parse world;
     createBinary := createBinary world;
     hardware_concurrency := hardware_concurrency world;
     thread_schedule := thread_schedule world;
     AddElfSymbolMessageIR_ok := AddElfSymbolMessageIR_ok world;
     AddLinkableMessageIR_ok := fun _ _ => false;
     Dump_ok := Dump_ok world |}.

(** [header-abi-linker a.dump b.dump c.dump -o out.lsdump -Iinclude -so libfoo.so] *)
Definition with_so : CommandLine :=
  {| dump_files := ["a.dump"; "b.dump"; "c.dump"];
     linked_dump := "out.lsdump";
     exported_header_dirs := ["include"];
     version_script := "";
     api := "current";
     arch := "arm64";
     no_filter := false;
     so_file := "libfoo.so";
     input_format := Json;
     output_format := Json |}.

(** ... with [-v libfoo.map.txt] in place of [-so], with both, with
    neither. *)
Definition with_v : CommandLine :=
  {| dump_files := dump_files with_so;
     linked_dump := linked_dump with_so;
     exported_header_dirs := exported_header_dirs with_so;
     version_script := "libfoo.map.txt";
     api := api with_so;
     arch := arch with_so;
     no_filter := false;
     so_file := "";
     input_format := Json;
     output_format := Json |}.

Definition with_both : CommandLine := with_version_script "libfoo.map.txt" with_so.

Definition with_neither : CommandLine := with_version_script "" with_v.

(** Fourteen dump files: two batches, and two aggregation threads on a
    machine with four cores. *)
Definition fourteen : list string :=
  ["d00"; "d01"; "d02"; "d03"; "d04"; "d05"; "d06";
   "d07"; "d08"; "d09"; "d10"; "d11"; "d12"; "d13"].

(** Three declarations that differ in their source file only. *)
Definition three_decls : AbiElementMap :=
  [("a", decl "A.h" "a"); ("b", decl "B.h" "b"); ("c", decl "" "c")].

Definition process_with_headers (headers : gset string) : Process :=
  set_this (set_exported_headers_ headers new_HeaderAbiLinker) new_Process.

(** A linker that exports [f1] exactly and whatever [foo_*] matches. *)
Definition linker_with_exports (vs_regex : regex) : HeaderAbiLinker :=
  set_vs_regexs vs_regex regex_default
    (set_decl_maps exports ∅ new_HeaderAbiLinker).

End Scenario.

(** *** On whole runs *)

(** The type categories, in the order [LinkTypes] goes through them. *)
Definition type_categories : list Category :=
  [RecordTypes; EnumTypes; FunctionTypes; BuiltinTypes; PointerTypes;
   RvalueReferenceTypes; LvalueReferenceTypes; ArrayTypes; QualifiedTypes].

(** The symbol records of the exact maps, in the order
    [HeaderAbiLinker::AddElfSymbols] hands them to the dumper. *)
Definition function_symbols (l : HeaderAbiLinker) : list ElfSymbolIR :=
  ElfFunction <$> (map_to_list (function_decl_map_ l)).*2.

Definition globvar_symbols (l : HeaderAbiLinker) : list ElfSymbolIR :=
  ElfObject <$> (map_to_list (globvar_decl_map_ l)).*2.

(** The entries of a map that pass the header test of [LinkDecl]. *)
Definition passing_headers (exported_headers : gset string) (src : AbiElementMap)
    : AbiElementMap :=
  List.filter
    (fun e => in_exported_headers exported_headers (GetSourceFile e.2)) src.

(** The line [ParseSoFile] prints for each way of failing. *)
Definition so_file_diagnostic (f : SoFile) : string :=
  match f with
  | NoBinary => "Couldn't really create object File "
  | NotAnObjectFile => "Not an object file"
  | NoSoFileParser => "Couldn't create soFile Parser"
  | SoSymbols _ _ => ""
  end.

Definition is_so_symbols (f : SoFile) : bool :=
  match f with SoSymbols _ _ => true | _ => false end.

(** The process after [ms] have been appended to the declarations of the
    dumper. *)
Definition with_linkable_messages (ms : list LinkableMessageIR) (p : Process)
    : Process :=
  set_ir_dumper
    {| elf_symbols := elf_symbols (ir_dumper p);
       linkable_messages := linkable_messages (ir_dumper p) ++ ms;
       dumped := dumped (ir_dumper p) |} p.

(** The three calls of [LinkAndDump] that link, chained by [&&]. *)
Definition link_all (world : World) (reader : Graph) (p : Process)
    : bool * Process :=
  and_then (and_then (LinkTypes world reader p) (LinkFunctions world reader))
    (LinkGlobalVars world reader).

(** What a linking call may do to the process besides forwarding: print its
    diagnostic when it fails, and nothing else. *)
Definition prints_on_failure (p : Process) (r : bool * Process) : Prop :=
  errs r.2 = errs p ++ (if r.1 then [] else ["Failed to add element to linked dump"])
  ∧ elf_symbols (ir_dumper r.2) = elf_symbols (ir_dumper p)
  ∧ dumped (ir_dumper r.2) = dumped (ir_dumper p)
  ∧ same_config (this p) (this r.2).

(** [k] is not a key of the exact map of category [c] and the wildcard
    expression of the category matches it. *)
Definition wildcard_match (c : Category) (l : HeaderAbiLinker) (k : string)
    : Prop :=
  match c with
  | Functions =>
      function_decl_map_ l !! k = None
      ∧ regex_search k (functions_vs_regex_ l) = true
  | GlobalVariables =>
      globvar_decl_map_ l !! k = None
      ∧ regex_search k (globvars_vs_regex_ l) = true
  | _ => False
  end.

(** *** On the work of the aggregation threads *)

(** The first [m] batch offsets: 0, 7, 14, ... *)
Definition offsets (m : nat) : list N :=
  (fun j => (kSourcesPerBatchThread * N.of_nat j)%N) <$> seq 0 m.

(** The number of batches [n] dump files make. *)
Definition batch_count (n : nat) : nat :=
  N.to_nat ((N.of_nat n + 6) / kSourcesPerBatchThread).

(** The dump files a thread passes to [ReadDump] once it has obtained the
    offset [i]: the range of the [for] loop. *)
Definition reads_at (dump_files : list string) (i : N) : list string :=
  take (N.to_nat (N.min (i + kSourcesPerBatchThread) (N.of_nat (length dump_files))))
    dump_files.

(** The offsets obtained so far are the first ones, each obtained once, and
    the counter has not wrapped around. *)
Record claims_invariant (dump_files : list string) (a : Aggregation) : Prop := {
  ci_bounded : counter_bounded dump_files a;
  ci_claimed :
    ∃ m : nat,
      cnt a = (kSourcesPerBatchThread * N.of_nat m)%N
      ∧ concat (claimed <$> threads a)
        ≡ₚ offsets (m `min` batch_count (length dump_files))
      ∧ (Exists (λ t, status t ≠ InLoop) (threads a) →
         batch_count (length dump_files) ≤ m);
  ci_decoded :
    Forall (λ t, decoded t = flat_map (reads_at dump_files) (claimed t))
      (threads a)
}.

(** Either nobody has reached the last batch yet, or every dump file has
    been read with success by somebody. *)
Definition readable_invariant (world : World) (fmt : TextFormatIR)
    (exported_headers : gset string) (dump_files : list string)
    (a : Aggregation) : Prop :=
  ((cnt a < N.of_nat (length dump_files))%N
   ∧ Forall (λ t, status t = InLoop) (threads a))
  ∨ all_readable world fmt exported_headers dump_files.

(** Every key of [g] is a key of a dump among [paths], in the same
    category. *)
Definition from_dumps (world : World) (fmt : TextFormatIR)
    (exported_headers : gset string) (paths : list string) (g : Graph) : Prop :=
  ∀ c k,
    k ∈ keys (g c) →
    ∃ path dump,
      path ∈ paths
      ∧ ReadDump world fmt exported_headers path = Some dump
      ∧ k ∈ keys (dump c).

(** Every entry of [g] is an entry of a dump among [paths], in the same
    category. *)
Definition entries_from_dumps (world : World) (fmt : TextFormatIR)
    (exported_headers : gset string) (paths : list string) (g : Graph) : Prop :=
  ∀ c e,
    e ∈ g c →
    ∃ path dump,
      path ∈ paths
      ∧ ReadDump world fmt exported_headers path = Some dump
      ∧ e ∈ dump c.

(** [r] is the outcome of linking passes over [reader] started in [p]: the
    exported headers are those of [p], and a declaration the dumper holds
    was there in [p] or is an entry of [reader] that passes the header
    test. *)
Definition adds_from (reader : Graph) (p : Process) (r : bool * Process) : Prop :=
  exported_headers_ (this r.2) = exported_headers_ (this p)
  ∧ ∀ d,
      d ∈ linkable_messages (ir_dumper r.2) →
      d ∈ linkable_messages (ir_dumper p)
      ∨ ∃ c k,
          (k, d) ∈ reader c
          ∧ in_exported_headers (exported_headers_ (this p)) (GetSourceFile d)
            = true.

(** *** Further concrete runs *)

Module Cases.

(** A world whose shared object is not an object file. *)
Definition world_without_object_file : World :=
  {| CollectAllExportedHeaders := CollectAllExportedHeaders Scenario.world;
     ReadDump := ReadDump Scenario.world;
     VersionScriptParser_Parse := VersionScriptParser_Parse Scenario.world;
     createBinary := fun _ => NotAnObjectFile;
     hardware_concurrency := hardware_concurrency Scenario.world;
     thread_schedule := thread_schedule Scenario.world;
     AddElfSymbolMessageIR_ok := AddElfSymbolMessageIR_ok Scenario.world;
     AddLinkableMessageIR_ok := AddLinkableMessageIR_ok Scenario.world;
     Dump_ok := Dump_ok Scenario.world |}.


(** [Scenario.with_so] with [-no-filter]. *)
Definition with_no_filter : CommandLine :=
  {| dump_files := dump_files Scenario.with_so;
     linked_dump := linked_dump Scenario.with_so;
     exported_header_dirs := exported_header_dirs Scenario.with_so;
     version_script := version_script Scenario.with_so;
     api := api Scenario.with_so;
     arch := arch Scenario.with_so;
     no_filter := true;
     so_file := so_file Scenario.with_so;
     input_format := input_format Scenario.with_so;
     output_format := output_format Scenario.with_so |}.

Definition records_only (records : AbiElementMap) : Graph :=
  fun c => match c with RecordTypes => records | _ => [] end.

(** Two threads taking turns, three steps each. *)
Definition taking_turns : list nat := [0; 1; 0; 1; 0; 1].

(** The process once the version script of [Scenario.world] is parsed. *)
Definition after_version_script : Process :=
  (ParseVersionScriptFiles Scenario.world Scenario.with_v new_Process).2.

End Cases.

(* ===================================================================== *)
(** ** The export filter *)
(* ===================================================================== *)

Section ExportFilter.
Context (world : World).

Lemma same_config_refl l : same_config l l.
Proof. by repeat split. Qed.

Lemma same_config_trans l1 l2 l3 :
  same_config l1 l2 → same_config l2 l3 → same_config l1 l3.
Proof.
  intros (A1&A2&A3&A4&A5&A6&A7) (B1&B2&B3&B4&B5&B6&B7).
  repeat split; [congruence..| |]; etrans; eauto.
Qed.

Lemma QueryRegexMatches_grows matched rx k :
  matched ⊆ (QueryRegexMatches matched rx k).2.
Proof.
  unfold QueryRegexMatches.
  case_bool_decide; [done|]. destruct (regex_search k rx); simpl; set_solver.
Qed.

Lemma linker_filter_same_config c k l :
  same_config l (linker_filter c k l).2.
Proof.
  destruct c; simpl; try apply same_config_refl.
  - unfold functions_symbol_filter. case_bool_decide; [apply same_config_refl|].
    pose proof (QueryRegexMatches_grows (functions_regex_matched_set l)
                  (functions_vs_regex_ l) k) as Hg.
    destruct (QueryRegexMatches _ _ _) as [r m]; simpl in *.
    by repeat split.
  - unfold globvars_symbol_filter. case_bool_decide; [apply same_config_refl|].
    pose proof (QueryRegexMatches_grows (globvars_regex_matched_set l)
                  (globvars_vs_regex_ l) k) as Hg.
    destruct (QueryRegexMatches _ _ _) as [r m]; simpl in *.
    by repeat split.
Qed.

Lemma AddLinkableMessageIR_true dst e dst' :
  AddLinkableMessageIR world dst e = (true, dst') →
  linkable_messages dst' = (linkable_messages dst ++ [e])%list.
Proof.
  unfold AddLinkableMessageIR. destruct (AddLinkableMessageIR_ok _ _ _); [|done].
  by intros [= <-].
Qed.

Lemma LinkDecl_forwarded src f p :
  linkable_messages (ir_dumper (LinkDecl world src f p).2)
  = (linkable_messages (ir_dumper p) ++ (forwarded world src f p).*2)%list.
Proof.
  revert p. induction src as [|[k d] rest IH]; intros p; simpl.
  { by rewrite app_nil_r. }
  destruct (in_exported_headers _ _); simpl; [|apply IH].
  destruct (f k (this p)) as [keep l'].
  destruct keep; simpl; [|by rewrite IH].
  destruct (AddLinkableMessageIR _ _ _) as [ok dst] eqn:Hadd.
  destruct ok; simpl.
  - rewrite IH. simpl. apply AddLinkableMessageIR_true in Hadd. simpl in Hadd.
    rewrite Hadd. by rewrite <- app_assoc.
  - by rewrite app_nil_r.
Qed.

Lemma LinkDecl_same_config c src p :
  same_config (this p) (this (LinkDecl world src (linker_filter c) p).2).
Proof.
  revert p. induction src as [|[k d] rest IH]; intros p; simpl.
  { apply same_config_refl. }
  destruct (in_exported_headers _ _); simpl; [|apply IH].
  pose proof (linker_filter_same_config c k (this p)) as Hf.
  destruct (linker_filter c k (this p)) as [keep l']. simpl in Hf.
  destruct keep; simpl.
  - destruct (AddLinkableMessageIR _ _ _) as [ok dst].
    destruct ok; simpl; [|done].
    eapply same_config_trans; [exact Hf|]. apply (IH (set_ir_dumper dst (set_this l' p))).
  - eapply same_config_trans; [exact Hf|]. apply (IH (set_this l' p)).
Qed.

(** Whatever is forwarded comes from [src], passed the header test, and was
    accepted by the filter in the state the filter was called in. *)
Lemma forwarded_sound c src p k d :
  (k, d) ∈ forwarded world src (linker_filter c) p →
  (k, d) ∈ src
  ∧ in_exported_headers (exported_headers_ (this p)) (GetSourceFile d) = true
  ∧ ∃ l, same_config (this p) l ∧ (linker_filter c k l).1 = true.
Proof.
  revert p. induction src as [|[k0 d0] rest IH]; intros p; simpl.
  { by intros ?%elem_of_nil. }
  destruct (in_exported_headers _ _) eqn:Hh; simpl.
  2:{ intros (?&?&?)%IH. split; [by right|done]. }
  pose proof (linker_filter_same_config c k0 (this p)) as Hf.
  destruct (linker_filter c k0 (this p)) as [keep l'] eqn:Hk. simpl in Hf.
  destruct keep; simpl.
  - destruct (AddLinkableMessageIR _ _ _) as [ok dst].
    destruct ok; simpl; [|by intros ?%elem_of_nil].
    intros [[= -> ->]|Hin]%elem_of_cons.
    + split; [by left|]. split; [done|]. exists (this p).
      split; [apply same_config_refl|]. by rewrite Hk.
    + apply IH in Hin as (?&Hh'&l&Hl&?). simpl in *.
      split; [by right|]. split.
      { destruct Hf as [-> _] in Hh'. done. }
      exists l. split; [|done]. by eapply same_config_trans.
  - intros Hin. apply IH in Hin as (?&Hh'&l&Hl&?). simpl in *.
    split; [by right|]. split.
    { destruct Hf as [-> _] in Hh'. done. }
    exists l. split; [|done]. by eapply same_config_trans.
Qed.

Lemma in_exported_headers_spec hs sf :
  in_exported_headers hs sf = true ↔ hs = ∅ ∨ sf = "" ∨ sf ∈ hs.
Proof.
  unfold in_exported_headers.
  rewrite negb_true_iff, !andb_false_iff, !negb_false_iff, !bool_decide_eq_true.
  rewrite String.eqb_eq. tauto.
Qed.

(** An entry that passes the header test and whose key the filter accepts in
    every state the pass can be in is forwarded, if the pass succeeds. *)
Lemma forwarded_complete c src p k d :
  (LinkDecl world src (linker_filter c) p).1 = true →
  (k, d) ∈ src →
  in_exported_headers (exported_headers_ (this p)) (GetSourceFile d) = true →
  (∀ l, same_config (this p) l → (linker_filter c k l).1 = true) →
  (k, d) ∈ forwarded world src (linker_filter c) p.
Proof.
  revert p. induction src as [|[k0 d0] rest IH]; intros p; simpl.
  { by intros _ ?%elem_of_nil. }
  intros Hok Hin Hh Hacc.
  pose proof (linker_filter_same_config c k0 (this p)) as Hf.
  destruct (in_exported_headers (exported_headers_ (this p)) (GetSourceFile d0))
    eqn:Hh0; simpl in *.
  2:{ apply elem_of_cons in Hin as [[= -> ->]|Hin]; [congruence|]. by apply IH. }
  destruct (linker_filter c k0 (this p)) as [keep l'] eqn:Hk. simpl in Hf.
  assert (Hh' : in_exported_headers (exported_headers_ l') (GetSourceFile d) = true).
  { destruct Hf as [-> _]. done. }
  assert (Hacc' : ∀ l, same_config l' l → (linker_filter c k l).1 = true).
  { intros l Hl. apply Hacc. by eapply same_config_trans. }
  destruct keep; simpl in *.
  - destruct (AddLinkableMessageIR _ _ _) as [ok dst].
    destruct ok; simpl in *; [|done].
    apply elem_of_cons in Hin as [[= -> ->]|Hin]; [by left|].
    right. by apply IH.
  - apply elem_of_cons in Hin as [[= -> ->]|Hin].
    + specialize (Hacc (this p) (same_config_refl _)). rewrite Hk in Hacc. done.
    + by apply IH.
Qed.

(** With a dumper that accepts everything, a type category forwards exactly
    the entries that pass the header test. *)
Lemma forwarded_types c src p :
  is_type_category c = true →
  (∀ dst e, AddLinkableMessageIR_ok world dst e = true) →
  forwarded world src (linker_filter c) p
  = List.filter (λ e, in_exported_headers (exported_headers_ (this p))
                      (GetSourceFile e.2)) src.
Proof.
  intros Hc Hok. revert p. induction src as [|[k0 d0] rest IH]; intros p; simpl; [done|].
  destruct (in_exported_headers _ _); simpl; [|apply IH].
  assert (Hf : linker_filter c k0 (this p) = (true, this p)) by by destruct c.
  rewrite Hf. simpl. unfold AddLinkableMessageIR. rewrite Hok. simpl.
  f_equal. by rewrite IH.
Qed.

Lemma filter_all_true {A} (f : A → bool) l :
  (∀ x, f x = true) → List.filter f l = l.
Proof. intros Hf. induction l as [|x l IH]; simpl; [done|]. by rewrite Hf, IH. Qed.

(** Claim C5.  Whatever the category, a call of [LinkDecl] appends to the
    dumper the entries [forwarded] lists, and each of them comes from the
    source map and has the exported header set empty, or no source file, or
    a source file that is in the set.  For a type category and a dumper that
    accepts everything, the forwarded entries are exactly those that pass
    this test, all of them when the set is empty.  With the set [{A}], the
    source files [A] and [""] pass and any other file [B] does not; with the
    empty set every source file passes. *)
Theorem provenance_filter_correctness (c : Category) (src : AbiElementMap)
    (p : Process) :
  let exported_headers := exported_headers_ (this p) in
  let q := (LinkDecl world src (linker_filter c) p).2 in
  let sent := forwarded world src (linker_filter c) p in
  linkable_messages (ir_dumper q) = (linkable_messages (ir_dumper p) ++ sent.*2)%list
  ∧ (∀ k d, (k, d) ∈ sent →
       (k, d) ∈ src
       ∧ (exported_headers = ∅ ∨ GetSourceFile d = ""
          ∨ GetSourceFile d ∈ exported_headers))
  ∧ (is_type_category c = true →
     (∀ dst e, AddLinkableMessageIR_ok world dst e = true) →
     sent = List.filter (λ e, in_exported_headers exported_headers (GetSourceFile e.2)) src
     ∧ (exported_headers = ∅ → sent = src))
  ∧ (∀ A B : string, B ≠ A → B ≠ "" →
       in_exported_headers {[A]} A = true
       ∧ in_exported_headers {[A]} "" = true
       ∧ in_exported_headers {[A]} B = false)
  ∧ (∀ source_file, in_exported_headers ∅ source_file = true).
Proof.
  intros hs q sent. split; [apply LinkDecl_forwarded|].
  split.
  { intros k d (Hin&Hh&_)%forwarded_sound. split; [done|].
    by apply in_exported_headers_spec. }
  split.
  { intros Hc Hok. unfold sent. rewrite (forwarded_types _ _ _ Hc Hok).
    split; [done|]. intros Hhs. apply filter_all_true. intros e.
    apply in_exported_headers_spec. by left. }
  split.
  - intros A B HBA HB. split; [|split].
    + apply in_exported_headers_spec. right; right. set_solver.
    + apply in_exported_headers_spec. by right; left.
    + apply not_true_is_false. rewrite in_exported_headers_spec.
      intros [He|[?|?]]; [|done|set_solver].
      assert (A ∈ (∅ : gset string)) by (rewrite <- He; set_solver). set_solver.
  - intros sf. apply in_exported_headers_spec. by left.
Qed.

Lemma functions_symbol_filter_true k l :
  fst (functions_symbol_filter k l) = true →
  is_Some (function_decl_map_ l !! k)
  ∨ (regex_search k (functions_vs_regex_ l) = true
     ∧ (k ∉ functions_regex_matched_set l)
     ∧ k ∈ functions_regex_matched_set (snd (functions_symbol_filter k l))).
Proof.
  unfold functions_symbol_filter. case_bool_decide; [by left|].
  unfold QueryRegexMatches. case_bool_decide; simpl; [done|].
  destruct (regex_search _ _); simpl; [|done].
  intros _. right. split; [done|]. split; [done|]. set_solver.
Qed.

Lemma globvars_symbol_filter_true k l :
  fst (globvars_symbol_filter k l) = true →
  is_Some (globvar_decl_map_ l !! k)
  ∨ (regex_search k (globvars_vs_regex_ l) = true
     ∧ (k ∉ globvars_regex_matched_set l)
     ∧ k ∈ globvars_regex_matched_set (snd (globvars_symbol_filter k l))).
Proof.
  unfold globvars_symbol_filter. case_bool_decide; [by left|].
  unfold QueryRegexMatches. case_bool_decide; simpl; [done|].
  destruct (regex_search _ _); simpl; [|done].
  intros _. right. split; [done|]. split; [done|]. set_solver.
Qed.

Lemma same_config_matched_set c l l' :
  same_config l l' → matched_set c l ⊆ matched_set c l'.
Proof. intros (?&?&?&?&?&?&?). destruct c; simpl; done. Qed.

Lemma same_config_is_exact c l l' k :
  same_config l l' → is_exact c l' k ↔ is_exact c l k.
Proof. intros (?&E1&E2&?&?&?&?). destruct c; simpl; try done; by rewrite ?E1, ?E2. Qed.

Lemma linker_filter_true c k l :
  fst (linker_filter c k l) = true →
  is_exact c l k
  ∨ ((k ∉ matched_set c l) ∧ k ∈ matched_set c (snd (linker_filter c k l))).
Proof.
  destruct c; simpl; try by left.
  - intros [?|(?&?&?)]%functions_symbol_filter_true; [by left|by right].
  - intros [?|(?&?&?)]%globvars_symbol_filter_true; [by left|by right].
Qed.

(** A key forwarded on account of the wildcard matcher is in the matched set
    when the pass is over. *)
Lemma forwarded_recorded c src p k d :
  (k, d) ∈ forwarded world src (linker_filter c) p →
  is_exact c (this p) k
  ∨ k ∈ matched_set c (this (LinkDecl world src (linker_filter c) p).2).
Proof.
  revert p. induction src as [|[k0 d0] rest IH]; intros p; simpl.
  { by intros ?%elem_of_nil. }
  destruct (in_exported_headers _ _) eqn:Hh; simpl; [|apply IH].
  pose proof (linker_filter_same_config c k0 (this p)) as Hf.
  pose proof (linker_filter_true c k0 (this p)) as Ht.
  destruct (linker_filter c k0 (this p)) as [keep l'] eqn:Hk. simpl in Hf, Ht.
  destruct keep; simpl.
  - destruct (AddLinkableMessageIR _ _ _) as [ok dst].
    destruct ok; simpl; [|by intros ?%elem_of_nil].
    intros [[= -> ->]|Hin]%elem_of_cons.
    + destruct Ht as [?|[_ Hm]]; [done|by left|]. right.
      by apply (same_config_matched_set c _ _
                  (LinkDecl_same_config c rest (set_ir_dumper dst (set_this l' p)))).
    + apply IH in Hin as [He|?]; [left|by right].
      simpl in He. by apply (same_config_is_exact c _ _ k Hf).
  - intros Hin. apply IH in Hin as [He|?]; [left|by right].
    simpl in He. by apply (same_config_is_exact c _ _ k Hf).
Qed.

(** A key forwarded on account of the wildcard matcher was not in the matched
    set when the pass began. *)
Lemma forwarded_fresh c src p k d :
  (k, d) ∈ forwarded world src (linker_filter c) p →
  is_exact c (this p) k ∨ k ∉ matched_set c (this p).
Proof.
  intros (_&_&l&Hl&Ht)%forwarded_sound.
  apply linker_filter_true in Ht as [He|[Hn _]].
  - left. by apply (same_config_is_exact c _ _ k Hl).
  - right. intros Hin. apply Hn. by apply (same_config_matched_set c _ _ Hl).
Qed.

(** Claim C6.  [LinkFunctions] and [LinkGlobalVars] append to the dumper the
    entries [forwarded] lists.  When the call succeeds, every entry of the
    category that passes the header test and whose key is in the exact map is
    among them, whatever the compiled wildcard expression and the matched set
    are.  And every forwarded entry has its key in the exact map or matched
    by the wildcard expression of its category. *)
Theorem exact_match_acceptance (reader : Graph) (p : Process) :
  let l := this p in
  let functions := forwarded world (reader Functions) functions_symbol_filter p in
  let globvars := forwarded world (reader GlobalVariables) globvars_symbol_filter p in
  (linkable_messages (ir_dumper (LinkFunctions world reader p).2)
   = (linkable_messages (ir_dumper p) ++ functions.*2)%list
   ∧ linkable_messages (ir_dumper (LinkGlobalVars world reader p).2)
     = (linkable_messages (ir_dumper p) ++ globvars.*2)%list)
  ∧ ((LinkFunctions world reader p).1 = true →
     ∀ k d, (k, d) ∈ reader Functions →
       in_exported_headers (exported_headers_ l) (GetSourceFile d) = true →
       is_Some (function_decl_map_ l !! k) →
       (k, d) ∈ functions)
  ∧ ((LinkGlobalVars world reader p).1 = true →
     ∀ k d, (k, d) ∈ reader GlobalVariables →
       in_exported_headers (exported_headers_ l) (GetSourceFile d) = true →
       is_Some (globvar_decl_map_ l !! k) →
       (k, d) ∈ globvars)
  ∧ (∀ k d, (k, d) ∈ functions →
       is_Some (function_decl_map_ l !! k)
       ∨ regex_search k (functions_vs_regex_ l) = true)
  ∧ (∀ k d, (k, d) ∈ globvars →
       is_Some (globvar_decl_map_ l !! k)
       ∨ regex_search k (globvars_vs_regex_ l) = true).
Proof.
  intros l functions globvars. subst l functions globvars.
  split; [split; apply LinkDecl_forwarded|].
  split.
  { intros Hok k d Hin Hh He.
    apply (forwarded_complete Functions); [done..|].
    intros l' (_&E&_). simpl. unfold functions_symbol_filter.
    rewrite E. by rewrite bool_decide_eq_true_2. }
  split.
  { intros Hok k d Hin Hh He.
    apply (forwarded_complete GlobalVariables); [done..|].
    intros l' (_&_&E&_). simpl. unfold globvars_symbol_filter.
    rewrite E. by rewrite bool_decide_eq_true_2. }
  split.
  - intros k d (_&_&l'&Hl&Ht)%(forwarded_sound Functions).
    destruct Hl as (_&E1&_&E2&_).
    apply functions_symbol_filter_true in Ht as [?|(?&_)].
    + left. by rewrite <- E1.
    + right. by rewrite <- E2.
  - intros k d (_&_&l'&Hl&Ht)%(forwarded_sound GlobalVariables).
    destruct Hl as (_&_&E1&_&E2&_).
    apply globvars_symbol_filter_true in Ht as [?|(?&_)].
    + left. by rewrite <- E1.
    + right. by rewrite <- E2.
Qed.

Lemma wildcard_accepted_fresh matched rx symbols k :
  k ∈ wildcard_accepted matched rx symbols → k ∉ matched.
Proof.
  revert matched. induction symbols as [|s rest IH]; intros matched; simpl.
  { by intros ?%elem_of_nil. }
  pose proof (QueryRegexMatches_grows matched rx s) as Hg.
  unfold QueryRegexMatches in *. case_bool_decide as Hs; simpl in *.
  { apply IH. }
  destruct (regex_search s rx); simpl in *.
  - intros [->|Hin]%elem_of_cons; [done|]. apply IH in Hin. set_solver.
  - apply IH.
Qed.

Lemma wildcard_accepted_NoDup matched rx symbols :
  NoDup (wildcard_accepted matched rx symbols).
Proof.
  revert matched. induction symbols as [|s rest IH]; intros matched; simpl.
  { constructor. }
  unfold QueryRegexMatches. case_bool_decide as Hs; simpl; [apply IH|].
  destruct (regex_search s rx); simpl; [|apply IH].
  constructor; [|apply IH].
  intros Hin%wildcard_accepted_fresh. set_solver.
Qed.

(** Claim C8.  A symbol that is in the matched set is answered [false], and
    the set is left as it is.  A symbol answered [true] was not in the set,
    is in it afterwards, and is answered [false] from then on; the set only
    grows.  So in any run of queries no symbol is answered [true] twice, and
    a key that [LinkFunctions] (or [LinkGlobalVars]) forwards in a pass and
    again in a later pass is a key of the exact map: the wildcard matcher
    adds no entry a second time. *)
Theorem wildcard_test_true_at_most_once :
  (∀ matched rx symbol,
     symbol ∈ matched →
     QueryRegexMatches matched rx symbol = (false, matched))
  ∧ (∀ matched rx symbol matched',
       QueryRegexMatches matched rx symbol = (true, matched') →
       (symbol ∉ matched) ∧ symbol ∈ matched'
       ∧ QueryRegexMatches matched' rx symbol = (false, matched'))
  ∧ (∀ matched rx symbol, matched ⊆ snd (QueryRegexMatches matched rx symbol))
  ∧ (∀ matched rx symbols, NoDup (wildcard_accepted matched rx symbols))
  ∧ (∀ (reader reader' : Graph) (p : Process) k d d',
       let p' := snd (LinkFunctions world reader p) in
       (k, d) ∈ forwarded world (reader Functions) functions_symbol_filter p →
       (k, d') ∈ forwarded world (reader' Functions) functions_symbol_filter p' →
       is_Some (function_decl_map_ (this p) !! k))
  ∧ (∀ (reader reader' : Graph) (p : Process) k d d',
       let p' := snd (LinkGlobalVars world reader p) in
       (k, d) ∈ forwarded world (reader GlobalVariables) globvars_symbol_filter p →
       (k, d') ∈ forwarded world (reader' GlobalVariables) globvars_symbol_filter p' →
       is_Some (globvar_decl_map_ (this p) !! k)).
Proof.
  split.
  { intros matched rx symbol Hin. unfold QueryRegexMatches.
    by rewrite bool_decide_eq_true_2. }
  split.
  { intros matched rx symbol matched'. unfold QueryRegexMatches.
    case_bool_decide as Hs; [done|].
    destruct (regex_search symbol rx); [|done]. intros [= <-].
    split; [done|]. split; [set_solver|].
    rewrite bool_decide_eq_true_2; [done|set_solver]. }
  split; [apply QueryRegexMatches_grows|].
  split; [apply wildcard_accepted_NoDup|].
  split.
  - intros reader reader' p k d d' p' H1 H2.
    apply (forwarded_recorded Functions) in H1 as [?|H1]; [done|].
    apply (forwarded_fresh Functions) in H2 as [H2|H2]; [|done].
    apply (same_config_is_exact Functions (this p) (this p') k); [|done].
    apply (LinkDecl_same_config Functions).
  - intros reader reader' p k d d' p' H1 H2.
    apply (forwarded_recorded GlobalVariables) in H1 as [?|H1]; [done|].
    apply (forwarded_fresh GlobalVariables) in H2 as [H2|H2]; [|done].
    apply (same_config_is_exact GlobalVariables (this p) (this p') k); [|done].
    apply (LinkDecl_same_config GlobalVariables).
Qed.

(** Claim C3, amended.  With neither [-so] nor [-v] the program prints its
    diagnostic and returns -1 before doing anything else.  With [-so], the
    version script plays no part: the run is the same whatever [-v] is,
    given or not. *)
Theorem so_or_v_required (cl : CommandLine) :
  (so_file cl = "" → version_script cl = "" →
   main world cl
   = (Returned (-1)%Z,
      print_err "One of -so or -v needs to be specified" new_Process))
  ∧ (so_file cl ≠ "" →
     ∀ v, main world (with_version_script v cl) = main world cl).
Proof.
  split.
  - intros Hso Hv. unfold main. by rewrite Hso, Hv.
  - intros Hso v. unfold main. cbn [so_file with_version_script no_filter].
    apply String.eqb_neq in Hso. rewrite Hso. cbn [andb].
    destruct (no_filter cl); unfold LinkAndDump;
      cbn [so_file with_version_script clear_exported_header_dirs];
      rewrite Hso; reflexivity.
Qed.

Lemma AddElfSymbols_this p : this (snd (AddElfSymbols world p)) = this p.
Proof.
  unfold AddElfSymbols.
  destruct (AddElfSymbols_map _ _ _ _) as [ok d]. destruct ok; [|done].
  by destruct (AddElfSymbols_map _ _ _ _).
Qed.

Lemma and_then_headers r f :
  (∀ p, exported_headers_ (this (snd (f p))) = exported_headers_ (this p)) →
  exported_headers_ (this (snd (and_then r f))) = exported_headers_ (this (snd r)).
Proof. intros Hf. unfold and_then. destruct r as [[] p]; simpl; [apply Hf|done]. Qed.

Lemma LinkDecl_headers c src p :
  exported_headers_ (this (snd (LinkDecl world src (linker_filter c) p)))
  = exported_headers_ (this p).
Proof. by destruct (LinkDecl_same_config c src p) as [-> _]. Qed.

Lemma LinkTypes_headers reader p :
  exported_headers_ (this (snd (LinkTypes world reader p)))
  = exported_headers_ (this p).
Proof.
  unfold LinkTypes.
  repeat (rewrite and_then_headers;
          [|intros; apply (LinkDecl_headers RecordTypes)]).
  apply (LinkDecl_headers RecordTypes).
Qed.

Lemma link_and_dump_body_headers cl p :
  exported_headers_ (this (snd (link_and_dump_body world cl p)))
  = exported_headers_ (this p).
Proof.
  unfold link_and_dump_body.
  set (p1 := snd (AddElfSymbols world (set_ir_dumper CreateIRDumper p))).
  assert (H1 : exported_headers_ (this p1) = exported_headers_ (this p)).
  { unfold p1. by rewrite AddElfSymbols_this. }
  destruct (aggregate _ _ _ _ _ _) as [greader| | |]; simpl; try done.
  pose proof (and_then_headers
    (and_then (LinkTypes world greader p1) (LinkFunctions world greader))
    (LinkGlobalVars world greader)
    (λ q, LinkDecl_headers GlobalVariables _ q)) as H3.
  rewrite (and_then_headers (LinkTypes world greader p1) (LinkFunctions world greader)
             (λ q, LinkDecl_headers Functions _ q)) in H3.
  rewrite LinkTypes_headers in H3.
  destruct (and_then _ _) as [ok p3]. simpl in H3.
  destruct ok; simpl; [|congruence].
  destruct (Dump _ _) as [ok d]. destruct ok; simpl; congruence.
Qed.

Lemma ParseVersionScriptFiles_headers cl p :
  exported_headers_ (this (snd (ParseVersionScriptFiles world cl p)))
  = exported_headers_ (this p).
Proof.
  unfold ParseVersionScriptFiles.
  destruct (VersionScriptParser_Parse _ _ _ _); [|done].
  destruct (CreateRegexMatchExprFromSet _); [|done].
  by destruct (CreateRegexMatchExprFromSet _).
Qed.

(** Claim C10.  Without [-so], [LinkAndDump] leaves the exported header set
    as it found it; [main] ends with the set empty, behaves the same whatever
    the [-I] directories are, and every source file passes the header
    test. *)
Theorem version_script_mode_keeps_exported_headers_empty (cl : CommandLine) :
  so_file cl = "" →
  (∀ p, exported_headers_ (this (snd (LinkAndDump world cl p)))
        = exported_headers_ (this p))
  ∧ exported_headers_ (this (snd (main world cl))) = ∅
  ∧ (∀ dirs, main world (with_exported_header_dirs dirs cl) = main world cl)
  ∧ (∀ source_file,
       in_exported_headers (exported_headers_ (this (snd (main world cl))))
         source_file = true).
Proof.
  intros Hso.
  assert (HL : ∀ cl' p, so_file cl' = "" →
            exported_headers_ (this (snd (LinkAndDump world cl' p)))
            = exported_headers_ (this p)).
  { intros cl' p Hso'. unfold LinkAndDump. rewrite Hso'. cbn [String.eqb negb].
    pose proof (ParseVersionScriptFiles_headers cl' p) as HP.
    destruct (ParseVersionScriptFiles world cl' p) as [[[]| | |] p']; simpl in *;
      try done.
    by rewrite link_and_dump_body_headers. }
  assert (HM : exported_headers_ (this (snd (main world cl))) = ∅).
  { unfold main. rewrite Hso. cbn [String.eqb].
    destruct (String.eqb (version_script cl) ""); [done|]. cbn [andb].
    set (cl' := if no_filter cl then _ else _).
    assert (Hso' : so_file cl' = "") by (unfold cl'; by destruct (no_filter cl)).
    pose proof (HL cl' new_Process Hso') as HL'.
    destruct (LinkAndDump world cl' new_Process) as [[[]| | |] p']; simpl in *;
      done. }
  split; [intros p; by apply HL|].
  split; [done|].
  split.
  - intros dirs. clear HL HM.
    destruct cl as [df ld dirs0 vs ap ar nf so fi fo]. simpl in Hso. subst so.
    unfold main, with_exported_header_dirs. cbn [so_file version_script no_filter].
    destruct (String.eqb "" "" && String.eqb vs ""); [done|].
    destruct nf; reflexivity.
  - intros sf. rewrite HM. apply in_exported_headers_spec. by left.
Qed.

End ExportFilter.

(** Claim C5 at work: with the exported header set [{A.h}], of three record
    types from [A.h], [B.h] and no file, the first and the last are
    forwarded; with the empty set all three are. *)
Lemma provenance_filter_correctness_witness :
  forwarded Scenario.world Scenario.three_decls (linker_filter RecordTypes)
    (Scenario.process_with_headers {["A.h"]})
  = [("a", Scenario.decl "A.h" "a"); ("c", Scenario.decl "" "c")]
  ∧ forwarded Scenario.world Scenario.three_decls (linker_filter RecordTypes)
      (Scenario.process_with_headers ∅)
    = Scenario.three_decls.
Proof.
  split.
  - destruct (provenance_filter_correctness Scenario.world RecordTypes
                Scenario.three_decls (Scenario.process_with_headers {["A.h"]}))
      as (_ & _ & H & _).
    destruct (H eq_refl (λ _ _, eq_refl)) as [-> _]. vm_compute. reflexivity.
  - destruct (provenance_filter_correctness Scenario.world RecordTypes
                Scenario.three_decls (Scenario.process_with_headers ∅))
      as (_ & _ & H & _).
    destruct (H eq_refl (λ _ _, eq_refl)) as [_ H']. apply H'. reflexivity.
Defined.

(** Claim C6 at work: [f1] is in the exact map and is linked although the
    wildcard expression is the default one, which matches nothing. *)
Lemma exact_match_acceptance_witness :
  ("f1", Scenario.decl "include/api.h" "int f1()")
  ∈ forwarded Scenario.world (Scenario.dump_of "a.dump" Functions)
      functions_symbol_filter
      (set_this (Scenario.linker_with_exports regex_default) new_Process).
Proof.
  destruct (exact_match_acceptance Scenario.world (Scenario.dump_of "a.dump")
              (set_this (Scenario.linker_with_exports regex_default) new_Process))
    as (_ & H & _).
  apply H.
  - vm_compute. reflexivity.
  - left.
  - vm_compute. reflexivity.
  - eexists. vm_compute. reflexivity.
Defined.

(** Claim C8 at work: [foo_bar], once in the matched set, is answered
    [false]. *)
Lemma wildcard_test_true_at_most_once_witness :
  QueryRegexMatches {["foo_bar"]} regex_default "foo_bar" = (false, {["foo_bar"]}).
Proof.
  destruct (wildcard_test_true_at_most_once Scenario.world) as [H _].
  apply H. apply elem_of_singleton. reflexivity.
Defined.

(** Claim C3 at work: no [-so] and no [-v]; and [-so] with a [-v] that makes
    no difference. *)
Lemma so_or_v_required_witness :
  main Scenario.world Scenario.with_neither
  = (Returned (-1)%Z,
     print_err "One of -so or -v needs to be specified" new_Process)
  ∧ main Scenario.world (with_version_script "libfoo.map.txt" Scenario.with_so)
    = main Scenario.world Scenario.with_so.
Proof.
  split.
  - apply (proj1 (so_or_v_required Scenario.world Scenario.with_neither));
      reflexivity.
  - apply (proj2 (so_or_v_required Scenario.world Scenario.with_so)).
    simpl. discriminate.
Defined.

(** Claim C3 as stated fails: with both [-so] and [-v] on the command line
    the program runs, in [-so] mode, returns 0 and prints no diagnostic. *)
Lemma both_so_and_v_accepted :
  so_file Scenario.with_both = "libfoo.so"
  ∧ version_script Scenario.with_both = "libfoo.map.txt"
  ∧ (main Scenario.world Scenario.with_both).1 = Returned 0%Z
  ∧ errs (main Scenario.world Scenario.with_both).2 = []
  ∧ dumped (ir_dumper (main Scenario.world Scenario.with_both).2) = true.
Proof. vm_compute. repeat split. Qed.

(** Claim C10 at work: in version-script mode [-Iinclude] changes nothing. *)
Lemma version_script_mode_keeps_exported_headers_empty_witness :
  exported_headers_ (this (main Scenario.world Scenario.with_v).2) = ∅
  ∧ main Scenario.world (with_exported_header_dirs [] Scenario.with_v)
    = main Scenario.world Scenario.with_v.
Proof.
  destruct (version_script_mode_keeps_exported_headers_empty Scenario.world
              Scenario.with_v eq_refl) as (_ & H1 & H2 & _).
  split; [exact H1|apply H2].
Defined.

(* ===================================================================== *)
(** ** The wildcard matcher *)
(* ===================================================================== *)

Lemma string_app_nil_r (s : string) : s +:+ "" = s.
Proof.
  induction s as [|a s IH]; [done|].
  change (String a (s +:+ "") = String a s). by rewrite IH.
Qed.

Lemma string_app_assoc (s1 s2 s3 : string) :
  (s1 +:+ s2) +:+ s3 = s1 +:+ (s2 +:+ s3).
Proof.
  induction s1 as [|a s1 IH]; [done|].
  change (String a ((s1 +:+ s2) +:+ s3) = String a (s1 +:+ (s2 +:+ s3))).
  by rewrite IH.
Qed.

Lemma replace_text_star_cons c rest :
  replace_text 0 "*" ".*" (String c rest)
  = if Ascii.eqb "*" c then ".*" +:+ replace_text 0 "*" ".*" rest
    else String c (replace_text 0 "*" ".*" rest).
Proof.
  cbn [replace_text starts_with String.length Nat.sub].
  destruct (Ascii.eqb "*" c); cbn [andb]; [|done].
  by destruct rest.
Qed.

Lemma FindAndReplace_star pattern :
  FindAndReplace pattern "\*" ".*" = star_to_dot_star pattern.
Proof.
  unfold FindAndReplace. cbn [find_expr_text].
  induction pattern as [|c rest IH]; [done|].
  rewrite replace_text_star_cons, IH. cbn [star_to_dot_star].
  rewrite (Ascii.eqb_sym c). by destruct (Ascii.eqb "*" c).
Qed.

Lemma regex_match_str_loop_spec acc link_set :
  regex_match_str_loop acc link_set
  = acc +:+ String.concat "|" (anchored_group <$> link_set).
Proof.
  revert acc. induction link_set as [|p rest IH]; intros acc.
  { cbn. by rewrite string_app_nil_r. }
  cbn [regex_match_str_loop]. rewrite FindAndReplace_star.
  fold (anchored_group p).
  destruct rest as [|p' rest'].
  - done.
  - rewrite IH. rewrite !string_app_assoc. done.
Qed.

Lemma CreateRegexMatchExprFromSet_spec link_set :
  CreateRegexMatchExprFromSet link_set
  = match link_set with
    | [] => Some regex_default
    | _ :: _ => regex_of_string (String.concat "|" (anchored_group <$> link_set))
    end.
Proof.
  unfold CreateRegexMatchExprFromSet. rewrite regex_match_str_loop_spec.
  destruct link_set as [|p rest]; [done|].
  change ("" +:+ ?s) with s.
  by destruct rest.
Qed.

(** *** Patterns made of word characters *)

(** What the parser needs to know of a word character. *)
Lemma is_word_plain c :
  is_word c = true →
  Ascii.eqb c "^" = false ∧ Ascii.eqb c "$" = false ∧ Ascii.eqb c "\" = false
  ∧ Ascii.eqb c "." = false ∧ Ascii.eqb c "(" = false ∧ Ascii.eqb c ")" = false
  ∧ Ascii.eqb c "|" = false ∧ Ascii.eqb c "*" = false ∧ Ascii.eqb c "+" = false
  ∧ Ascii.eqb c "?" = false ∧ Ascii.eqb c "{" = false
  ∧ is_syntax_char c = false ∧ is_line_terminator c = false.
Proof.
  destruct c as [[] [] [] [] [] [] [] []]; vm_compute; intros H;
    first [discriminate H | repeat split].
Qed.

Lemma parse_quantifier_plain atom c s :
  Ascii.eqb c "*" = false → Ascii.eqb c "+" = false →
  Ascii.eqb c "?" = false → Ascii.eqb c "{" = false →
  parse_quantifier atom (String c s) = Some (atom, String c s).
Proof. intros H1 H2 H3 H4. unfold parse_quantifier. by rewrite H1, H2, H3, H4. Qed.

Lemma parse_term_S fuel s :
  parse_term (S fuel) s
  = match s with
    | EmptyString => None
    | String c s' =>
        if Ascii.eqb c "^" then Some (LineStart, s')
        else if Ascii.eqb c "$" then Some (LineEnd, s')
        else if Ascii.eqb c "\" then parse_escape s'
        else if Ascii.eqb c "." then parse_quantifier AnyChar s'
        else if Ascii.eqb c "(" then
          if starts_with "?" s' then None
          else
            match parse_disjunction fuel s' with
            | Some (a, String c' s'') =>
                if Ascii.eqb c' ")" then parse_quantifier (Group a) s''
                else None
            | _ => None
            end
        else if is_syntax_char c then None
        else parse_quantifier (Chr c) s'
    end.
Proof. done. Qed.

Lemma parse_alternative_S fuel s :
  parse_alternative (S fuel) s
  = if starts_with "|" s || starts_with ")" s || String.eqb s "" then
      Some (Eps, s)
    else
      match parse_term fuel s with
      | Some (t, s') =>
          match parse_alternative fuel s' with
          | Some (a, s'') => Some (Seq t a, s'')
          | None => None
          end
      | None => None
      end.
Proof. done. Qed.

Lemma parse_disjunction_S fuel s :
  parse_disjunction (S fuel) s
  = match parse_alternative fuel s with
    | Some (a, String c s') =>
        if Ascii.eqb c "|" then
          match parse_disjunction fuel s' with
          | Some (b, s'') => Some (Alt a b, s'')
          | None => None
          end
        else Some (a, String c s')
    | r => r
    end.
Proof. done. Qed.

(** A run of word characters parses to [literals], as long as what follows
    does not begin with a quantifier. *)
Lemma parse_alternative_literals w c text tail rest fuel :
  all_word w = true →
  Ascii.eqb c "*" = false → Ascii.eqb c "+" = false →
  Ascii.eqb c "?" = false → Ascii.eqb c "{" = false →
  parse_alternative (S fuel) (String c text) = Some (tail, rest) →
  parse_alternative (S (String.length w + fuel)) (w +:+ String c text)
  = Some (literals w tail, rest).
Proof.
  intros Hw H1 H2 H3 H4 Htail. induction w as [|d w IH]; [done|].
  cbn [all_word] in Hw. apply andb_true_iff in Hw as [Hd Hw].
  specialize (IH Hw).
  change (S (String.length (String d w) + fuel)) with (S (S (String.length w + fuel))).
  change (String d w +:+ String c text) with (String d (w +:+ String c text)).
  rewrite parse_alternative_S.
  destruct (is_word_plain d Hd) as (E1&E2&E3&E4&E5&E6&E7&E8&E9&E10&E11&E12&E13).
  cbn [starts_with String.eqb]. rewrite Ascii.eqb_sym, E7, (Ascii.eqb_sym ")"), E6.
  cbn [andb orb].
  rewrite parse_term_S, E1, E2, E3, E4, E5, E12.
  assert (parse_quantifier (Chr d) (w +:+ String c text)
          = Some (Chr d, w +:+ String c text)) as ->.
  { destruct w as [|e w']; [by apply parse_quantifier_plain|].
    cbn [all_word] in Hw. apply andb_true_iff in Hw as [He _].
    destruct (is_word_plain e He) as (_&_&_&_&_&_&_&F8&F9&F10&F11&_).
    by apply parse_quantifier_plain. }
  rewrite IH. done.
Qed.

Lemma string_length_app (s1 s2 : string) :
  String.length (s1 +:+ s2) = String.length s1 + String.length s2.
Proof.
  induction s1 as [|c s1 IH]; [done|].
  change (S (String.length (s1 +:+ s2)) = S (String.length s1 + String.length s2)).
  by rewrite IH.
Qed.

(** The expression that [(\b], a run of word characters, some further text
    and [)] parse to, given what the further text parses to. *)
Lemma parse_anchored w c text tail :
  all_word w = true →
  Ascii.eqb c "*" = false → Ascii.eqb c "+" = false →
  Ascii.eqb c "?" = false → Ascii.eqb c "{" = false →
  (∀ fuel, parse_alternative (S (S (S (S fuel)))) (String c text)
           = Some (tail, ")")) →
  parse ("(\b" +:+ w +:+ String c text)
  = Some (Seq (Group (Seq WordBoundary (literals w tail))) Eps).
Proof.
  intros Hw H1 H2 H3 H4 Htail. unfold parse.
  rewrite !string_length_app.
  set (n := String.length w). set (m := String.length (String c text)).
  change (String.length "(\b") with 3.
  replace (3 * (3 + (n + m)) + 3)
    with (S (S (S (S (S (S (n + S (S (S (2 * n + 3 * m + 3))))))))))
    by (clearbody n m; lia).
  rewrite parse_disjunction_S, parse_alternative_S.
  change ("(\b" +:+ w +:+ String c text)
    with (String "(" (String "\" (String "b" (w +:+ String c text)))).
  cbn [starts_with String.eqb Ascii.eqb Bool.eqb andb orb].
  rewrite parse_term_S.
  cbn [starts_with String.eqb Ascii.eqb Bool.eqb andb orb].
  rewrite parse_disjunction_S, parse_alternative_S.
  cbn [starts_with String.eqb Ascii.eqb Bool.eqb andb orb].
  rewrite parse_term_S.
  cbn [starts_with String.eqb Ascii.eqb Bool.eqb andb orb parse_escape].
  unfold n.
  rewrite (parse_alternative_literals w c text tail ")" _ Hw H1 H2 H3 H4 (Htail _)).
  cbn [Ascii.eqb Bool.eqb parse_quantifier].
  rewrite parse_alternative_S.
  cbn [starts_with String.eqb Ascii.eqb Bool.eqb andb orb].
  done.
Qed.

Lemma parse_word_group w :
  all_word w = true →
  regex_of_string ("(\b" +:+ w +:+ "\b)")
  = Some (regex_compiled
            (Seq (Group (Seq WordBoundary (literals w (Seq WordBoundary Eps)))) Eps)).
Proof.
  intros Hw. unfold regex_of_string.
  by rewrite (parse_anchored w "\" "b)" (Seq WordBoundary Eps)).
Qed.

Lemma parse_word_star_group w :
  all_word w = true →
  regex_of_string ("(\b" +:+ w +:+ ".*\b)")
  = Some (regex_compiled
            (Seq (Group (Seq WordBoundary
                           (literals w (Seq (Star AnyChar) (Seq WordBoundary Eps)))))
               Eps)).
Proof.
  intros Hw. unfold regex_of_string.
  by rewrite (parse_anchored w "." "*\b)" (Seq (Star AnyChar) (Seq WordBoundary Eps))).
Qed.

(** *** Matching a run of literal characters *)

Lemma matches_literals w tail prev s k :
  matches (literals w tail) prev s k
  = match strip_prefix w s with
    | Some rest => matches tail (last_of w prev) rest k
    | None => false
    end.
Proof.
  revert prev s. induction w as [|c w IH]; intros prev s; [done|].
  cbn [literals matches strip_prefix last_of]. destruct s as [|c' s']; [done|].
  destruct (Ascii.eqb_spec c c') as [->|]; [|done]. apply IH.
Qed.

Lemma last_of_word w prev :
  all_word w = true → w ≠ "" → prev_is_word (last_of w prev) = true.
Proof.
  revert prev. induction w as [|c w IH]; intros prev Hw Hne; [done|].
  cbn [all_word] in Hw. apply andb_true_iff in Hw as [Hc Hw].
  cbn [last_of]. destruct w as [|d w']; [done|]. by apply IH.
Qed.

Lemma strip_prefix_next_is_word w s rest :
  strip_prefix w s = Some rest → all_word w = true → w ≠ "" →
  next_is_word s = true.
Proof.
  destruct w as [|a w']; [done|]. destruct s as [|b s']; [done|].
  cbn [strip_prefix all_word next_is_word].
  destruct (Ascii.eqb_spec a b) as [->|]; [|done].
  by intros _ [? _]%andb_true_iff _.
Qed.

(** [\bw\b] at one position. *)
Lemma matches_word_group w prev s :
  all_word w = true → w ≠ "" →
  matches (Seq (Group (Seq WordBoundary (literals w (Seq WordBoundary Eps)))) Eps)
    prev s (λ _ _, true)
  = match strip_prefix w s with
    | Some rest => negb (prev_is_word prev) && negb (next_is_word rest)
    | None => false
    end.
Proof.
  intros Hw Hne. cbn [matches]. rewrite matches_literals.
  destruct (strip_prefix w s) as [rest|] eqn:Hs; [|by destruct (at_word_boundary _ _)].
  cbn [matches]. unfold at_word_boundary.
  rewrite (strip_prefix_next_is_word _ _ _ Hs Hw Hne).
  rewrite (last_of_word w prev Hw Hne).
  destruct (prev_is_word prev), (next_is_word rest); done.
Qed.

(** After a word character, [.*\b] always finds its boundary: at the end of
    the run of word characters that follows. *)
Lemma iterate_any_boundary (k : Continuation) n c s :
  (∀ prev' s', k prev' s' = at_word_boundary prev' s') →
  is_word c = true → String.length s ≤ n →
  iterate (matches AnyChar) k n (Some c) s = true.
Proof.
  intros Hk. revert c s. induction n as [|n IH]; intros c s Hc Hlen.
  - destruct s; [|simpl in Hlen; lia].
    cbn [iterate]. rewrite Hk. unfold at_word_boundary. simpl. by rewrite Hc.
  - cbn [iterate]. destruct s as [|d s'].
    + rewrite Hk. unfold at_word_boundary. simpl. by rewrite Hc.
    + destruct (is_word d) eqn:Hd.
      * cbn [matches].
        destruct (is_word_plain d Hd) as (_&_&_&_&_&_&_&_&_&_&_&_&->).
        replace (String.length s' <? String.length (String d s')) with true
          by (symmetry; apply Nat.ltb_lt; simpl; lia).
        rewrite IH; [done|done|simpl in Hlen; lia].
      * apply orb_true_iff. right. rewrite Hk. unfold at_word_boundary.
        simpl. by rewrite Hc, Hd.
Qed.

(** [\bw.*\b] at one position. *)
Lemma matches_word_star_group w prev s :
  all_word w = true → w ≠ "" →
  matches (Seq (Group (Seq WordBoundary
                         (literals w (Seq (Star AnyChar) (Seq WordBoundary Eps)))))
             Eps)
    prev s (λ _ _, true)
  = match strip_prefix w s with
    | Some _ => negb (prev_is_word prev)
    | None => false
    end.
Proof.
  intros Hw Hne. cbn [matches]. rewrite matches_literals.
  destruct (strip_prefix w s) as [rest|] eqn:Hs; [|by destruct (at_word_boundary _ _)].
  unfold at_word_boundary at 1.
  rewrite (strip_prefix_next_is_word _ _ _ Hs Hw Hne).
  pose proof (last_of_word w prev Hw Hne) as Hlast.
  destruct (last_of w prev) as [c|]; [|done]. simpl in Hlast.
  cbn [matches].
  rewrite iterate_any_boundary; [by destruct (prev_is_word prev)| |done|done].
  intros p s'. by destruct (at_word_boundary p s').
Qed.

Lemma search_from_word_group w prev s :
  all_word w = true → w ≠ "" →
  search_from
    (Seq (Group (Seq WordBoundary (literals w (Seq WordBoundary Eps)))) Eps) prev s
  = occurs_as_word w prev s.
Proof.
  intros Hw Hne. revert prev. induction s as [|c s IH]; intros prev;
    cbn [search_from occurs_as_word]; rewrite matches_word_group by done;
    [done|by rewrite IH].
Qed.

Lemma search_from_word_star_group w prev s :
  all_word w = true → w ≠ "" →
  search_from
    (Seq (Group (Seq WordBoundary
                   (literals w (Seq (Star AnyChar) (Seq WordBoundary Eps)))))
       Eps) prev s
  = occurs_at_word_start w prev s.
Proof.
  intros Hw Hne. revert prev. induction s as [|c s IH]; intros prev;
    cbn [search_from occurs_at_word_start]; rewrite matches_word_star_group by done;
    [done|by rewrite IH].
Qed.

Lemma star_to_dot_star_word w s :
  all_word w = true → star_to_dot_star (w +:+ s) = w +:+ star_to_dot_star s.
Proof.
  intros Hw. induction w as [|c w IH]; [done|].
  cbn [all_word] in Hw. apply andb_true_iff in Hw as [Hc Hw].
  change (String c w +:+ s) with (String c (w +:+ s)). cbn [star_to_dot_star].
  destruct (is_word_plain c Hc) as (_&_&_&_&_&_&_&->&_).
  rewrite IH by done. done.
Qed.

Lemma QueryRegexMatches_fresh vs_regex symbol :
  (QueryRegexMatches ∅ vs_regex symbol).1 = regex_search symbol vs_regex.
Proof.
  unfold QueryRegexMatches. rewrite bool_decide_eq_false_2 by set_solver.
  by destruct (regex_search symbol vs_regex).
Qed.

(** The matcher compiled from one pattern of word characters, with or
    without a final [*], against the spec's reading of such a pattern. *)
Lemma wildcard_accepts_word w key :
  w ≠ "" → all_word w = true →
  wildcard_accepts [w] key = Some (occurs_as_word w None key)
  ∧ wildcard_accepts [w +:+ "*"] key = Some (occurs_at_word_start w None key).
Proof.
  intros Hne Hw. unfold wildcard_accepts.
  rewrite !CreateRegexMatchExprFromSet_spec. cbn [fmap list_fmap String.concat].
  unfold anchored_group. split.
  - pose proof (star_to_dot_star_word w "" Hw) as E.
    rewrite string_app_nil_r in E. cbn [star_to_dot_star] in E.
    rewrite string_app_nil_r in E. rewrite E.
    rewrite parse_word_group by done.
    rewrite QueryRegexMatches_fresh. cbn [regex_search].
    by rewrite search_from_word_group.
  - rewrite (star_to_dot_star_word w "*" Hw).
    change (star_to_dot_star "*") with ".*".
    rewrite string_app_assoc. change (".*" +:+ "\b)") with ".*\b)".
    rewrite parse_word_star_group by done.
    rewrite QueryRegexMatches_fresh. cbn [regex_search].
    by rewrite search_from_word_star_group.
Qed.

(** Claim C4, amended.  Compilation changes a pattern in one way only: every
    [*] becomes [.*].  Every other character reaches the regular expression
    as it is, not escaped, between [(\b] and [\b)], the groups being joined
    by [|]; so a character that means something to [std::regex] keeps that
    meaning.  The pattern [a.c] accepts the key [abc], [a+] accepts [aa], and
    [f(o)] accepts [fo] but not [f(o)]. *)
Theorem wildcard_compilation_copies_pattern_text :
  (∀ pattern, FindAndReplace pattern "\*" ".*" = star_to_dot_star pattern)
  ∧ (∀ link_set,
       regex_match_str_loop "" link_set
       = String.concat "|" (anchored_group <$> link_set))
  ∧ (∀ pattern link_set,
       CreateRegexMatchExprFromSet (pattern :: link_set)
       = regex_of_string
           (String.concat "|" (anchored_group <$> pattern :: link_set)))
  ∧ wildcard_accepts ["a.c"] "abc" = Some true
  ∧ wildcard_accepts ["a+"] "aa" = Some true
  ∧ wildcard_accepts ["f(o)"] "fo" = Some true
  ∧ wildcard_accepts ["f(o)"] "f(o)" = Some false.
Proof.
  split; [apply FindAndReplace_star|].
  split; [intros link_set; apply (regex_match_str_loop_spec "")|].
  split; [intros pattern link_set; apply CreateRegexMatchExprFromSet_spec|].
  vm_compute. repeat split.
Qed.

(** Claim C4 as stated fails: the [.] of the pattern [a.c] is not escaped,
    the expression is [(\ba.c\b)], and the key [abc], which has no [.], is
    accepted. *)
Lemma dot_in_pattern_matches_any_character :
  regex_match_str_loop "" ["a.c"] = "(\ba.c\b)"
  ∧ wildcard_accepts ["a.c"] "abc" = Some true.
Proof. vm_compute. split; reflexivity. Qed.

(** Claim C7.  The expression compiled from a set of patterns is the
    alternation of one group [(\b...\b)] per pattern, in which every [*] of
    the pattern has become [.*].  The pattern [foo_*] accepts the keys
    [foo_bar] and [foo_baz] and not [xfoo_bar]; the pattern [foo] does not
    accept [foobar], while it accepts [foo] alone and as a word of a longer
    key.  In general, for a pattern [w] of word characters, [w] accepts the
    keys in which [w] stands with no word character right before and none
    right after, and [w*] accepts the keys in which [w] stands with no word
    character right before. *)
Theorem wildcard_anchored_at_word_boundaries :
  (∀ link_set,
     regex_match_str_loop "" link_set
     = String.concat "|" (anchored_group <$> link_set))
  ∧ (∀ w key,
       w ≠ "" → all_word w = true →
       wildcard_accepts [w] key = Some (occurs_as_word w None key)
       ∧ wildcard_accepts [w +:+ "*"] key
         = Some (occurs_at_word_start w None key))
  ∧ anchored_group "foo_*" = "(\bfoo_.*\b)"
  ∧ wildcard_accepts ["foo_*"] "foo_bar" = Some true
  ∧ wildcard_accepts ["foo_*"] "foo_baz" = Some true
  ∧ wildcard_accepts ["foo_*"] "xfoo_bar" = Some false
  ∧ wildcard_accepts ["foo"] "foobar" = Some false
  ∧ wildcard_accepts ["foo"] "foo" = Some true
  ∧ wildcard_accepts ["foo"] "a::foo()" = Some true.
Proof.
  split; [intros link_set; apply (regex_match_str_loop_spec "")|].
  split; [apply wildcard_accepts_word|].
  vm_compute. repeat split.
Qed.

(** Claim C7 at work: the pattern [foo_*] and the key [xfoo_bar], in which
    no token begins with [foo_]. *)
Lemma wildcard_anchored_at_word_boundaries_witness :
  wildcard_accepts ["foo_" +:+ "*"] "xfoo_bar"
  = Some (occurs_at_word_start "foo_" None "xfoo_bar")
  ∧ occurs_at_word_start "foo_" None "xfoo_bar" = false.
Proof.
  split; [|reflexivity].
  apply (proj1 (proj2 wildcard_anchored_at_word_boundaries) "foo_" "xfoo_bar").
  - discriminate.
  - reflexivity.
Defined.

(* ===================================================================== *)
(** ** The aggregation *)
(* ===================================================================== *)

Lemma covers_refl g : covers g g.
Proof. by intros c k. Qed.

Lemma covers_trans g1 g2 g3 : covers g1 g2 → covers g2 g3 → covers g1 g3.
Proof. intros H12 H23 c k Hk. by apply H12, H23. Qed.

Lemma keys_app (m1 m2 : AbiElementMap) : keys (m1 ++ m2) = keys m1 ++ keys m2.
Proof. unfold keys. by rewrite fmap_app. Qed.

Lemma keys_cons k d (m : AbiElementMap) : keys ((k, d) :: m) = k :: keys m.
Proof. done. Qed.

Lemma merge_elements_keys dst src k :
  k ∈ keys (merge_elements dst src) ↔ k ∈ keys dst ∨ k ∈ keys src.
Proof.
  revert dst. induction src as [|[k0 d0] src IH]; intros dst.
  { simpl. change (keys []) with (@nil string). rewrite elem_of_nil. tauto. }
  cbn [merge_elements]. rewrite IH, keys_cons, elem_of_cons.
  unfold has_key. case_bool_decide as Hk0.
  - split; [tauto|]. intros [?|[->|?]]; auto.
  - rewrite keys_app, elem_of_app, keys_cons, elem_of_cons.
    change (keys []) with (@nil string). rewrite elem_of_nil. tauto.
Qed.

Lemma merge_elements_NoDup dst src :
  NoDup (keys dst) → NoDup (keys (merge_elements dst src)).
Proof.
  revert dst. induction src as [|[k0 d0] src IH]; intros dst Hnd; [done|].
  cbn [merge_elements]. apply IH. unfold has_key. case_bool_decide as Hk0; [done|].
  rewrite keys_app. apply NoDup_app. split; [done|].
  split.
  - intros k Hk. rewrite keys_cons, elem_of_cons.
    change (keys []) with (@nil string). rewrite elem_of_nil. intros [->|[]]. done.
  - rewrite keys_cons. apply NoDup_singleton.
Qed.

Lemma MergeGraphs_covers_l dst src : covers (MergeGraphs dst src) dst.
Proof. intros c k Hk. apply merge_elements_keys. by left. Qed.

Lemma MergeGraphs_covers_r dst src : covers (MergeGraphs dst src) src.
Proof. intros c k Hk. apply merge_elements_keys. by right. Qed.

Lemma MergeGraphs_unique dst src : unique_keys dst → unique_keys (MergeGraphs dst src).
Proof. intros Hd c. apply merge_elements_NoDup, Hd. Qed.

Section Aggregation.

Context (world : World) (fmt : TextFormatIR) (dump_files : list string)
        (exported_headers : gset string).

Lemma holds_dumps_mono paths g g' :
  covers g' g → holds_dumps world fmt exported_headers paths g → holds_dumps world fmt exported_headers paths g'.
Proof. intros Hc Hg path dump Hin Hr. eapply covers_trans; [done|]. by eapply Hg. Qed.

Lemma read_and_merge_spec range local local' :
  read_and_merge world fmt exported_headers range local = Some local' →
  covers local' local
  ∧ holds_dumps world fmt exported_headers range local'
  ∧ (unique_keys local → unique_keys local').
Proof.
  revert local. induction range as [|path range IH]; intros local; simpl.
  { intros [= <-]. split; [apply covers_refl|]. split; [|done].
    by intros ?? ?%elem_of_nil. }
  destruct (ReadDump world fmt exported_headers path) as [reader|] eqn:Hr; [|done].
  intros (Hc & Hh & Hu)%IH.
  split.
  { eapply covers_trans; [exact Hc|]. apply MergeGraphs_covers_l. }
  split.
  - intros path' dump [->|Hin]%elem_of_cons Hr'.
    + rewrite Hr in Hr'. injection Hr' as <-.
      eapply covers_trans; [exact Hc|]. apply MergeGraphs_covers_r.
    + by eapply Hh.
  - intros Hl. by apply Hu, MergeGraphs_unique.
Qed.

Lemma empty_graph_unique : unique_keys empty_graph.
Proof. intros c. constructor. Qed.

Lemma invariant_start n : invariant world fmt exported_headers dump_files (start_aggregation n).
Proof.
  split; simpl.
  - apply empty_graph_unique.
  - apply Forall_replicate, empty_graph_unique.
  - destruct dump_files as [|path paths] eqn:E.
    + right; left. by intros ?? ?%elem_of_nil.
    + left. split; [simpl; lia|]. by apply Forall_replicate.
Qed.

Lemma size_t_add_small (i : N) :
  (i < (N.of_nat (length dump_files)))%N →
  ((N.of_nat (length dump_files)) + kSourcesPerBatchThread <= size_t_modulus)%N →
  size_t_add i kSourcesPerBatchThread = (i + kSourcesPerBatchThread)%N.
Proof.
  intros Hi Hn. unfold size_t_add. apply N.mod_small. lia.
Qed.

Lemma invariant_step a tid a' :
  ((N.of_nat (length dump_files)) + kSourcesPerBatchThread <= size_t_modulus)%N →
  invariant world fmt exported_headers dump_files a →
  step world fmt dump_files exported_headers a tid = Some a' →
  invariant world fmt exported_headers dump_files a'.
Proof.
  intros Hfit [Hgu Hlu Hpr]. unfold step.
  destruct (threads a !! tid) as [t|] eqn:Ht; [|by intros [= <-]].
  pose proof (Forall_lookup_1 _ _ _ _ Hlu Ht) as Htu. simpl in Htu.
  unfold thread_step. destruct (status t) eqn:Hst.
  - (* an iteration of the loop *)
    destruct ((N.of_nat (length dump_files)) <=? cnt a)%N eqn:Hle.
    + (* out of range: leave the loop *)
      intros [= <-]. apply N.leb_le in Hle. split; simpl.
      * done.
      * by apply Forall_insert.
      * destruct Hpr as [[Hlt _]|[Hg|(tid0 & t0 & Ht0 & Hs0 & Hh0)]]; [lia|by right; left|].
        right; right. destruct (decide (tid0 = tid)) as [->|Hne].
        -- exists tid, {| local_reader := local_reader t; status := AtLock;
                          claimed := claimed t; decoded := decoded t |}.
           rewrite list_lookup_insert_eq by by eapply lookup_lt_Some.
           split; [done|]. split; [done|]. simpl.
           rewrite Ht in Ht0. by injection Ht0 as <-.
        -- exists tid0, t0. by rewrite list_lookup_insert_ne.
    + (* in range: read the range and merge *)
      apply N.leb_gt in Hle.
      destruct (read_and_merge _ _ _ _ _) as [local'|] eqn:Hrm; [|done].
      intros [= <-]. apply read_and_merge_spec in Hrm as (Hc & Hh & Hu).
      split; simpl.
      * done.
      * apply Forall_insert; [done|]. simpl. by apply Hu.
      * rewrite size_t_add_small in * by done.
        assert (Hkeep : ∀ tid0 t0, threads a !! tid0 = Some t0 → status t0 ≠ Finished →
                  holds_dumps world fmt exported_headers dump_files (local_reader t0) →
                  ∃ tid1 t1, <[tid := {| local_reader := local'; status := InLoop;
                                         claimed := (claimed t ++ [cnt a])%list;
                                         decoded := (decoded t ++
                                           take (N.to_nat (N.min (cnt a + kSourcesPerBatchThread) (N.of_nat (length dump_files)))) dump_files)%list |}]>
                                (threads a) !! tid1 = Some t1
                             ∧ status t1 ≠ Finished
                             ∧ holds_dumps world fmt exported_headers dump_files (local_reader t1)).
        { intros tid0 t0 Ht0 Hs0 Hh0. destruct (decide (tid0 = tid)) as [->|Hne].
          - eexists tid, _. rewrite list_lookup_insert_eq by by eapply lookup_lt_Some.
            split; [done|]. split; [done|]. simpl.
            rewrite Ht in Ht0. injection Ht0 as <-.
            by eapply holds_dumps_mono.
          - exists tid0, t0. by rewrite list_lookup_insert_ne. }
        destruct Hpr as [[Hlt Hall]|[Hg|(tid0 & t0 & Ht0 & Hs0 & Hh0)]].
        -- destruct (decide (cnt a + kSourcesPerBatchThread < (N.of_nat (length dump_files)))%N) as [Hlt'|Hge].
           ++ left. split; [done|]. by apply Forall_insert.
           ++ right; right. eexists tid, _.
              rewrite list_lookup_insert_eq by by eapply lookup_lt_Some.
              split; [done|]. split; [done|]. simpl.
              rewrite N.min_r in Hh by lia.
              rewrite Nat2N.id, firstn_all in Hh. done.
        -- by right; left.
        -- right; right. exact (Hkeep tid0 t0 Ht0 Hs0 Hh0).
  - (* the locked merge *)
    intros [= <-]. split; simpl.
    + by apply MergeGraphs_unique.
    + by apply Forall_insert.
    + destruct Hpr as [[_ Hall]|[Hg|(tid0 & t0 & Ht0 & Hs0 & Hh0)]].
      * pose proof (Forall_lookup_1 _ _ _ _ Hall Ht) as Hs. simpl in Hs. congruence.
      * right; left. eapply holds_dumps_mono; [|done]. apply MergeGraphs_covers_l.
      * destruct (decide (tid0 = tid)) as [->|Hne].
        -- right; left. rewrite Ht in Ht0. injection Ht0 as <-.
           eapply holds_dumps_mono; [|done]. apply MergeGraphs_covers_r.
        -- right; right. exists tid0, t0. by rewrite list_lookup_insert_ne.
  - intros [= <-]. rewrite list_insert_id by done. by destruct a.
Qed.

Lemma invariant_run a schedule a' :
  ((N.of_nat (length dump_files)) + kSourcesPerBatchThread <= size_t_modulus)%N →
  invariant world fmt exported_headers dump_files a →
  run_threads world fmt dump_files exported_headers a schedule = Some a' →
  invariant world fmt exported_headers dump_files a'.
Proof.
  intros Hfit. revert a. induction schedule as [|tid schedule IH]; intros a Hinv; simpl.
  { by intros [= <-]. }
  destruct (step _ _ _ _ _ _) as [a1|] eqn:Hstep; [|done].
  apply IH. by eapply invariant_step.
Qed.

Lemma step_length a tid a' :
  step world fmt dump_files exported_headers a tid = Some a' →
  length (threads a') = length (threads a).
Proof.
  unfold step. destruct (threads a !! tid) as [t|]; [|by intros [= <-]].
  destruct (thread_step _ _ _ _ _ _) as [[[c g] t']|]; [|done].
  intros [= <-]. simpl. by rewrite length_insert.
Qed.

Lemma run_threads_length a schedule a' :
  run_threads world fmt dump_files exported_headers a schedule = Some a' →
  length (threads a') = length (threads a).
Proof.
  revert a. induction schedule as [|tid schedule IH]; intros a; simpl.
  { by intros [= <-]. }
  destruct (step _ _ _ _ _ _) as [a1|] eqn:Hstep; [|done].
  intros ->%IH. by eapply step_length.
Qed.

Lemma all_finished_spec a :
  all_finished a = true ↔ Forall (λ t, status t = Finished) (threads a).
Proof.
  unfold all_finished. rewrite forallb_forall, Forall_forall.
  split; intros H t Ht.
  - apply list_elem_of_In, H in Ht. by apply bool_decide_eq_true in Ht.
  - apply bool_decide_eq_true, H. by apply list_elem_of_In.
Qed.

(** Once every thread is joined, the global reader holds the keys of all
    dumps, each once. *)
Lemma aggregate_complete (thread_count : nat) (schedule : list nat)
    (merged : Graph) :
  ((N.of_nat (length dump_files)) + kSourcesPerBatchThread <= size_t_modulus)%N →
  (0 < thread_count)%nat →
  aggregate world fmt dump_files exported_headers thread_count schedule
  = Returned merged →
  (∀ path dump c k,
     path ∈ dump_files →
     ReadDump world fmt exported_headers path = Some dump →
     k ∈ keys (dump c) →
     k ∈ keys (merged c))
  ∧ (∀ c, NoDup (keys (merged c))).
Proof.
  intros Hfit Hpos. unfold aggregate.
  destruct (run_threads _ _ _ _ _ _) as [a|] eqn:Hrun; [|done].
  destruct (all_finished a) eqn:Hfin; [|done]. intros [= <-].
  pose proof (invariant_run _ _ _ Hfit (invariant_start thread_count) Hrun)
    as [Hgu _ Hpr].
  apply all_finished_spec in Hfin.
  apply run_threads_length in Hrun. simpl in Hrun. rewrite length_replicate in Hrun.
  split; [|done].
  intros path dump c k Hin Hr Hk.
  destruct Hpr as [[_ Hall]|[Hg|(tid0 & t0 & Ht0 & Hs0 & _)]].
  - destruct (threads a) as [|t ts]; [simpl in Hrun; lia|].
    apply Forall_cons in Hall as [H1 _]. apply Forall_cons in Hfin as [H2 _].
    congruence.
  - by eapply Hg.
  - pose proof (Forall_lookup_1 _ _ _ _ Hfin Ht0). done.
Qed.

(** *** Every fair schedule lets the aggregation finish *)

Lemma sum_list_insert (f : Thread → nat) (l : list Thread) i x y :
  l !! i = Some x →
  sum_list (f <$> <[i:=y]> l) + f x = sum_list (f <$> l) + f y.
Proof.
  revert i. induction l as [|z l IH]; intros [|i]; simpl; try done.
  - intros [= ->]. lia.
  - intros Hi. specialize (IH _ Hi). unfold fmap in IH. lia.
Qed.

Lemma sum_looping_le (l : list Thread) : sum_list (looping <$> l) ≤ length l.
Proof.
  induction l as [|t l IH]; simpl; [done|].
  unfold fmap in IH. unfold looping at 1. destruct (status t); lia.
Qed.

Lemma read_and_merge_readable range local :
  (∀ path, path ∈ range → is_Some (ReadDump world fmt exported_headers path)) →
  is_Some (read_and_merge world fmt exported_headers range local).
Proof.
  revert local. induction range as [|path range IH]; intros local Hr; simpl; [done|].
  destruct (Hr path) as [reader ->]; [by left|].
  apply IH. intros path' Hin. apply Hr. by right.
Qed.

Lemma step_progress a tid :
  ((N.of_nat (length dump_files)) + 7 + 7 * N.of_nat (length (threads a)) <= size_t_modulus)%N →
  all_readable world fmt exported_headers dump_files →
  counter_bounded dump_files a →
  ∃ a', step world fmt dump_files exported_headers a tid = Some a'
        ∧ counter_bounded dump_files a'
        ∧ length (threads a') = length (threads a)
        ∧ measure dump_files a' ≤ measure dump_files a
        ∧ (∀ tid', tid' ≠ tid → threads a' !! tid' = threads a !! tid')
        ∧ (∀ t, threads a !! tid = Some t → status t ≠ Finished →
             measure dump_files a' < measure dump_files a)
        ∧ (Forall (λ t, status t = Finished) (threads a) →
           Forall (λ t, status t = Finished) (threads a')).
Proof.
  intros Hfit Hread Hb. unfold step.
  destruct (threads a !! tid) as [t|] eqn:Ht.
  2:{ exists a. repeat split; try done. }
  pose proof (sum_looping_le (threads a)) as Hle.
  unfold thread_step. destruct (status t) eqn:Hst.
  - assert (Hloop : 1 ≤ sum_list (looping <$> threads a)).
    { pose proof (sum_list_insert looping _ _ _ t Ht) as HH.
      rewrite list_insert_id in HH by done. 
      clear -Ht Hst. revert tid Ht. induction (threads a) as [|z l IH]; intros [|i]; simpl; try done.
      - intros [= ->]. unfold looping at 1. rewrite Hst. lia.
      - intros Hi. specialize (IH _ Hi). unfold fmap in IH. lia. }
    assert (Hadd : size_t_add (cnt a) kSourcesPerBatchThread = (cnt a + 7)%N).
    { unfold size_t_add, kSourcesPerBatchThread. apply N.mod_small.
      unfold counter_bounded in Hb. lia. }
    rewrite Hadd.
    destruct ((N.of_nat (length dump_files)) <=? cnt a)%N eqn:Hcmp.
    + apply N.leb_le in Hcmp. eexists. split; [done|]. simpl.
      set (t' := {| local_reader := local_reader t; status := AtLock;
                    claimed := claimed t; decoded := decoded t |}).
      pose proof (sum_list_insert looping _ _ _ t' Ht) as HL.
      pose proof (sum_list_insert weight _ _ _ t' Ht) as HW.
      unfold looping at 2 4 in HL. unfold weight at 2 4 in HW.
      rewrite Hst in HL, HW. simpl in HL, HW.
      unfold counter_bounded, measure in *. simpl. rewrite length_insert.
      split; [lia|]. split; [done|]. split; [lia|].
      split; [intros tid' Hne; by rewrite list_lookup_insert_ne|].
      split; [intros; lia|].
      intros Hall. pose proof (Forall_lookup_1 _ _ _ _ Hall Ht) as Hs. simpl in Hs. congruence.
    + apply N.leb_gt in Hcmp.
      destruct (read_and_merge_readable
                  (take (N.to_nat (N.min (cnt a + 7) (N.of_nat (length dump_files)))) dump_files)
                  (local_reader t)) as [local' Hrm].
      { intros path Hin. apply Hread. by eapply subseteq_take. }
      rewrite Hrm. eexists. split; [done|]. simpl.
      set (t' := {| local_reader := local'; status := InLoop;
                    claimed := claimed t ++ [cnt a];
                    decoded := decoded t ++ _ |}).
      pose proof (sum_list_insert looping _ _ _ t' Ht) as HL.
      pose proof (sum_list_insert weight _ _ _ t' Ht) as HW.
      unfold looping at 2 4 in HL. unfold weight at 2 4 in HW.
      rewrite Hst in HL, HW. simpl in HL, HW.
      unfold counter_bounded, measure in *. simpl. rewrite length_insert.
      split; [lia|]. split; [done|]. split; [lia|].
      split; [intros tid' Hne; by rewrite list_lookup_insert_ne|].
      split; [intros; lia|].
      intros Hall. pose proof (Forall_lookup_1 _ _ _ _ Hall Ht) as Hs. simpl in Hs. congruence.
  - eexists. split; [done|]. simpl.
    set (t' := {| local_reader := local_reader t; status := Finished;
                  claimed := claimed t; decoded := decoded t |}).
    pose proof (sum_list_insert looping _ _ _ t' Ht) as HL.
    pose proof (sum_list_insert weight _ _ _ t' Ht) as HW.
    unfold looping at 2 4 in HL. unfold weight at 2 4 in HW.
    rewrite Hst in HL, HW. simpl in HL, HW.
    unfold counter_bounded, measure in *. simpl. rewrite length_insert.
    split; [lia|]. split; [done|]. split; [lia|].
    split; [intros tid' Hne; by rewrite list_lookup_insert_ne|].
    split; [intros; lia|].
    intros Hall. by apply Forall_insert.
  - eexists. split; [done|]. simpl. rewrite list_insert_id by done.
    unfold counter_bounded, measure in *. simpl.
    repeat split; try done. intros t0 [= <-] Hs. congruence.
Qed.

Lemma run_threads_app a s1 s2 :
  run_threads world fmt dump_files exported_headers a (s1 ++ s2)
  = match run_threads world fmt dump_files exported_headers a s1 with
    | Some a1 => run_threads world fmt dump_files exported_headers a1 s2
    | None => None
    end.
Proof.
  revert a. induction s1 as [|tid s1 IH]; intros a; simpl; [done|].
  by destruct (step _ _ _ _ _ _).
Qed.

Lemma run_progress a schedule :
  ((N.of_nat (length dump_files)) + 7 + 7 * N.of_nat (length (threads a)) <= size_t_modulus)%N →
  all_readable world fmt exported_headers dump_files →
  counter_bounded dump_files a →
  ∃ a', run_threads world fmt dump_files exported_headers a schedule = Some a'
        ∧ counter_bounded dump_files a'
        ∧ length (threads a') = length (threads a)
        ∧ measure dump_files a' ≤ measure dump_files a
        ∧ (∀ tid t, tid ∈ schedule → threads a !! tid = Some t →
             status t ≠ Finished → measure dump_files a' < measure dump_files a)
        ∧ (Forall (λ t, status t = Finished) (threads a) →
           Forall (λ t, status t = Finished) (threads a')).
Proof.
  intros Hfit Hread. revert a Hfit.
  induction schedule as [|tid schedule IH]; intros a Hfit Hb; simpl.
  { exists a. repeat split; try done. by intros ?? ?%elem_of_nil. }
  destruct (step_progress a tid Hfit Hread Hb)
    as (a1 & -> & Hb1 & Hlen1 & Hm1 & Hother & Hdec & Hfin1).
  destruct (IH a1) as (a' & Hrun & Hb' & Hlen' & Hm' & Hdec' & Hfin');
    [by rewrite Hlen1|done|].
  exists a'. split; [done|]. split; [done|]. split; [congruence|].
  split; [lia|]. split; [|by intros ?%Hfin1%Hfin'].
  intros tid0 t0 Hin Ht0 Hs0.
  destruct (decide (tid0 = tid)) as [->|Hne].
  - specialize (Hdec _ Ht0 Hs0). lia.
  - apply elem_of_cons in Hin as [?|Hin]; [done|].
    rewrite <- (Hother _ Hne) in Ht0. specialize (Hdec' _ _ Hin Ht0 Hs0). lia.
Qed.

Lemma rounds_progress a rounds :
  ((N.of_nat (length dump_files)) + 7 + 7 * N.of_nat (length (threads a)) <= size_t_modulus)%N →
  all_readable world fmt exported_headers dump_files →
  counter_bounded dump_files a →
  Forall (is_round (length (threads a))) rounds →
  ∃ a', run_threads world fmt dump_files exported_headers a (concat rounds) = Some a'
        ∧ (Forall (λ t, status t = Finished) (threads a')
           ∨ measure dump_files a' + length rounds ≤ measure dump_files a).
Proof.
  intros Hfit Hread. revert a Hfit.
  induction rounds as [|round rounds IH]; intros a Hfit Hb Hrounds; simpl.
  { exists a. split; [done|]. right. lia. }
  apply Forall_cons in Hrounds as [Hround Hrounds].
  destruct (run_progress a round Hfit Hread Hb)
    as (a1 & Hrun1 & Hb1 & Hlen1 & Hm1 & Hdec & Hfin1).
  rewrite run_threads_app, Hrun1.
  destruct (run_progress a1 (concat rounds)) as (a2 & Hrun2 & _ & _ & _ & _ & Hfin2);
    [by rewrite Hlen1|done..|].
  destruct (IH a1) as (a' & Hrun & Hres); [by rewrite Hlen1|done|by rewrite Hlen1|].
  exists a'. split; [done|].
  destruct (decide (Forall (λ t, status t = Finished) (threads a))) as [Hall|Hnot].
  - left. rewrite Hrun in Hrun2. injection Hrun2 as ->. by apply Hfin2, Hfin1.
  - destruct Hres as [?|Hres]; [by left|]. right.
    apply not_Forall_Exists in Hnot; [|intros t; apply _].
    apply Exists_exists in Hnot as (t & Hin & Hs).
    apply list_elem_of_lookup in Hin as [tid Ht].
    assert (tid ∈ round) as Hr by (apply Hround; by eapply lookup_lt_Some).
    specialize (Hdec _ _ Hr Ht Hs). lia.
Qed.

(** Whatever the schedule, if it is made of enough rounds and every dump can
    be read, all threads finish and the aggregation returns its graph. *)
Lemma aggregate_returns (thread_count : nat) (rounds : list (list nat)) :
  ((N.of_nat (length dump_files)) + 7 + 7 * N.of_nat thread_count <= size_t_modulus)%N →
  all_readable world fmt exported_headers dump_files →
  Forall (is_round thread_count) rounds →
  length dump_files + 2 * thread_count < length rounds →
  ∃ merged,
    aggregate world fmt dump_files exported_headers thread_count (concat rounds)
    = Returned merged.
Proof.
  intros Hfit Hread Hrounds Hlen. unfold aggregate.
  destruct (rounds_progress (start_aggregation thread_count) rounds)
    as (a' & -> & Hres).
  - simpl. by rewrite length_replicate.
  - done.
  - unfold counter_bounded. simpl. rewrite length_replicate.
    pose proof (sum_looping_le (replicate thread_count new_Thread)) as Hle.
    rewrite length_replicate in Hle. lia.
  - simpl. by rewrite length_replicate.
  - destruct Hres as [Hall|Hm].
    + apply all_finished_spec in Hall. rewrite Hall. by eexists.
    + exfalso. unfold measure in Hm. simpl in Hm.
      assert (sum_list (weight <$> replicate thread_count new_Thread) = 2 * thread_count) as Hw.
      { clear. induction thread_count as [|n IH]; simpl; [done|].
        unfold fmap in IH. rewrite IH. unfold weight. simpl. lia. }
      rewrite Hw in Hm. lia.
Qed.

(** Claim C1.  Take any list of dump files, any number of aggregation
    threads (at least the calling one) and room for the counter in a
    [size_t].  If every dump can be read, the aggregation returns a merged
    graph under every schedule made of enough rounds in which each thread
    gets a step.  And under any schedule whatever, the graph it returns
    holds, category by category, every key of every dump, and no key
    twice. *)
Theorem union_completeness (thread_count : nat) :
  ((N.of_nat (length dump_files)) + 7 + 7 * N.of_nat thread_count
   <= size_t_modulus)%N →
  0 < thread_count →
  (all_readable world fmt exported_headers dump_files →
   ∀ rounds,
     Forall (is_round thread_count) rounds →
     length dump_files + 2 * thread_count < length rounds →
     ∃ merged,
       aggregate world fmt dump_files exported_headers thread_count
         (concat rounds)
       = Returned merged)
  ∧ (∀ schedule merged,
       aggregate world fmt dump_files exported_headers thread_count schedule
       = Returned merged →
       (∀ path dump c k,
          path ∈ dump_files →
          ReadDump world fmt exported_headers path = Some dump →
          k ∈ keys (dump c) →
          k ∈ keys (merged c))
       ∧ (∀ c, NoDup (keys (merged c)))).
Proof.
  intros Hfit Hpos. split.
  - intros Hread rounds Hrounds Hlen. by apply aggregate_returns.
  - intros schedule merged Hagg.
    apply (aggregate_complete thread_count schedule); [|done..].
    unfold kSourcesPerBatchThread. lia.
Qed.

(** What a thread decodes when the offset it obtains is in range: the dump
    files from the first one up to the end of the batch. *)
Lemma thread_step_decodes_prefix (c : N) (g : Graph) (t : Thread)
    (c' : N) (g' : Graph) (t' : Thread) :
  status t = InLoop →
  (c < (N.of_nat (length dump_files)))%N →
  ((N.of_nat (length dump_files)) + 7 <= size_t_modulus)%N →
  thread_step world fmt dump_files exported_headers c g t = Some (c', g', t') →
  claimed t' = claimed t ++ [c]
  ∧ decoded t'
    = decoded t
      ++ take (N.to_nat (N.min (c + 7) (N.of_nat (length dump_files)))) dump_files.
Proof.
  intros Hst Hc Hfit. unfold thread_step. rewrite Hst.
  apply N.leb_gt in Hc as Hc'. rewrite Hc'.
  rewrite size_t_add_small by done.
  destruct (read_and_merge _ _ _ _ _); [|done].
  by intros [= <- <- <-].
Qed.

End Aggregation.

(** Claim C1 at work: three dumps, the calling thread alone, six rounds. *)
Lemma union_completeness_witness :
  ∃ merged,
    aggregate Scenario.world Json ["a.dump"; "b.dump"; "c.dump"] ∅ 1
      (concat (replicate 6 [0]))
    = Returned merged
    ∧ "f1" ∈ keys (merged Functions)
    ∧ NoDup (keys (merged Functions)).
Proof.
  destruct (union_completeness Scenario.world Json
              ["a.dump"; "b.dump"; "c.dump"] ∅ 1) as [Hreturns Hholds].
  - vm_compute. discriminate.
  - lia.
  - destruct (Hreturns (λ path _, ex_intro _ (Scenario.dump_of path) eq_refl)
                (replicate 6 [0])) as [merged Hmerged].
    + apply Forall_replicate. intros tid Htid.
      replace tid with 0 by lia. left.
    + simpl. lia.
    + exists merged. split; [exact Hmerged|].
      destruct (Hholds _ _ Hmerged) as [Hkeys Hnodup].
      split; [|apply Hnodup].
      apply (Hkeys "a.dump" (Scenario.dump_of "a.dump")); [left|reflexivity|left].
Defined.

(** Claim C2 fails on the code.  Fourteen dump files make two threads.
    Thread 0 obtains offset 0 and decodes the first seven files; thread 1
    obtains offset 7, whose batch is the last seven files, and decodes all
    fourteen, the seven of the batch it did not claim included. *)
Theorem second_batch_decodes_first_batch_again :
  thread_count Scenario.world Scenario.fourteen = 2
  ∧ (λ a, (claimed <$> threads a, decoded <$> threads a))
      <$> run_threads Scenario.world Json Scenario.fourteen ∅
            (start_aggregation 2) [0; 1]
    = Some ([[0%N]; [7%N]], [take 7 Scenario.fourteen; Scenario.fourteen])
  ∧ batch Scenario.fourteen 7 = drop 7 Scenario.fourteen
  ∧ batch Scenario.fourteen 7 ≠ Scenario.fourteen.
Proof.
  split; [reflexivity|]. split; [vm_compute; reflexivity|].
  split; [reflexivity|]. vm_compute. discriminate.
Qed.

(** Claim C9 fails on the code.  When the dumper refuses the exported-symbol
    record of [f1], [AddElfSymbols] returns [false], nobody reads that value,
    and the run goes on to return 0 with no diagnostic and a dump that holds
    no symbol record.  When the dumper refuses a declaration, the run does
    stop and return -1. *)
Theorem refused_elf_symbol_goes_unreported :
  (AddElfSymbols Scenario.world_refusing_elf_symbols
     (set_this (Scenario.linker_with_exports regex_default) new_Process)).1
  = false
  ∧ (main Scenario.world_refusing_elf_symbols Scenario.with_so).1 = Returned 0%Z
  ∧ errs (main Scenario.world_refusing_elf_symbols Scenario.with_so).2 = []
  ∧ ir_dumper (main Scenario.world_refusing_elf_symbols Scenario.with_so).2
    = {| elf_symbols := [];
         linkable_messages := [Scenario.decl "include/api.h" "int f1()"];
         dumped := true |}
  ∧ (main Scenario.world_refusing_declarations Scenario.with_so).1
    = Returned (-1)%Z
  ∧ errs (main Scenario.world_refusing_declarations Scenario.with_so).2
    = ["Failed to add element to linked dump"; "Failed to link elements";
       "Failed to link and dump elements"].
Proof. vm_compute. repeat split. Qed.

(* ===================================================================== *)
(** ** Further properties: writing to the dumper *)
(* ===================================================================== *)

Section Dumper.

Context (world : World).

(** The loop of [::AddElfSymbols] writes the symbols in order and stops at
    the first one the dumper refuses. *)
Lemma AddElfSymbols_loop_spec dst symbols :
  ∃ written,
    elf_symbols (AddElfSymbols_loop world dst symbols).2
    = elf_symbols dst ++ written
    ∧ linkable_messages (AddElfSymbols_loop world dst symbols).2
      = linkable_messages dst
    ∧ dumped (AddElfSymbols_loop world dst symbols).2 = dumped dst
    ∧ if (AddElfSymbols_loop world dst symbols).1 then written = symbols
      else ∃ refused rest,
             symbols = written ++ refused :: rest
             ∧ AddElfSymbolMessageIR_ok world
                 (AddElfSymbols_loop world dst symbols).2 refused = false.
Proof.
  revert dst. induction symbols as [|s symbols IH]; intros dst.
  { exists []. simpl. by rewrite app_nil_r. }
  cbn [AddElfSymbols_loop]. unfold AddElfSymbolMessageIR.
  destruct (AddElfSymbolMessageIR_ok world dst s) eqn:Hok; cbn [negb].
  - destruct (IH {| elf_symbols := elf_symbols dst ++ [s];
                    linkable_messages := linkable_messages dst;
                    dumped := dumped dst |})
      as (written & E1 & E2 & E3 & E4).
    exists (s :: written). rewrite E1, E2, E3. cbn.
    split; [by rewrite <- app_assoc|]. split; [done|]. split; [done|].
    destruct (AddElfSymbols_loop _ _ _).1.
    + by rewrite E4.
    + destruct E4 as (refused & rest & -> & Hr). by exists refused, rest.
  - exists []. cbn. rewrite app_nil_r. repeat split. by exists s, symbols.
Qed.

(** What [HeaderAbiLinker::AddElfSymbols] writes and what it leaves alone. *)
Lemma AddElfSymbols_spec (p : Process) :
  let r := AddElfSymbols world p in
  this r.2 = this p
  ∧ errs r.2 = errs p
  ∧ linkable_messages (ir_dumper r.2) = linkable_messages (ir_dumper p)
  ∧ dumped (ir_dumper r.2) = dumped (ir_dumper p)
  ∧ ∃ fs gs,
      elf_symbols (ir_dumper r.2) = elf_symbols (ir_dumper p) ++ fs ++ gs
      ∧ fs `prefix_of` function_symbols (this p)
      ∧ gs `prefix_of` globvar_symbols (this p)
      ∧ (fs ≠ function_symbols (this p) → gs = [])
      ∧ (r.1 = true ↔ fs = function_symbols (this p)
                       ∧ gs = globvar_symbols (this p)).
Proof.
  cbn zeta. unfold AddElfSymbols, AddElfSymbols_map.
  fold (function_symbols (this p)). fold (globvar_symbols (this p)).
  destruct (AddElfSymbols_loop_spec (ir_dumper p) (function_symbols (this p)))
    as (fs & F1 & F2 & F3 & F4).
  destruct (AddElfSymbols_loop world (ir_dumper p) (function_symbols (this p)))
    as [ok d] eqn:Hf. cbn [fst snd] in *.
  destruct ok.
  - subst fs.
    destruct (AddElfSymbols_loop_spec d (globvar_symbols (this p)))
      as (gs & G1 & G2 & G3 & G4).
    destruct (AddElfSymbols_loop world d (globvar_symbols (this p)))
      as [ok' d'] eqn:Hg. cbn [fst snd] in *.
    repeat split; cbn; try congruence.
    exists (function_symbols (this p)), gs.
    split; [by rewrite G1, F1, <- app_assoc|]. split; [done|].
    split.
    { destruct ok'; [by subst gs|].
      destruct G4 as (refused & rest & -> & _). by eexists. }
    split; [done|].
    destruct ok'.
    + by subst gs.
    + split; [done|]. intros [_ E]. destruct G4 as (refused & rest & E' & _).
      rewrite E' in E. apply (f_equal length) in E.
      rewrite length_app in E. simpl in E. lia.
  - repeat split; cbn; try congruence.
    destruct F4 as (refused & rest & E & _).
    exists fs, []. rewrite app_nil_r.
    split; [done|]. split; [rewrite E; by eexists|].
    split; [by apply prefix_nil|]. split; [done|].
    split; [done|]. intros [E' _]. rewrite E' in E.
    apply (f_equal length) in E. rewrite length_app in E. simpl in E. lia.
Qed.


(** What a call of [LinkDecl] does besides forwarding: it leaves the symbol
    records and the dump flag alone, and prints its diagnostic exactly when
    it returns [false]. *)
Lemma LinkDecl_errs src (f : SymbolFilter) (p : Process) :
  errs (LinkDecl world src f p).2
  = errs p ++ (if (LinkDecl world src f p).1 then []
               else ["Failed to add element to linked dump"])
  ∧ elf_symbols (ir_dumper (LinkDecl world src f p).2) = elf_symbols (ir_dumper p)
  ∧ dumped (ir_dumper (LinkDecl world src f p).2) = dumped (ir_dumper p).
Proof.
  revert p. induction src as [|[k d] rest IH]; intros p; cbn [LinkDecl].
  { cbn. by rewrite app_nil_r. }
  destruct (in_exported_headers _ _); cbn [negb]; [|apply IH].
  destruct (f k (this p)) as [keep l'].
  destruct keep; cbn [negb]; [|apply (IH (set_this l' p))].
  unfold AddLinkableMessageIR. cbn [ir_dumper set_this].
  destruct (AddLinkableMessageIR_ok world (ir_dumper p) d); cbn [negb].
  - exact (IH (set_ir_dumper
                 {| elf_symbols := elf_symbols (ir_dumper p);
                    linkable_messages := linkable_messages (ir_dumper p) ++ [d];
                    dumped := dumped (ir_dumper p) |} (set_this l' p))).
  - done.
Qed.

(** Extra X2.  [LinkDecl] returns [false] only when the dumper refuses an
    element of the map: the element passed the header test, the dumper in
    the state the call leaves it in refuses it, and the call has printed its
    one diagnostic.  With a dumper that accepts everything it returns
    [true] and prints nothing. *)
Theorem LinkDecl_fails_only_on_refusal src (c : Category) (p : Process) :
  let r := LinkDecl world src (linker_filter c) p in
  (r.1 = false →
   errs r.2 = errs p ++ ["Failed to add element to linked dump"]
   ∧ ∃ k d, (k, d) ∈ src
            ∧ in_exported_headers (exported_headers_ (this p)) (GetSourceFile d)
              = true
            ∧ AddLinkableMessageIR_ok world (ir_dumper r.2) d = false)
  ∧ (r.1 = true → errs r.2 = errs p)
  ∧ ((∀ dst e, AddLinkableMessageIR_ok world dst e = true) → r.1 = true).
Proof.
  cbn zeta. split; [|split].
  - intros Hfalse. destruct (LinkDecl_errs src (linker_filter c) p) as [E _].
    rewrite Hfalse in E. split; [done|]. clear E.
    revert p Hfalse. induction src as [|[k d] rest IH]; intros p; cbn [LinkDecl].
    { done. }
    destruct (in_exported_headers (exported_headers_ (this p)) (GetSourceFile d))
      eqn:Hh; cbn [negb].
    2:{ intros (k'&d'&?&?&?)%IH. exists k', d'. split; [by right|done]. }
    pose proof (linker_filter_same_config c k (this p)) as Hcfg.
    destruct (linker_filter c k (this p)) as [keep l']. cbn [snd] in Hcfg.
    assert (Hexp : exported_headers_ l' = exported_headers_ (this p))
      by by destruct Hcfg.
    destruct keep; cbn [negb].
    2:{ intros (k'&d'&?&Hh'&?)%IH. exists k', d'. split; [by right|].
        cbn in Hh'. by rewrite Hexp in Hh'. }
    unfold AddLinkableMessageIR. cbn [ir_dumper set_this].
    destruct (AddLinkableMessageIR_ok world (ir_dumper p) d) eqn:Hok; cbn [negb].
    + intros (k'&d'&?&Hh'&?)%IH. exists k', d'. split; [by right|].
      cbn in Hh'. by rewrite Hexp in Hh'.
    + intros _. exists k, d. split; [by left|]. split; [done|]. by cbn.
  - intros Htrue. destruct (LinkDecl_errs src (linker_filter c) p) as [E _].
    rewrite Htrue in E. by rewrite app_nil_r in E.
  - intros Hall. revert p. induction src as [|[k d] rest IH]; intros p;
      cbn [LinkDecl]; [done|].
    destruct (in_exported_headers _ _); cbn [negb]; [|apply IH].
    destruct (linker_filter c k (this p)) as [keep l'].
    destruct keep; cbn [negb]; [|apply IH].
    unfold AddLinkableMessageIR. rewrite Hall. cbn [negb]. apply IH.
Qed.

End Dumper.

(* ===================================================================== *)
(** ** Further properties: linking and whole runs *)
(* ===================================================================== *)

Section Runs.

Context (world : World).

Lemma with_linkable_messages_nil p : with_linkable_messages [] p = p.
Proof.
  destruct p as [l [es ms dm] e]. unfold with_linkable_messages, set_ir_dumper.
  cbn. by rewrite app_nil_r.
Qed.

Lemma with_linkable_messages_app ms1 ms2 p :
  with_linkable_messages ms2 (with_linkable_messages ms1 p)
  = with_linkable_messages (ms1 ++ ms2) p.
Proof.
  unfold with_linkable_messages, set_ir_dumper. cbn. by rewrite app_assoc.
Qed.

(** With a dumper that accepts everything, linking a type category appends
    the entries that pass the header test, and changes nothing else. *)
Lemma LinkDecl_no_filter src p :
  (∀ dst e, AddLinkableMessageIR_ok world dst e = true) →
  LinkDecl world src no_filter_lambda p
  = (true,
     with_linkable_messages
       (passing_headers (exported_headers_ (this p)) src).*2 p).
Proof.
  intros Hall. revert p. induction src as [|[k d] rest IH]; intros p.
  { cbn. by rewrite with_linkable_messages_nil. }
  cbn [LinkDecl passing_headers List.filter snd].
  destruct (in_exported_headers (exported_headers_ (this p)) (GetSourceFile d));
    cbn [negb]; [|apply IH].
  unfold no_filter_lambda at 1. cbn [negb]. unfold AddLinkableMessageIR.
  rewrite Hall. cbn [negb]. rewrite IH.
  destruct p as [l [es ms dm] e].
  unfold with_linkable_messages, set_ir_dumper, set_this, passing_headers.
  cbn. by rewrite <- app_assoc.
Qed.

Lemma and_then_true q f : and_then (true, q) f = f q.
Proof. done. Qed.

(** Extra X3.  With a dumper that accepts everything, [LinkTypes] succeeds
    and appends to the dump, for the nine type categories in its fixed order
    (records first, qualified types last), the entries that pass the header
    test; functions and global variables are not forwarded by it, and the
    linker object and the diagnostics are left as they were. *)
Theorem LinkTypes_forwards_types_in_order (reader : Graph) (p : Process) :
  (∀ dst e, AddLinkableMessageIR_ok world dst e = true) →
  LinkTypes world reader p
  = (true,
     with_linkable_messages
       (flat_map
          (λ c, (passing_headers (exported_headers_ (this p)) (reader c)).*2)
          type_categories) p).
Proof.
  intros Hall. unfold LinkTypes.
  repeat (rewrite LinkDecl_no_filter by done;
          rewrite ?and_then_true;
          cbn [this with_linkable_messages set_ir_dumper]).
  fold (with_linkable_messages
          (passing_headers (exported_headers_ (this p)) (reader RecordTypes)).*2 p).
  rewrite !with_linkable_messages_app. cbn [flat_map type_categories].
  by rewrite app_nil_r, <- ?app_assoc.
Qed.

Lemma prints_on_failure_LinkDecl c src p :
  prints_on_failure p (LinkDecl world src (linker_filter c) p).
Proof.
  destruct (LinkDecl_errs world src (linker_filter c) p) as (E1 & E2 & E3).
  split; [done|]. split; [done|]. split; [done|]. apply LinkDecl_same_config.
Qed.

Lemma prints_on_failure_and_then p r f :
  prints_on_failure p r →
  (∀ q, prints_on_failure q (f q)) →
  prints_on_failure p (and_then r f).
Proof.
  intros (E1 & E2 & E3 & E4) Hf. unfold and_then.
  destruct r as [[] q]; cbn [fst snd] in *; [|done].
  destruct (Hf q) as (F1 & F2 & F3 & F4).
  rewrite app_nil_r in E1.
  split; [by rewrite F1, E1|]. split; [congruence|]. split; [congruence|].
  by eapply same_config_trans.
Qed.

Lemma prints_on_failure_LinkTypes reader p :
  prints_on_failure p (LinkTypes world reader p).
Proof.
  unfold LinkTypes.
  repeat (apply prints_on_failure_and_then;
          [|intros q; apply (prints_on_failure_LinkDecl RecordTypes)]).
  apply (prints_on_failure_LinkDecl RecordTypes).
Qed.

Lemma prints_on_failure_link_all reader p :
  prints_on_failure p (link_all world reader p).
Proof.
  unfold link_all.
  apply prints_on_failure_and_then;
    [|intros q; apply (prints_on_failure_LinkDecl GlobalVariables)].
  apply prints_on_failure_and_then;
    [|intros q; apply (prints_on_failure_LinkDecl Functions)].
  apply prints_on_failure_LinkTypes.
Qed.

Lemma Dump_spec dst :
  elf_symbols (Dump world dst).2 = elf_symbols dst
  ∧ linkable_messages (Dump world dst).2 = linkable_messages dst
  ∧ dumped (Dump world dst).2 = ((Dump world dst).1 || dumped dst).
Proof. unfold Dump. by destruct (Dump_ok world dst). Qed.

(** [LinkAndDump] from the creation of the dumper on: what each way of
    ending leaves behind. *)
Lemma link_and_dump_body_outcome cl p :
  let r := link_and_dump_body world cl p in
  let written := (AddElfSymbols world (set_ir_dumper CreateIRDumper p)).2 in
  same_config (this p) (this r.2)
  ∧ elf_symbols (ir_dumper r.2) = elf_symbols (ir_dumper written)
  ∧ match r.1 with
    | Returned true => errs r.2 = errs p ∧ dumped (ir_dumper r.2) = true
    | Returned false =>
        dumped (ir_dumper r.2) = false
        ∧ ∃ lines, errs r.2 = errs p ++ lines ∧ lines ≠ []
    | Exited code =>
        code = 1%Z ∧ errs r.2 = errs p ++ ["ReadDump failed"]
        ∧ dumped (ir_dumper r.2) = false
    | RegexError => False
    | NotJoined => errs r.2 = errs p ∧ dumped (ir_dumper r.2) = false
    end.
Proof.
  cbn zeta. unfold link_and_dump_body.
  destruct (AddElfSymbols_spec world (set_ir_dumper CreateIRDumper p))
    as (A1 & A2 & A3 & A4 & _). cbn zeta in *.
  set (p1 := (AddElfSymbols world (set_ir_dumper CreateIRDumper p)).2) in *.
  cbn [this errs ir_dumper set_ir_dumper dumped CreateIRDumper] in A1, A2, A4.
  unfold aggregate.
  destruct (run_threads _ _ _ _ _ _) as [a|];
    cbn [fst snd this errs ir_dumper print_err].
  2:{ rewrite A1, A2, A4. split; [apply same_config_refl|]. done. }
  destruct (all_finished a); cbn [fst snd this errs ir_dumper print_err].
  2:{ rewrite A1, A2, A4. split; [apply same_config_refl|]. done. }
  fold (link_all world (greader a) p1).
  destruct (prints_on_failure_link_all (greader a) p1) as (L1 & L2 & L3 & L4).
  destruct (link_all world (greader a) p1) as [ok p2]. cbn [fst snd] in *.
  rewrite A1 in L4.
  destruct ok; cbn [negb fst snd].
  - destruct (Dump_spec (ir_dumper p2)) as (D1 & D2 & D3).
    destruct (Dump world (ir_dumper p2)) as [ok d]. cbn [fst snd] in *.
    rewrite app_nil_r in L1.
    destruct ok; cbn [negb fst snd this ir_dumper set_ir_dumper errs print_err].
    + split; [done|]. split; [congruence|]. split; [congruence|done].
    + split; [done|]. split; [done|]. split; [congruence|].
      exists ["Serialization to ostream failed"]. split; [congruence|done].
  - cbn [this ir_dumper errs print_err].
    split; [done|]. split; [done|]. split; [congruence|].
    exists ["Failed to add element to linked dump"; "Failed to link elements"].
    split; [|done]. rewrite L1, A2. by rewrite <- app_assoc.
Qed.







(** Extra X6.  When the exported symbols cannot be resolved, [main] returns
    -1 after three diagnostics and the dumper has received nothing: in binary
    mode when the shared object cannot be opened as an object file with a
    parser, in version-script mode when the version script does not
    parse. *)
Theorem unresolved_exports_stop_the_run (cl : CommandLine) :
  (so_file cl ≠ "" →
   is_so_symbols (createBinary world (so_file cl)) = false →
   (main world cl).1 = Returned (-1)%Z
   ∧ errs (main world cl).2
     = [so_file_diagnostic (createBinary world (so_file cl));
        "Couldn't parse so file"; "Failed to link and dump elements"]
   ∧ ir_dumper (main world cl).2 = CreateIRDumper)
  ∧ (so_file cl = "" → version_script cl ≠ "" →
     VersionScriptParser_Parse world (version_script cl) (arch cl) (api cl) = None →
     (main world cl).1 = Returned (-1)%Z
     ∧ errs (main world cl).2
       = ["Failed to parse version script";
          "Failed to parse stub files for exported symbols";
          "Failed to link and dump elements"]
     ∧ ir_dumper (main world cl).2 = CreateIRDumper).
Proof.
  split.
  - intros Hso%String.eqb_neq Hfail. unfold main. rewrite Hso. cbn [andb].
    set (cl' := if no_filter cl then clear_exported_header_dirs cl else cl).
    assert (Hso' : so_file cl' = so_file cl) by (unfold cl'; by destruct (no_filter cl)).
    unfold LinkAndDump, ParseSoFile. rewrite Hso', Hso. cbn [negb].
    by destruct (createBinary world (so_file cl)).
  - intros Hso Hv%String.eqb_neq Hparse. unfold main. rewrite Hso, Hv. cbn [String.eqb andb].
    set (cl' := if no_filter cl then clear_exported_header_dirs cl else cl).
    assert (so_file cl' = "" ∧ version_script cl' = version_script cl
            ∧ arch cl' = arch cl ∧ api cl' = api cl) as (E1 & E2 & E3 & E4)
      by (unfold cl'; by destruct (no_filter cl)).
    unfold LinkAndDump, ParseVersionScriptFiles. rewrite E1, E2, E3, E4, Hparse.
    done.
Qed.

(** Extra X7.  With [-no-filter] the [-I] directories play no part: the run
    is the same whatever they are. *)
Theorem no_filter_ignores_exported_header_dirs (cl : CommandLine)
    (dirs : list string) :
  no_filter cl = true →
  main world (with_exported_header_dirs dirs cl) = main world cl.
Proof.
  destruct cl as [df ld dirs0 vs ap ar nf so fi fo]. cbn [no_filter].
  intros ->. reflexivity.
Qed.

(** *** The matched sets *)

Lemma linker_filter_default_regex c k l :
  functions_vs_regex_ l = regex_default →
  globvars_vs_regex_ l = regex_default →
  (linker_filter c k l).2 = l.
Proof.
  intros Hf Hg. destruct l as [h fm gm fs fr gs gr]. cbn in Hf, Hg. subst fr gr.
  destruct c; cbn; try done.
  - unfold functions_symbol_filter. case_bool_decide; [done|].
    unfold QueryRegexMatches. cbn. by case_bool_decide.
  - unfold globvars_symbol_filter. case_bool_decide; [done|].
    unfold QueryRegexMatches. cbn. by case_bool_decide.
Qed.

Lemma LinkDecl_default_regex c src p :
  functions_vs_regex_ (this p) = regex_default →
  globvars_vs_regex_ (this p) = regex_default →
  this (LinkDecl world src (linker_filter c) p).2 = this p.
Proof.
  intros Hf Hg. revert p Hf Hg. induction src as [|[k d] rest IH]; intros p Hf Hg;
    cbn [LinkDecl]; [done|].
  destruct (in_exported_headers _ _); cbn [negb]; [|by apply IH].
  pose proof (linker_filter_default_regex c k (this p) Hf Hg) as E.
  destruct (linker_filter c k (this p)) as [keep l']. cbn [snd] in E. subst l'.
  assert (set_this (this p) p = p) as -> by by destruct p.
  destruct keep; cbn [negb]; [|by apply IH].
  destruct (AddLinkableMessageIR world (ir_dumper p) d) as [ok dst].
  destruct ok; cbn [negb]; [|done].
  by rewrite IH.
Qed.

Lemma and_then_this r f l :
  this r.2 = l →
  (∀ q, this q = l → this (f q).2 = l) →
  this (and_then r f).2 = l.
Proof. intros Hr Hf. unfold and_then. destruct r as [[] q]; cbn in *; auto. Qed.

Lemma link_all_default_regex reader p :
  functions_vs_regex_ (this p) = regex_default →
  globvars_vs_regex_ (this p) = regex_default →
  this (link_all world reader p).2 = this p.
Proof.
  intros Hf Hg.
  assert (Hstep : ∀ c src q, this q = this p →
            this (LinkDecl world src (linker_filter c) q).2 = this p).
  { intros c src q Hq. rewrite LinkDecl_default_regex; by rewrite ?Hq. }
  unfold link_all, LinkTypes.
  apply and_then_this; [|apply (Hstep GlobalVariables)].
  apply and_then_this; [|apply (Hstep Functions)].
  repeat (apply and_then_this; [|apply (Hstep RecordTypes)]).
  by apply (Hstep RecordTypes).
Qed.

(** Extra X8.  A linker whose two wildcard expressions are the default ones,
    as [ParseSoFile] leaves them, links a function or a global variable only
    by its exact name, and never records a symbol as matched.  In binary
    mode, however [main] ends, the expressions are the default ones and both
    matched sets are empty. *)
Theorem binary_mode_never_uses_wildcards :
  (∀ (reader : Graph) (p : Process),
     functions_vs_regex_ (this p) = regex_default →
     globvars_vs_regex_ (this p) = regex_default →
     this (LinkFunctions world reader p).2 = this p
     ∧ this (LinkGlobalVars world reader p).2 = this p
     ∧ (∀ k d,
          (k, d) ∈ forwarded world (reader Functions) functions_symbol_filter p →
          is_Some (function_decl_map_ (this p) !! k))
     ∧ (∀ k d,
          (k, d) ∈ forwarded world (reader GlobalVariables) globvars_symbol_filter p →
          is_Some (globvar_decl_map_ (this p) !! k)))
  ∧ (∀ cl : CommandLine,
       so_file cl ≠ "" →
       functions_vs_regex_ (this (main world cl).2) = regex_default
       ∧ globvars_vs_regex_ (this (main world cl).2) = regex_default
       ∧ functions_regex_matched_set (this (main world cl).2) = ∅
       ∧ globvars_regex_matched_set (this (main world cl).2) = ∅).
Proof.
  split.
  - intros reader p Hf Hg.
    split; [apply (LinkDecl_default_regex Functions); done|].
    split; [apply (LinkDecl_default_regex GlobalVariables); done|].
    split.
    + intros k d (_ & _ & l & Hl & Ht)%(forwarded_sound world Functions).
      destruct Hl as (_ & E1 & _ & E2 & _).
      apply functions_symbol_filter_true in Ht as [?|(Hs & _)]; [by rewrite <- E1|].
      by rewrite E2, Hf in Hs.
    + intros k d (_ & _ & l & Hl & Ht)%(forwarded_sound world GlobalVariables).
      destruct Hl as (_ & _ & E1 & _ & E2 & _).
      apply globvars_symbol_filter_true in Ht as [?|(Hs & _)]; [by rewrite <- E1|].
      by rewrite E2, Hg in Hs.
  - intros cl Hso%String.eqb_neq. unfold main. rewrite Hso. cbn [andb].
    set (cl' := if no_filter cl then clear_exported_header_dirs cl else cl).
    assert (Hso' : so_file cl' = so_file cl) by (unfold cl'; by destruct (no_filter cl)).
    unfold LinkAndDump, ParseSoFile. rewrite Hso', Hso. cbn [negb].
    destruct (createBinary world (so_file cl)); cbn [negb fst snd]; try done.
    match goal with |- context [link_and_dump_body world cl' ?q] =>
      assert (this (link_and_dump_body world cl' q).2 = this q) as Hthis;
      [|destruct (link_and_dump_body world cl' q) as [[[]| | |] p'];
        cbn [fst snd this print_err] in *; by rewrite Hthis]
    end.
    unfold link_and_dump_body.
    match goal with |- context [AddElfSymbols world ?q] =>
      destruct (AddElfSymbols_spec world q) as (A1 & _);
      set (p1 := (AddElfSymbols world q).2) in *
    end.
    cbn zeta in A1. cbn [this set_ir_dumper set_this] in A1.
    destruct (aggregate _ _ _ _ _ _) as [greader| | |];
      cbn [fst snd this print_err]; try done.
    fold (link_all world greader p1).
    pose proof (link_all_default_regex greader p1) as HL.
    rewrite A1 in HL. specialize (HL eq_refl eq_refl).
    destruct (link_all world greader p1) as [ok p2]. cbn [snd] in HL.
    destruct ok; cbn [negb snd this print_err]; [|done].
    destruct (Dump world (ir_dumper p2)) as [ok d].
    by destruct ok.
Qed.

Lemma linker_filter_new c k0 l k :
  k ∈ matched_set c (linker_filter c k0 l).2 →
  k ∈ matched_set c l ∨ (k = k0 ∧ wildcard_match c l k).
Proof.
  destruct c; cbn; try by left.
  - unfold functions_symbol_filter.
    case_bool_decide as Hex; [by left|]. unfold QueryRegexMatches.
    case_bool_decide; [by left|].
    destruct (regex_search k0 _) eqn:Hs; cbn; [|by left].
    intros [->%elem_of_singleton|?]%elem_of_union; [|by left].
    right. split; [done|]. split; [by apply eq_None_not_Some|done].
  - unfold globvars_symbol_filter.
    case_bool_decide as Hex; [by left|]. unfold QueryRegexMatches.
    case_bool_decide; [by left|].
    destruct (regex_search k0 _) eqn:Hs; cbn; [|by left].
    intros [->%elem_of_singleton|?]%elem_of_union; [|by left].
    right. split; [done|]. split; [by apply eq_None_not_Some|done].
Qed.

Lemma wildcard_match_same_config c l l' k :
  same_config l l' → wildcard_match c l' k → wildcard_match c l k.
Proof.
  intros (_ & E1 & E2 & E3 & E4 & _). destruct c; cbn; try done.
  - by rewrite E1, E3.
  - by rewrite E2, E4.
Qed.

(** Where a symbol of the matched set comes from. *)
Lemma matched_set_origin c src p k :
  k ∈ matched_set c (this (LinkDecl world src (linker_filter c) p).2) →
  k ∈ matched_set c (this p)
  ∨ (wildcard_match c (this p) k
     ∧ ∃ d, (k, d) ∈ src
            ∧ in_exported_headers (exported_headers_ (this p)) (GetSourceFile d)
              = true).
Proof.
  revert p. induction src as [|[k0 d0] rest IH]; intros p; cbn [LinkDecl].
  { by left. }
  destruct (in_exported_headers (exported_headers_ (this p)) (GetSourceFile d0))
    eqn:Hh; cbn [negb].
  2:{ intros [Hin|(Hw & d & Hin & ?)]%IH; [by left|].
      right. split; [done|]. exists d. split; [by right|done]. }
  pose proof (linker_filter_same_config c k0 (this p)) as Hcfg.
  pose proof (linker_filter_new c k0 (this p) k) as Hone.
  destruct (linker_filter c k0 (this p)) as [keep l'].
  cbn [fst snd] in Hcfg, Hone.
  assert (Hfirst : k ∈ matched_set c l' →
            k ∈ matched_set c (this p)
            ∨ (wildcard_match c (this p) k
               ∧ ∃ d, (k, d) ∈ (k0, d0) :: rest
                      ∧ in_exported_headers (exported_headers_ (this p))
                          (GetSourceFile d) = true)).
  { intros [?|(-> & Hw)]%Hone; [by left|]. right.
    split; [done|]. exists d0. split; [by left|done]. }
  assert (Hrest : ∀ q, this q = l' →
            k ∈ matched_set c (this (LinkDecl world rest (linker_filter c) q).2) →
            k ∈ matched_set c (this p)
            ∨ (wildcard_match c (this p) k
               ∧ ∃ d, (k, d) ∈ (k0, d0) :: rest
                      ∧ in_exported_headers (exported_headers_ (this p))
                          (GetSourceFile d) = true)).
  { intros q Hq [Hin|(Hw & d & Hin & Hh')]%IH.
    - rewrite Hq in Hin. by apply Hfirst.
    - right. rewrite Hq in Hw, Hh'.
      split; [by eapply wildcard_match_same_config|].
      exists d. split; [by right|]. destruct Hcfg as (E & _). by rewrite <- E. }
  destruct keep; cbn [negb].
  - destruct (AddLinkableMessageIR world _ d0) as [ok dst].
    destruct ok; cbn [negb].
    + by apply Hrest.
    + cbn [snd this print_err set_this]. apply Hfirst.
  - by apply Hrest.
Qed.

(** Extra X9.  Symbols enter a matched set in one way only.  After
    [LinkFunctions], a symbol of the functions' matched set was there
    before, or it is the key of a function of the reader that passed the
    header test, is not a key of the exact map, and is matched by the
    wildcard expression; the same holds of [LinkGlobalVars].  So a key of an
    exact map never enters a matched set. *)
Theorem matched_sets_hold_wildcard_matches_only (reader : Graph) (p : Process)
    (k : string) :
  (k ∈ functions_regex_matched_set (this (LinkFunctions world reader p).2) →
   k ∈ functions_regex_matched_set (this p)
   ∨ (function_decl_map_ (this p) !! k = None
      ∧ regex_search k (functions_vs_regex_ (this p)) = true
      ∧ ∃ d, (k, d) ∈ reader Functions
             ∧ in_exported_headers (exported_headers_ (this p)) (GetSourceFile d)
               = true))
  ∧ (k ∈ globvars_regex_matched_set (this (LinkGlobalVars world reader p).2) →
     k ∈ globvars_regex_matched_set (this p)
     ∨ (globvar_decl_map_ (this p) !! k = None
        ∧ regex_search k (globvars_vs_regex_ (this p)) = true
        ∧ ∃ d, (k, d) ∈ reader GlobalVariables
               ∧ in_exported_headers (exported_headers_ (this p)) (GetSourceFile d)
                 = true)).
Proof.
  split.
  - intros [?|([? ?] & ?)]%(matched_set_origin Functions); [by left|by right].
  - intros [?|([? ?] & ?)]%(matched_set_origin GlobalVariables); [by left|by right].
Qed.

End Runs.

(* ===================================================================== *)
(** ** Further properties: the work of the aggregation threads *)
(* ===================================================================== *)

Section Work.

Context (world : World) (fmt : TextFormatIR) (dump_files : list string)
        (exported_headers : gset string).

Lemma concat_claimed_insert_same (l : list Thread) i t t' :
  l !! i = Some t → claimed t' = claimed t →
  concat (claimed <$> <[i:=t']> l) = concat (claimed <$> l).
Proof.
  revert i. induction l as [|z l IH]; intros [|i]; cbn; try done.
  - intros [= ->] ->. done.
  - intros Hi E. f_equal. by apply IH.
Qed.

Lemma concat_claimed_insert_snoc (l : list Thread) i t t' x :
  l !! i = Some t → claimed t' = claimed t ++ [x] →
  concat (claimed <$> <[i:=t']> l) ≡ₚ concat (claimed <$> l) ++ [x].
Proof.
  revert i. induction l as [|z l IH]; intros [|i]; cbn; try done.
  - intros [= ->] ->. rewrite <- !app_assoc. f_equiv. apply Permutation_app_comm.
  - intros Hi E. rewrite <- app_assoc. f_equiv. by apply IH.
Qed.

Lemma offsets_S m :
  offsets (S m) = offsets m ++ [(kSourcesPerBatchThread * N.of_nat m)%N].
Proof. unfold offsets. by rewrite seq_S, fmap_app. Qed.

Lemma batch_count_le m :
  (N.of_nat (length dump_files) <= kSourcesPerBatchThread * N.of_nat m)%N →
  batch_count (length dump_files) ≤ m.
Proof.
  unfold batch_count, kSourcesPerBatchThread. intros H.
  assert ((N.of_nat (length dump_files) + 6) / 7 < N.of_nat (S m))%N; [|lia].
  apply N.Div0.div_lt_upper_bound; lia.
Qed.

Lemma batch_count_gt m :
  (kSourcesPerBatchThread * N.of_nat m < N.of_nat (length dump_files))%N →
  m < batch_count (length dump_files).
Proof.
  unfold batch_count, kSourcesPerBatchThread. intros H.
  assert (N.of_nat (S m) <= (N.of_nat (length dump_files) + 6) / 7)%N; [|lia].
  apply N.div_le_lower_bound; lia.
Qed.

Lemma looping_pos (l : list Thread) i t :
  l !! i = Some t → status t = InLoop → 1 ≤ sum_list (looping <$> l).
Proof.
  revert i. induction l as [|z l IH]; intros [|i]; simpl; try done.
  - intros [= ->] Hst. assert (looping t = 1) as -> by (unfold looping; by rewrite Hst).
    lia.
  - intros Hi Hst. specialize (IH _ Hi Hst). unfold fmap in IH. lia.
Qed.

Lemma claims_invariant_start n : claims_invariant dump_files (start_aggregation n).
Proof.
  split.
  - unfold counter_bounded. cbn. rewrite length_replicate.
    pose proof (sum_looping_le (replicate n new_Thread)) as H.
    rewrite length_replicate in H. lia.
  - exists 0. cbn. split; [done|]. split.
    + induction n as [|n IH]; [done|]. cbn. exact IH.
    + intros H. apply Exists_exists in H as (t & Hin & Hs).
      apply elem_of_replicate in Hin as [-> _]. done.
  - cbn. by apply Forall_replicate.
Qed.

Lemma claims_invariant_step a tid a' :
  (N.of_nat (length dump_files) + 7 + 7 * N.of_nat (length (threads a))
   <= size_t_modulus)%N →
  claims_invariant dump_files a →
  step world fmt dump_files exported_headers a tid = Some a' →
  claims_invariant dump_files a' ∧ length (threads a') = length (threads a).
Proof.
  intros Hfit Hinv. pose proof Hinv as [Hb (m & Hcnt & Hperm & Hleft) Hdec].
  unfold step.
  destruct (threads a !! tid) as [t|] eqn:Ht; [|by intros [= <-]].
  pose proof (sum_looping_le (threads a)) as Hle.
  pose proof (Forall_lookup_1 _ _ _ _ Hdec Ht) as Hdt. cbn in Hdt.
  unfold thread_step. destruct (status t) eqn:Hst.
  - pose proof (looping_pos _ _ _ Ht Hst) as Hloop.
    assert (Hadd : size_t_add (cnt a) kSourcesPerBatchThread = (cnt a + 7)%N).
    { unfold size_t_add, kSourcesPerBatchThread. apply N.mod_small.
      unfold counter_bounded in Hb. lia. }
    rewrite Hadd.
    assert (Hcnt' : (cnt a + 7)%N = (kSourcesPerBatchThread * N.of_nat (S m))%N).
    { rewrite Hcnt. unfold kSourcesPerBatchThread. lia. }
    destruct (N.of_nat (length dump_files) <=? cnt a)%N eqn:Hcmp.
    + apply N.leb_le in Hcmp. intros [= <-]. cbn. rewrite length_insert.
      split; [|done].
      set (t' := {| local_reader := local_reader t; status := AtLock;
                    claimed := claimed t; decoded := decoded t |}).
      assert (HB : batch_count (length dump_files) ≤ m).
      { apply batch_count_le. by rewrite <- Hcnt. }
      split; cbn.
      * pose proof (sum_list_insert looping _ _ _ t' Ht) as HL.
        unfold looping at 2 4 in HL. rewrite Hst in HL. cbn in HL.
        unfold counter_bounded in *. cbn. rewrite length_insert. lia.
      * exists (S m). split; [done|]. split; [|lia].
        rewrite (concat_claimed_insert_same _ _ t t') by done.
        rewrite Hperm. by rewrite !Nat.min_r by lia.
      * apply Forall_insert; [done|]. done.
    + apply N.leb_gt in Hcmp.
      destruct (read_and_merge _ _ _ _ _) as [local'|]; [|done].
      intros [= <-]. cbn. rewrite length_insert. split; [|done].
      set (t' := {| local_reader := local'; status := InLoop;
                    claimed := claimed t ++ [cnt a];
                    decoded := decoded t ++ _ |}).
      assert (HB : m < batch_count (length dump_files)).
      { apply batch_count_gt. by rewrite <- Hcnt. }
      split; cbn.
      * pose proof (sum_list_insert looping _ _ _ t' Ht) as HL.
        unfold looping at 2 4 in HL. rewrite Hst in HL. cbn in HL.
        unfold counter_bounded in *. cbn. rewrite length_insert. lia.
      * exists (S m). split; [done|]. split.
        -- rewrite (concat_claimed_insert_snoc _ _ t t' (cnt a)) by done.
           rewrite Hperm. rewrite Nat.min_l by lia.
           rewrite (Nat.min_l (S m)) by lia. by rewrite offsets_S, Hcnt.
        -- intros Hex.
           assert (Exists (λ t, status t ≠ InLoop) (threads a)) as Hex'.
           { apply Exists_exists in Hex as (x & Hin & Hs).
             apply list_elem_of_lookup in Hin as [j Hj].
             destruct (decide (j = tid)) as [->|Hne].
             - rewrite list_lookup_insert_eq in Hj by by eapply lookup_lt_Some.
               by injection Hj as <-.
             - rewrite list_lookup_insert_ne in Hj by done.
               apply Exists_exists. exists x.
               split; [by eapply list_elem_of_lookup_2|done]. }
           apply Hleft in Hex'. lia.
      * apply Forall_insert; [done|]. cbn. rewrite flat_map_app. cbn.
        rewrite app_nil_r, Hdt. done.
  - intros [= <-]. cbn. rewrite length_insert. split; [|done].
    set (t' := {| local_reader := local_reader t; status := Finished;
                  claimed := claimed t; decoded := decoded t |}).
    split; cbn.
    + pose proof (sum_list_insert looping _ _ _ t' Ht) as HL.
      unfold looping at 2 4 in HL. rewrite Hst in HL. cbn in HL.
      unfold counter_bounded in *. cbn. rewrite length_insert. lia.
    + exists m. split; [done|]. split.
      * by rewrite (concat_claimed_insert_same _ _ t t').
      * intros _. apply Hleft. apply Exists_exists. exists t.
        split; [by eapply list_elem_of_lookup_2|]. by rewrite Hst.
    + by apply Forall_insert.
  - intros [= <-]. rewrite list_insert_id by done. split; [|done].
    by destruct a.
Qed.

Lemma claims_invariant_run a schedule a' :
  (N.of_nat (length dump_files) + 7 + 7 * N.of_nat (length (threads a))
   <= size_t_modulus)%N →
  claims_invariant dump_files a →
  run_threads world fmt dump_files exported_headers a schedule = Some a' →
  claims_invariant dump_files a'.
Proof.
  revert a. induction schedule as [|tid schedule IH]; intros a Hfit Hinv; cbn.
  { by intros [= <-]. }
  destruct (step _ _ _ _ _ _) as [a1|] eqn:Hstep; [|done].
  destruct (claims_invariant_step a tid a1 Hfit Hinv Hstep) as [Hinv1 Hlen].
  apply IH; [by rewrite Hlen|done].
Qed.

Lemma offsets_NoDup m : NoDup (offsets m).
Proof.
  unfold offsets. apply NoDup_fmap_2; [|apply NoDup_seq].
  intros i j. unfold kSourcesPerBatchThread. lia.
Qed.

Lemma offsets_mono m m' i : m ≤ m' → i ∈ offsets m → i ∈ offsets m'.
Proof.
  unfold offsets. intros Hle (j & -> & Hj)%list_elem_of_fmap.
  apply list_elem_of_fmap. exists j. split; [done|].
  apply elem_of_seq in Hj. apply elem_of_seq. lia.
Qed.

(** The offsets obtained in range, over all threads. *)
Lemma claimed_offsets_spec (thread_count : nat) (schedule : list nat)
    (a : Aggregation) :
  (N.of_nat (length dump_files) + 7 + 7 * N.of_nat thread_count
   <= size_t_modulus)%N →
  run_threads world fmt dump_files exported_headers
    (start_aggregation thread_count) schedule = Some a →
  NoDup (concat (claimed <$> threads a))
  ∧ (∀ i, i ∈ concat (claimed <$> threads a) →
       (i < N.of_nat (length dump_files))%N
       ∧ ∃ j : nat, i = (kSourcesPerBatchThread * N.of_nat j)%N)
  ∧ (0 < thread_count → all_finished a = true →
     concat (claimed <$> threads a) ≡ₚ offsets (batch_count (length dump_files)))
  ∧ Forall (λ t, decoded t = flat_map (reads_at dump_files) (claimed t))
      (threads a).
Proof.
  intros Hfit Hrun.
  pose proof (run_threads_length _ _ _ _ _ _ _ Hrun) as Hlen.
  cbn in Hlen. rewrite length_replicate in Hlen.
  apply claims_invariant_run in Hrun as [_ (m & Hcnt & Hperm & Hleft) Hdec];
    [|by cbn; rewrite length_replicate|apply claims_invariant_start].
  split; [rewrite Hperm; apply offsets_NoDup|].
  split; [|split; [|done]].
  - intros i Hi. rewrite Hperm in Hi. unfold offsets in Hi.
    apply list_elem_of_fmap in Hi as (j & -> & Hj). apply elem_of_seq in Hj.
    split; [|by exists j].
    assert (j < batch_count (length dump_files)) as Hjb by lia.
    unfold batch_count, kSourcesPerBatchThread in *.
    assert (N.of_nat (S j) <= (N.of_nat (length dump_files) + 6) / 7)%N as Hq by lia.
    pose proof (N.Div0.mul_div_le (N.of_nat (length dump_files) + 6) 7). lia.
  - intros Hpos Hfin. rewrite Hperm.
    rewrite Nat.min_r; [done|]. apply Hleft.
    apply all_finished_spec in Hfin.
    destruct (threads a) as [|t ts]; [cbn in Hlen; lia|].
    apply Forall_cons in Hfin as [Hs _]. left. by rewrite Hs.
Qed.

Lemma elem_of_concat_claimed (ts : list Thread) t i :
  t ∈ ts → i ∈ claimed t → i ∈ concat (claimed <$> ts).
Proof.
  induction ts as [|z ts IH]; [by intros ?%elem_of_nil|].
  cbn. intros [->|Hin]%elem_of_cons Hi; apply elem_of_app; [by left|].
  right. by apply IH.
Qed.

Lemma length_flat_map_reads (l : list N) :
  length (flat_map (reads_at dump_files) l)
  = sum_list_with (λ i, length (reads_at dump_files i)) l.
Proof.
  induction l as [|i l IH]; [done|]. cbn. by rewrite length_app, IH.
Qed.

Lemma length_concat_decoded (ts : list Thread) :
  Forall (λ t, decoded t = flat_map (reads_at dump_files) (claimed t)) ts →
  length (concat (decoded <$> ts))
  = sum_list_with (λ i, length (reads_at dump_files i)) (concat (claimed <$> ts)).
Proof.
  induction 1 as [|t ts Ht _ IH]; [done|].
  cbn. rewrite length_app, sum_list_with_app, IH, Ht. f_equal.
  apply length_flat_map_reads.
Qed.

Lemma sum_list_with_offsets (f : N → nat) m :
  sum_list_with f (offsets m)
  = sum_list_with (λ j, f (kSourcesPerBatchThread * N.of_nat j)%N) (seq 0 m).
Proof.
  unfold offsets. induction (seq 0 m) as [|j l IH]; [done|]. cbn. by rewrite IH.
Qed.

(** Extra X10.  The batch offsets are handed out once each.  As long as the
    counter has room in a [size_t], at every moment of the aggregation the
    offsets the threads have obtained in range are pairwise distinct
    multiples of 7 below the number of files; and once all threads have
    finished, they are exactly the offsets of all the batches: no batch is
    claimed twice and none is left out, whatever the schedule. *)
Theorem every_batch_claimed_once (thread_count : nat) (schedule : list nat)
    (a : Aggregation) :
  (N.of_nat (length dump_files) + 7 + 7 * N.of_nat thread_count
   <= size_t_modulus)%N →
  run_threads world fmt dump_files exported_headers
    (start_aggregation thread_count) schedule = Some a →
  NoDup (concat (claimed <$> threads a))
  ∧ (∀ i, i ∈ concat (claimed <$> threads a) →
       (i < N.of_nat (length dump_files))%N
       ∧ ∃ j : nat, i = (kSourcesPerBatchThread * N.of_nat j)%N)
  ∧ (0 < thread_count → all_finished a = true →
     concat (claimed <$> threads a) ≡ₚ offsets (batch_count (length dump_files))).
Proof.
  intros Hfit Hrun.
  destruct (claimed_offsets_spec thread_count schedule a Hfit Hrun)
    as (H1 & H2 & H3 & _).
  done.
Qed.

(** Extra X11.  What a thread decodes is determined by the offsets it has
    obtained: for each of them, in order, the dump files from the very first
    one up to the end of the batch, that is the files before the batch and
    then the batch, and nothing else. *)
Theorem decoded_ranges_start_at_first_file (thread_count : nat)
    (schedule : list nat) (a : Aggregation) :
  (N.of_nat (length dump_files) + 7 + 7 * N.of_nat thread_count
   <= size_t_modulus)%N →
  run_threads world fmt dump_files exported_headers
    (start_aggregation thread_count) schedule = Some a →
  ∀ t, t ∈ threads a →
    decoded t = flat_map (reads_at dump_files) (claimed t)
    ∧ ∀ i, i ∈ claimed t →
        reads_at dump_files i
        = take (N.to_nat i) dump_files ++ batch dump_files i.
Proof.
  intros Hfit Hrun.
  destruct (claimed_offsets_spec thread_count schedule a Hfit Hrun)
    as (_ & Hrange & _ & Hdec).
  intros t Ht. split; [by apply (proj1 (Forall_forall _ _) Hdec)|].
  intros i Hi.
  destruct (Hrange i (elem_of_concat_claimed _ _ _ Ht Hi)) as [Hlt _].
  unfold reads_at, batch.
  set (e := N.to_nat (N.min _ _)).
  rewrite <- (take_drop (N.to_nat i) (take e dump_files)) at 1.
  f_equal. rewrite take_take. f_equal.
  unfold e, kSourcesPerBatchThread. lia.
Qed.

(** Extra X12.  The number of calls of [ReadDump] in an aggregation that
    runs to its end does not depend on the schedule or on the number of
    threads: the batch that ends at file [e] costs [e] calls, so [n] files
    cost the sum of [min (7 * (j + 1)) n] over the batches [j]. *)
Theorem number_of_dumps_decoded (thread_count : nat) (schedule : list nat)
    (a : Aggregation) :
  (N.of_nat (length dump_files) + 7 + 7 * N.of_nat thread_count
   <= size_t_modulus)%N →
  0 < thread_count →
  run_threads world fmt dump_files exported_headers
    (start_aggregation thread_count) schedule = Some a →
  all_finished a = true →
  length (concat (decoded <$> threads a))
  = sum_list_with (λ j, (7 * S j) `min` length dump_files)
      (seq 0 (batch_count (length dump_files))).
Proof.
  intros Hfit Hpos Hrun Hfin.
  destruct (claimed_offsets_spec thread_count schedule a Hfit Hrun)
    as (_ & _ & Hperm & Hdec).
  rewrite (length_concat_decoded _ Hdec), (Hperm Hpos Hfin).
  rewrite sum_list_with_offsets.
  induction (seq 0 (batch_count (length dump_files))) as [|j l IH]; [done|].
  cbn [sum_list_with]. rewrite IH. f_equal.
  unfold reads_at, kSourcesPerBatchThread. rewrite length_take. lia.
Qed.

End Work.

(* ===================================================================== *)
(** ** Further properties: what the aggregation reads and returns *)
(* ===================================================================== *)

Section Readable.

Context (world : World) (fmt : TextFormatIR) (dump_files : list string)
        (exported_headers : gset string).

Lemma read_and_merge_Some range local local' :
  read_and_merge world fmt exported_headers range local = Some local' →
  ∀ path, path ∈ range → is_Some (ReadDump world fmt exported_headers path).
Proof.
  revert local. induction range as [|p range IH]; intros local; simpl.
  { by intros _ ? ?%elem_of_nil. }
  destruct (ReadDump world fmt exported_headers p) as [reader|] eqn:Hr; [|done].
  intros Hm path [->|Hin]%elem_of_cons; [by rewrite Hr|].
  by eapply IH.
Qed.

Lemma readable_invariant_start n :
  readable_invariant world fmt exported_headers dump_files (start_aggregation n).
Proof.
  destruct dump_files as [|d ds] eqn:Hd.
  - right. by intros ? ?%elem_of_nil.
  - left. split; [cbn; lia|]. cbn. by apply Forall_replicate.
Qed.

Lemma readable_invariant_step a tid a' :
  (N.of_nat (length dump_files) + kSourcesPerBatchThread <= size_t_modulus)%N →
  readable_invariant world fmt exported_headers dump_files a →
  step world fmt dump_files exported_headers a tid = Some a' →
  readable_invariant world fmt exported_headers dump_files a'.
Proof.
  intros Hfit Hinv. unfold step.
  destruct (threads a !! tid) as [t|] eqn:Ht; [|by intros [= <-]].
  destruct (thread_step _ _ _ _ _ _ _) as [[[c g] t']|] eqn:Hstep; [|done].
  intros [= <-].
  destruct Hinv as [[Hcnt Hall]|Hread]; [|by right].
  pose proof (Forall_lookup_1 _ _ _ _ Hall Ht) as Hs.
  unfold thread_step in Hstep. rewrite Hs in Hstep.
  destruct (N.leb_spec (N.of_nat (length dump_files)) (cnt a)) as [Hle|Hlt]; [lia|].
  rewrite (size_t_add_small dump_files (cnt a)) in Hstep by done.
  destruct (read_and_merge _ _ _ _ _) as [local'|] eqn:Hm; [|done].
  injection Hstep as <- <- <-. cbn.
  destruct (N.ltb_spec (cnt a + kSourcesPerBatchThread)
              (N.of_nat (length dump_files))) as [Hin|Hout].
  - left. split; [done|]. by apply Forall_insert.
  - right. intros path Hpath.
    apply (read_and_merge_Some _ _ _ Hm).
    rewrite N.min_r, Nat2N.id, firstn_all by lia. done.
Qed.

Lemma readable_invariant_run a schedule a' :
  (N.of_nat (length dump_files) + kSourcesPerBatchThread <= size_t_modulus)%N →
  readable_invariant world fmt exported_headers dump_files a →
  run_threads world fmt dump_files exported_headers a schedule = Some a' →
  readable_invariant world fmt exported_headers dump_files a'.
Proof.
  intros Hfit. revert a. induction schedule as [|tid schedule IH]; intros a Hinv; simpl.
  { by intros [= <-]. }
  destruct (step _ _ _ _ _ _) as [a1|] eqn:Hstep; [|done].
  apply IH. by eapply readable_invariant_step.
Qed.

Lemma left_the_loop_readable (thread_count : nat) (schedule : list nat)
    (a : Aggregation) :
  (N.of_nat (length dump_files) + kSourcesPerBatchThread <= size_t_modulus)%N →
  run_threads world fmt dump_files exported_headers
    (start_aggregation thread_count) schedule = Some a →
  Exists (λ t, status t ≠ InLoop) (threads a) →
  all_readable world fmt exported_headers dump_files.
Proof.
  intros Hfit Hrun Hex.
  destruct (readable_invariant_run _ _ _ Hfit (readable_invariant_start _) Hrun)
    as [[_ Hall]|Hread]; [|done].
  apply Exists_exists in Hex as (t & Ht & Hs).
  by pose proof (proj1 (Forall_forall _ _) Hall t Ht).
Qed.

Lemma aggregate_readable (thread_count : nat) (schedule : list nat)
    (merged : Graph) :
  (N.of_nat (length dump_files) + kSourcesPerBatchThread <= size_t_modulus)%N →
  0 < thread_count →
  aggregate world fmt dump_files exported_headers thread_count schedule
  = Returned merged →
  all_readable world fmt exported_headers dump_files.
Proof.
  intros Hfit Hpos. unfold aggregate.
  destruct (run_threads _ _ _ _ _ _) as [a|] eqn:Hrun; [|done].
  destruct (all_finished a) eqn:Hfin; [|done]. intros _.
  apply (left_the_loop_readable thread_count schedule a Hfit Hrun).
  apply all_finished_spec in Hfin.
  apply run_threads_length in Hrun. cbn in Hrun. rewrite length_replicate in Hrun.
  destruct (threads a) as [|t ts]; [cbn in Hrun; lia|].
  apply Forall_cons in Hfin as [Hs _]. left. by rewrite Hs.
Qed.


(** *** Nothing but the dumps *)

Lemma merge_elements_entries dst src e :
  e ∈ merge_elements dst src → e ∈ dst ∨ e ∈ src.
Proof.
  revert dst. induction src as [|[k d] src IH]; intros dst; cbn [merge_elements].
  { by left. }
  intros [Hd|Hs]%IH; [|right; by right].
  destruct (has_key k dst); [by left|].
  apply elem_of_app in Hd as [Hd|Hd%list_elem_of_singleton]; [by left|].
  right. rewrite Hd. left.
Qed.

Lemma entries_from_dumps_empty paths :
  entries_from_dumps world fmt exported_headers paths empty_graph.
Proof. by intros c k ?%elem_of_nil. Qed.

Lemma entries_from_dumps_MergeGraphs paths g h :
  entries_from_dumps world fmt exported_headers paths g →
  entries_from_dumps world fmt exported_headers paths h →
  entries_from_dumps world fmt exported_headers paths (MergeGraphs g h).
Proof.
  intros Hg Hh c k [Hk|Hk]%merge_elements_entries; [by apply Hg|by apply Hh].
Qed.

Lemma entries_from_dumps_read_and_merge range local local' :
  (∀ path, path ∈ range → path ∈ dump_files) →
  entries_from_dumps world fmt exported_headers dump_files local →
  read_and_merge world fmt exported_headers range local = Some local' →
  entries_from_dumps world fmt exported_headers dump_files local'.
Proof.
  revert local. induction range as [|p range IH]; intros local Hsub Hl; simpl.
  { by intros [= <-]. }
  destruct (ReadDump world fmt exported_headers p) as [reader|] eqn:Hr; [|done].
  apply IH.
  - intros path Hin. apply Hsub. by right.
  - apply entries_from_dumps_MergeGraphs; [done|].
    intros c k Hk. exists p, reader. split; [|done]. apply Hsub. by left.
Qed.

Lemma entries_from_dumps_step a tid a' :
  entries_from_dumps world fmt exported_headers dump_files (greader a) →
  Forall (λ t, entries_from_dumps world fmt exported_headers dump_files
                 (local_reader t))
    (threads a) →
  step world fmt dump_files exported_headers a tid = Some a' →
  entries_from_dumps world fmt exported_headers dump_files (greader a')
  ∧ Forall (λ t, entries_from_dumps world fmt exported_headers dump_files
                   (local_reader t))
      (threads a').
Proof.
  intros Hg Hts. unfold step.
  destruct (threads a !! tid) as [t|] eqn:Ht; [|by intros [= <-]].
  pose proof (Forall_lookup_1 _ _ _ _ Hts Ht) as Hl.
  destruct (thread_step _ _ _ _ _ _ _) as [[[c g] t']|] eqn:Hstep; [|done].
  intros [= <-]. cbn. unfold thread_step in Hstep.
  destruct (status t).
  - destruct (_ <=? _)%N.
    + injection Hstep as <- <- <-. split; [done|]. by apply Forall_insert.
    + destruct (read_and_merge _ _ _ _ _) as [local'|] eqn:Hm; [|done].
      injection Hstep as <- <- <-. split; [done|]. apply Forall_insert; [done|].
      cbn. eapply entries_from_dumps_read_and_merge; [|exact Hl|exact Hm].
      intros path Hin. apply elem_of_take in Hin as (j & Hj & _).
      by eapply list_elem_of_lookup_2.
  - injection Hstep as <- <- <-. split.
    + by apply entries_from_dumps_MergeGraphs.
    + by apply Forall_insert.
  - injection Hstep as <- <- <-. split; [done|]. by apply Forall_insert.
Qed.

Lemma entries_from_dumps_run a schedule a' :
  entries_from_dumps world fmt exported_headers dump_files (greader a) →
  Forall (λ t, entries_from_dumps world fmt exported_headers dump_files
                 (local_reader t))
    (threads a) →
  run_threads world fmt dump_files exported_headers a schedule = Some a' →
  entries_from_dumps world fmt exported_headers dump_files (greader a').
Proof.
  revert a. induction schedule as [|tid schedule IH]; intros a Hg Hts; simpl.
  { by intros [= <-]. }
  destruct (step _ _ _ _ _ _) as [a1|] eqn:Hstep; [|done].
  destruct (entries_from_dumps_step _ _ _ Hg Hts Hstep) as [Hg1 Hts1].
  by apply IH.
Qed.

Lemma aggregate_entries_from_dumps thread_count schedule merged :
  aggregate world fmt dump_files exported_headers thread_count schedule
  = Returned merged →
  entries_from_dumps world fmt exported_headers dump_files merged.
Proof.
  unfold aggregate.
  destruct (run_threads _ _ _ _ _ _) as [a|] eqn:Hrun; [|done].
  destruct (all_finished a); [|done]. intros [= <-].
  eapply entries_from_dumps_run; [| |exact Hrun].
  - apply entries_from_dumps_empty.
  - cbn. apply Forall_replicate, entries_from_dumps_empty.
Qed.

Lemma aggregate_from_dumps thread_count schedule merged :
  aggregate world fmt dump_files exported_headers thread_count schedule
  = Returned merged →
  from_dumps world fmt exported_headers dump_files merged.
Proof.
  intros Hagg c k Hk. unfold keys in *.
  apply list_elem_of_fmap in Hk as ([k' d] & -> & Hin).
  destruct (aggregate_entries_from_dumps _ _ _ Hagg c _ Hin)
    as (path & dump & Hp & Hr & He).
  exists path, dump. split; [done|]. split; [done|].
  apply list_elem_of_fmap. by exists (k', d).
Qed.

(** Extra X14.  The keys of the graph the aggregation returns do not depend
    on how the threads were scheduled nor on how many there were: in every
    category they are the keys of the dumps, no more and no less (with
    [MergeGraphs] as modelled: a union by key).  Two runs over the same dump
    files therefore return graphs with the same keys. *)
Theorem merged_keys_independent_of_schedule (thread_count thread_count' : nat)
    (schedule schedule' : list nat) (merged merged' : Graph) :
  (N.of_nat (length dump_files) + kSourcesPerBatchThread <= size_t_modulus)%N →
  0 < thread_count →
  0 < thread_count' →
  aggregate world fmt dump_files exported_headers thread_count schedule
  = Returned merged →
  aggregate world fmt dump_files exported_headers thread_count' schedule'
  = Returned merged' →
  (∀ c k,
     k ∈ keys (merged c)
     ↔ ∃ path dump, path ∈ dump_files
         ∧ ReadDump world fmt exported_headers path = Some dump
         ∧ k ∈ keys (dump c))
  ∧ ∀ c k, k ∈ keys (merged c) ↔ k ∈ keys (merged' c).
Proof.
  intros Hfit Hpos Hpos' Hagg Hagg'.
  assert (∀ n s m,
    0 < n →
    aggregate world fmt dump_files exported_headers n s = Returned m →
    ∀ c k,
     k ∈ keys (m c)
     ↔ ∃ path dump, path ∈ dump_files
         ∧ ReadDump world fmt exported_headers path = Some dump
         ∧ k ∈ keys (dump c)) as Hkeys.
  { intros n s m Hn Hm c k. split.
    - apply (aggregate_from_dumps _ _ _ Hm).
    - intros (path & dump & Hin & Hr & Hk).
      by apply (proj1 (aggregate_complete _ _ _ _ n s m Hfit Hn Hm) path dump c k). }
  split; [by apply (Hkeys thread_count schedule)|].
  intros c k.
  rewrite (Hkeys _ _ _ Hpos Hagg c k), (Hkeys _ _ _ Hpos' Hagg' c k). done.
Qed.

End Readable.

(* ===================================================================== *)
(** ** Further properties: the orchestrator *)
(* ===================================================================== *)

Section Orchestrator.

Context (world : World).

Lemma link_and_dump_body_readable cl p b :
  (N.of_nat (length (dump_files cl)) + kSourcesPerBatchThread <= size_t_modulus)%N →
  (link_and_dump_body world cl p).1 = Returned b →
  all_readable world (input_format cl) (exported_headers_ (this p)) (dump_files cl).
Proof.
  intros Hfit. unfold link_and_dump_body.
  rewrite (AddElfSymbols_this world (set_ir_dumper CreateIRDumper p)).
  cbn [this set_ir_dumper].
  destruct (aggregate _ _ _ _ _ _) as [g| | |] eqn:Hagg; cbn [fst]; try done.
  intros _. eapply aggregate_readable; [done| |exact Hagg].
  unfold thread_count. lia.
Qed.

(** Extra X15.  [main] returns 0 only if every dump file could be decoded,
    with the exported headers the linker holds: one unreadable dump file and
    the exit status is not 0. *)
Theorem exit_status_zero_needs_readable_dumps (cl : CommandLine) :
  (N.of_nat (length (dump_files cl)) + kSourcesPerBatchThread <= size_t_modulus)%N →
  (main world cl).1 = Returned 0%Z →
  all_readable world (input_format cl)
    (exported_headers_ (this (main world cl).2)) (dump_files cl).
Proof.
  intros Hfit. unfold main.
  destruct (String.eqb (so_file cl) "" && String.eqb (version_script cl) "");
    cbn [fst snd]; [done|].
  set (cl' := if no_filter cl then clear_exported_header_dirs cl else cl).
  assert (dump_files cl' = dump_files cl ∧ input_format cl' = input_format cl)
    as [Ed Ei] by (unfold cl'; by destruct (no_filter cl)).
  assert (Hbody : ∀ q p',
            link_and_dump_body world cl' q = (Returned true, p') →
            all_readable world (input_format cl) (exported_headers_ (this p'))
              (dump_files cl)).
  { intros q p' Hq.
    destruct (link_and_dump_body_outcome world cl' q) as ((Hc & _) & _).
    pose proof (link_and_dump_body_readable cl' q true) as Hr.
    rewrite Hq in Hc, Hr. cbn [fst snd] in Hc, Hr.
    rewrite Hc, <- Ed, <- Ei. apply Hr; [by rewrite Ed|done]. }
  unfold LinkAndDump.
  destruct (String.eqb (so_file cl') ""); cbn [negb].
  - unfold ParseVersionScriptFiles.
    destruct (VersionScriptParser_Parse _ _ _ _) as [vs|]; cbn [fst snd]; [|done].
    destruct (CreateRegexMatchExprFromSet (GetFunctionRegexs vs)); cbn [fst snd];
      [|done].
    destruct (CreateRegexMatchExprFromSet (GetGlobVarRegexs vs)); cbn [fst snd];
      [|done].
    match goal with |- context [link_and_dump_body world cl' ?q] =>
      specialize (Hbody q);
      destruct (link_and_dump_body world cl' q) as [[[]| | |] p']
    end; cbn [fst snd] in *; try done.
    intros _. by apply Hbody.
  - unfold ParseSoFile.
    destruct (createBinary world (so_file cl')); cbn [negb fst snd]; try done.
    match goal with |- context [link_and_dump_body world cl' ?q] =>
      specialize (Hbody q);
      destruct (link_and_dump_body world cl' q) as [[[]| | |] p']
    end; cbn [fst snd] in *; try done.
    intros _. by apply Hbody.
Qed.

Lemma adds_from_LinkDecl c reader src p :
  (∀ e, e ∈ src → e ∈ reader c) →
  adds_from reader p (LinkDecl world src (linker_filter c) p).
Proof.
  intros Hsub. split; [apply LinkDecl_headers|].
  intros d. rewrite LinkDecl_forwarded. intros [Hd|Hd]%elem_of_app; [by left|].
  right. apply list_elem_of_fmap in Hd as ([k d'] & -> & Hin).
  apply forwarded_sound in Hin as (Hin & Hh & _).
  exists c, k. split; [by apply Hsub|done].
Qed.

Lemma adds_from_and_then reader p r f :
  adds_from reader p r →
  (∀ q, adds_from reader q (f q)) →
  adds_from reader p (and_then r f).
Proof.
  intros [E1 E2] Hf. unfold and_then.
  destruct r as [[] q]; cbn [fst snd] in *; [|done].
  destruct (Hf q) as [F1 F2]. split; [congruence|].
  intros d [Hd|(c & k & Hin & Hh)]%F2; [by apply E2|].
  right. exists c, k. by rewrite <- E1.
Qed.

Lemma adds_from_link_all reader p :
  adds_from reader p (link_all world reader p).
Proof.
  unfold link_all, LinkTypes, LinkFunctions, LinkGlobalVars.
  apply adds_from_and_then;
    [|intros q; by apply (adds_from_LinkDecl GlobalVariables)].
  apply adds_from_and_then;
    [|intros q; by apply (adds_from_LinkDecl Functions)].
  repeat (apply adds_from_and_then;
          [|intros q;
            first [ by apply (adds_from_LinkDecl RecordTypes)
                  | by apply (adds_from_LinkDecl EnumTypes)
                  | by apply (adds_from_LinkDecl FunctionTypes)
                  | by apply (adds_from_LinkDecl BuiltinTypes)
                  | by apply (adds_from_LinkDecl PointerTypes)
                  | by apply (adds_from_LinkDecl RvalueReferenceTypes)
                  | by apply (adds_from_LinkDecl LvalueReferenceTypes)
                  | by apply (adds_from_LinkDecl ArrayTypes)
                  | by apply (adds_from_LinkDecl QualifiedTypes) ]]).
  by apply (adds_from_LinkDecl RecordTypes).
Qed.

Lemma link_and_dump_body_linked cl p d :
  d ∈ linkable_messages (ir_dumper (link_and_dump_body world cl p).2) →
  ∃ path dump c k,
    path ∈ dump_files cl
    ∧ ReadDump world (input_format cl) (exported_headers_ (this p)) path
      = Some dump
    ∧ (k, d) ∈ dump c
    ∧ in_exported_headers (exported_headers_ (this p)) (GetSourceFile d) = true.
Proof.
  unfold link_and_dump_body.
  destruct (AddElfSymbols_spec world (set_ir_dumper CreateIRDumper p))
    as (A1 & _ & A3 & _). cbn zeta in *.
  set (p1 := (AddElfSymbols world (set_ir_dumper CreateIRDumper p)).2) in *.
  cbn [this ir_dumper set_ir_dumper linkable_messages CreateIRDumper] in A1, A3.
  rewrite A1.
  destruct (aggregate _ _ _ _ _ _) as [g| | |] eqn:Hagg;
    cbn [fst snd ir_dumper print_err];
    try (rewrite A3; by intros ?%elem_of_nil).
  fold (link_all world g p1).
  destruct (adds_from_link_all g p1) as [_ L].
  destruct (link_all world g p1) as [ok p2]. cbn [fst snd] in *.
  assert (d ∈ linkable_messages (ir_dumper p2) →
          ∃ path dump c k,
            path ∈ dump_files cl
            ∧ ReadDump world (input_format cl) (exported_headers_ (this p)) path
              = Some dump
            ∧ (k, d) ∈ dump c
            ∧ in_exported_headers (exported_headers_ (this p)) (GetSourceFile d)
              = true) as Hp2.
  { intros [Hd|(c & k & Hin & Hh)]%L.
    - rewrite A3 in Hd. by apply elem_of_nil in Hd.
    - destruct (aggregate_entries_from_dumps _ _ _ _ _ _ _ Hagg c _ Hin)
        as (path & dump & Hp & Hr & He).
      exists path, dump, c, k. by rewrite A1 in Hh. }
  destruct ok; cbn [negb fst snd ir_dumper print_err]; [|done].
  destruct (Dump_spec world (ir_dumper p2)) as (_ & D2 & _).
  destruct (Dump world (ir_dumper p2)) as [ok d']. cbn [fst snd] in *.
  destruct ok; cbn [negb fst snd ir_dumper print_err set_ir_dumper]; [|done].
  by rewrite D2.
Qed.

(** Extra X16.  Nothing is linked that no dump declares.  Every declaration
    the dumper holds when [main] ends is an entry of a dump file of the
    command line that was decoded with success ([MergeGraphs] as modelled: a
    union by key), and its source file passes the header test with the
    exported headers of the linker.  This holds however the run ends and
    however the aggregation threads were scheduled. *)
Theorem linked_declarations_come_from_dumps (cl : CommandLine)
    (d : LinkableMessageIR) :
  d ∈ linkable_messages (ir_dumper (main world cl).2) →
  ∃ path dump c k,
    path ∈ dump_files cl
    ∧ ReadDump world (input_format cl)
        (exported_headers_ (this (main world cl).2)) path
      = Some dump
    ∧ (k, d) ∈ dump c
    ∧ in_exported_headers (exported_headers_ (this (main world cl).2))
        (GetSourceFile d)
      = true.
Proof.
  unfold main.
  destruct (String.eqb (so_file cl) "" && String.eqb (version_script cl) "");
    cbn [fst snd]; [by intros ?%elem_of_nil|].
  set (cl' := if no_filter cl then clear_exported_header_dirs cl else cl).
  assert (dump_files cl' = dump_files cl ∧ input_format cl' = input_format cl)
    as [Ed Ei] by (unfold cl'; by destruct (no_filter cl)).
  assert (Hbody : ∀ q r p',
            link_and_dump_body world cl' q = (r, p') →
            d ∈ linkable_messages (ir_dumper p') →
            ∃ path dump c k,
              path ∈ dump_files cl
              ∧ ReadDump world (input_format cl) (exported_headers_ (this p')) path
                = Some dump
              ∧ (k, d) ∈ dump c
              ∧ in_exported_headers (exported_headers_ (this p')) (GetSourceFile d)
                = true).
  { intros q r p' Hq Hd.
    destruct (link_and_dump_body_outcome world cl' q) as ((Hc & _) & _).
    pose proof (link_and_dump_body_linked cl' q d) as Hl.
    rewrite Hq in Hc, Hl. cbn [fst snd] in Hc, Hl.
    rewrite Hc, <- Ed, <- Ei. by apply Hl. }
  unfold LinkAndDump.
  destruct (String.eqb (so_file cl') ""); cbn [negb].
  - unfold ParseVersionScriptFiles.
    destruct (VersionScriptParser_Parse _ _ _ _) as [vs|]; cbn [fst snd];
      [|by intros ?%elem_of_nil].
    destruct (CreateRegexMatchExprFromSet (GetFunctionRegexs vs)); cbn [fst snd];
      [|by intros ?%elem_of_nil].
    destruct (CreateRegexMatchExprFromSet (GetGlobVarRegexs vs)); cbn [fst snd];
      [|by intros ?%elem_of_nil].
    match goal with |- context [link_and_dump_body world cl' ?q] =>
      specialize (Hbody q);
      destruct (link_and_dump_body world cl' q) as [[[]| | |] p']
    end; cbn [fst snd ir_dumper this print_err] in *; by eapply Hbody.
  - unfold ParseSoFile.
    destruct (createBinary world (so_file cl')); cbn [negb fst snd];
      try by intros ?%elem_of_nil.
    match goal with |- context [link_and_dump_body world cl' ?q] =>
      specialize (Hbody q);
      destruct (link_and_dump_body world cl' q) as [[[]| | |] p']
    end; cbn [fst snd ir_dumper this print_err] in *; by eapply Hbody.
Qed.


End Orchestrator.

(* ===================================================================== *)
(** ** The further properties at work *)
(* ===================================================================== *)

(** Extra X2 at work: a dumper that refuses every declaration makes
    [LinkDecl] fail on the first record that passes the header test. *)
Lemma LinkDecl_fails_only_on_refusal_witness :
  errs (LinkDecl Scenario.world_refusing_declarations Scenario.three_decls
          (linker_filter RecordTypes)
          (Scenario.process_with_headers {["A.h"]})).2
  = ["Failed to add element to linked dump"].
Proof.
  destruct (LinkDecl_fails_only_on_refusal Scenario.world_refusing_declarations
              Scenario.three_decls RecordTypes
              (Scenario.process_with_headers {["A.h"]})) as [H _].
  destruct H as [E _]; [vm_compute; reflexivity|]. exact E.
Defined.

(** Extra X3 at work: of three records, the two that pass the header test
    are forwarded. *)
Lemma LinkTypes_forwards_types_in_order_witness :
  linkable_messages
    (ir_dumper (LinkTypes Scenario.world (Cases.records_only Scenario.three_decls)
                  (Scenario.process_with_headers {["A.h"]})).2)
  = [Scenario.decl "A.h" "a"; Scenario.decl "" "c"].
Proof.
  rewrite (LinkTypes_forwards_types_in_order Scenario.world
             (Cases.records_only Scenario.three_decls)
             (Scenario.process_with_headers {["A.h"]}) (λ _ _, eq_refl)).
  vm_compute. reflexivity.
Defined.


(** Extra X6 at work: [libfoo.so] is not an object file. *)
Lemma unresolved_exports_stop_the_run_witness :
  (main Cases.world_without_object_file Scenario.with_so).1 = Returned (-1)%Z.
Proof.
  apply (proj1 (unresolved_exports_stop_the_run Cases.world_without_object_file
                  Scenario.with_so)).
  - simpl. discriminate.
  - reflexivity.
Defined.

(** Extra X7 at work. *)
Lemma no_filter_ignores_exported_header_dirs_witness :
  main Scenario.world (with_exported_header_dirs ["elsewhere"] Cases.with_no_filter)
  = main Scenario.world Cases.with_no_filter.
Proof.
  apply (no_filter_ignores_exported_header_dirs Scenario.world Cases.with_no_filter).
  reflexivity.
Defined.

(** Extra X8 at work. *)
Lemma binary_mode_never_uses_wildcards_witness :
  functions_vs_regex_ (this (main Scenario.world Scenario.with_so).2) = regex_default.
Proof.
  apply (proj2 (binary_mode_never_uses_wildcards Scenario.world) Scenario.with_so).
  simpl. discriminate.
Defined.

(** Extra X9 at work: [foo_bar] enters the matched set through [foo_*]. *)
Lemma matched_sets_hold_wildcard_matches_only_witness :
  "foo_bar" ∈ functions_regex_matched_set (this Cases.after_version_script)
  ∨ (function_decl_map_ (this Cases.after_version_script) !! "foo_bar" = None
     ∧ regex_search "foo_bar" (functions_vs_regex_ (this Cases.after_version_script))
       = true
     ∧ ∃ d, ("foo_bar", d) ∈ Scenario.dump_of "a.dump" Functions
            ∧ in_exported_headers
                (exported_headers_ (this Cases.after_version_script))
                (GetSourceFile d)
              = true).
Proof.
  apply (proj1 (matched_sets_hold_wildcard_matches_only Scenario.world
                  (Scenario.dump_of "a.dump") Cases.after_version_script "foo_bar")).
  apply (bool_decide_unpack _). vm_compute. exact I.
Defined.

(** Extra X10 at work: fourteen files, two threads taking turns. *)
Lemma every_batch_claimed_once_witness :
  ∃ a,
    run_threads Scenario.world Json Scenario.fourteen ∅ (start_aggregation 2)
      Cases.taking_turns = Some a
    ∧ concat (claimed <$> threads a) ≡ₚ offsets 2.
Proof.
  eexists. split; [reflexivity|].
  destruct (every_batch_claimed_once Scenario.world Json Scenario.fourteen ∅ 2
              Cases.taking_turns _ ltac:(vm_compute; discriminate) eq_refl)
    as (_ & _ & H).
  apply H; [lia|vm_compute; reflexivity].
Defined.

(** Extra X11 at work: the thread that obtains offset 7 decodes from the
    first file on. *)
Lemma decoded_ranges_start_at_first_file_witness :
  ∃ a t,
    run_threads Scenario.world Json Scenario.fourteen ∅ (start_aggregation 2)
      [0; 1] = Some a
    ∧ threads a !! 1 = Some t
    ∧ decoded t = flat_map (reads_at Scenario.fourteen) (claimed t).
Proof.
  eexists. eexists. split; [reflexivity|]. split; [reflexivity|].
  apply (decoded_ranges_start_at_first_file Scenario.world Json Scenario.fourteen
           ∅ 2 [0; 1] _ ltac:(vm_compute; discriminate) eq_refl).
  right. left.
Defined.

(** Extra X12 at work: fourteen files cost 7 + 14 calls of [ReadDump]. *)
Lemma number_of_dumps_decoded_witness :
  ∃ a,
    run_threads Scenario.world Json Scenario.fourteen ∅ (start_aggregation 2)
      Cases.taking_turns = Some a
    ∧ length (concat (decoded <$> threads a)) = 21.
Proof.
  eexists. split; [reflexivity|].
  etrans.
  - apply (number_of_dumps_decoded Scenario.world Json Scenario.fourteen ∅ 2
             Cases.taking_turns _ ltac:(vm_compute; discriminate)).
    + lia.
    + reflexivity.
    + vm_compute. reflexivity.
  - reflexivity.
Defined.


(** Extra X14 at work: two threads taking turns and the calling thread
    alone. *)
Lemma merged_keys_independent_of_schedule_witness :
  ∃ merged merged',
    aggregate Scenario.world Json Scenario.fourteen ∅ 2 Cases.taking_turns
    = Returned merged
    ∧ aggregate Scenario.world Json Scenario.fourteen ∅ 1 [0; 0; 0; 0]
      = Returned merged'
    ∧ ("f1" ∈ keys (merged Functions) ↔ "f1" ∈ keys (merged' Functions)).
Proof.
  eexists. eexists. split; [reflexivity|]. split; [reflexivity|].
  apply (proj2 (merged_keys_independent_of_schedule Scenario.world Json
                  Scenario.fourteen ∅ 2 1 Cases.taking_turns [0; 0; 0; 0] _ _
                  ltac:(vm_compute; discriminate) ltac:(lia) ltac:(lia)
                  eq_refl eq_refl)).
Defined.

(** Extra X15 at work. *)
Lemma exit_status_zero_needs_readable_dumps_witness :
  all_readable Scenario.world Json
    (exported_headers_ (this (main Scenario.world Scenario.with_so).2))
    ["a.dump"; "b.dump"; "c.dump"].
Proof.
  apply (exit_status_zero_needs_readable_dumps Scenario.world Scenario.with_so).
  - vm_compute. discriminate.
  - vm_compute. reflexivity.
Defined.

(** Extra X16 at work: the declaration of [f1] in the output of the run. *)
Lemma linked_declarations_come_from_dumps_witness :
  ∃ path dump c k,
    path ∈ dump_files Scenario.with_so
    ∧ ReadDump Scenario.world (input_format Scenario.with_so)
        (exported_headers_ (this (main Scenario.world Scenario.with_so).2)) path
      = Some dump
    ∧ (k, Scenario.decl "include/api.h" "int f1()") ∈ dump c
    ∧ in_exported_headers
        (exported_headers_ (this (main Scenario.world Scenario.with_so).2))
        (GetSourceFile (Scenario.decl "include/api.h" "int f1()"))
      = true.
Proof.
  apply (linked_declarations_come_from_dumps Scenario.world Scenario.with_so).
  vm_compute. left.
Defined.

